(** * The batching queue of the Tana MCP server

    A shallow embedding of [BatchingQueue] (src/server/batching-queue.ts):
    admission checks, splitting of oversized creates, pacing, retries with
    exponential backoff and the tracked workspace node count.

    JavaScript runs every piece of code between two [await]s to completion.
    The embedding follows that: the state of the queue object and of the
    suspended asynchronous functions is a value of type [World], and each
    event of the event loop (a caller invoking a public method, a timer
    firing, the HTTP executor returning) is one call of [step]. *)

From Stdlib Require Import String ZArith List Bool Lia PeanoNat Permutation Sorted.
Import ListNotations.
Open Scope Z_scope.

(** ** Arrays *)

(** [Array.prototype.slice(start, end)] on integer arguments: a negative
    index counts from the end, and both indices are clamped to the array. *)
Definition slice {T : Type} (l : list T) (start stop : Z) : list T :=
  let len := Z.of_nat (length l) in
  let clamp k := if k <? 0 then Z.max (len + k) 0 else Z.min k len in
  let s := clamp start in
  let e := clamp stop in
  firstn (Z.to_nat (e - s)) (skipn (Z.to_nat s) l).

(** The loop of [chunkNodes]:
    [for (let i = 0; i < nodes.length; i += chunkSize) chunks.push(nodes.slice(i, i + chunkSize))].
    The loop does not terminate when [chunkSize <= 0] and [nodes] is not
    empty; [fuel] bounds the number of iterations and [None] is returned
    when it runs out. *)
Fixpoint chunkLoop {T : Type} (fuel : nat) (nodes : list T) (chunkSize i : Z)
    (chunks : list (list T)) : option (list (list T)) :=
  if i <? Z.of_nat (length nodes) then
    match fuel with
    | O => None
    | S fuel' =>
        chunkLoop fuel' nodes chunkSize (i + chunkSize)
          (chunks ++ [slice nodes i (i + chunkSize)])
    end
  else Some chunks.

(** [chunkNodes(nodes, chunkSize)]; one unit of fuel per node is enough
    whenever the loop terminates at all (lemma [chunkNodes_diverges_iff]). *)
Definition chunkNodes {T : Type} (nodes : list T) (chunkSize : Z)
    : option (list (list T)) :=
  chunkLoop (length nodes) nodes chunkSize 0 [].

(** ** Requests, responses and errors *)

(** [BatchingOptions]. *)
Record BatchingOptions := {
  maxNodesPerRequest : Z;
  maxPayloadSize : Z;
  maxWorkspaceNodes : Z;
  rateLimit : Z;
  maxRetries : Z;
  baseBackoffMs : Z
}.

(** The defaults of the constructor. *)
Definition defaultOptions : BatchingOptions := {|
  maxNodesPerRequest := 100;
  maxPayloadSize := 5000;
  maxWorkspaceNodes := 750000;
  rateLimit := 1;
  maxRetries := 3;
  baseBackoffMs := 1000
|}.

(** What the HTTP executor throws ([executeHttpRequest]): an error built
    from the status line when the remote answered with an error status, or
    the underlying error otherwise. *)
Inductive TransportError :=
| ApiError (status : Z) (statusText : string)
| NetworkError (message : string).

(** The errors the queue itself constructs; the constructor arguments are
    the values interpolated into the message. *)
Inductive QueueError :=
| WorkspaceLimitExceeded (estimatedNewNodes limit current : Z)
| PayloadTooLarge (payloadSize limit : Z)
| RetriesExceeded (retries : Z) (cause : TransportError).

Section Queue.

(** Node specifications and per-node results are opaque to the queue. *)
Variables TanaNode TanaNodeResponse : Type.

(** [TanaAPIRequest]: [TanaCreateNodesRequest | TanaSetNameRequest]. *)
Inductive TanaAPIRequest :=
| CreateNodes (targetNodeId : option string) (nodes : list TanaNode)
| SetName (targetNodeId : string) (setName : string).

(** [TanaAPIResponse]: [{ children?: TanaNodeResponse[] }]. *)
Record TanaAPIResponse := { children : option (list TanaNodeResponse) }.

(** [JSON.stringify(request).length]. *)
Variable jsonLength : TanaAPIRequest -> Z.

(** The options a queue was constructed with. *)
Variable options : BatchingOptions.

(** [isCreateNodesRequest]: ['nodes' in request]. *)
Definition isCreateNodesRequest (request : TanaAPIRequest) : bool :=
  match request with
  | CreateNodes _ _ => true
  | SetName _ _ => false
  end.

(** [combineResponses]. *)
Definition combineResponses (responses : list TanaAPIResponse) : TanaAPIResponse :=
  fold_left
    (fun combined response =>
       match children response with
       | Some cs =>
           {| children :=
                Some (match children combined with Some acc => acc | None => [] end ++ cs) |}
       | None => combined
       end)
    responses {| children := Some [] |}.

(** How a promise ends. *)
Inductive Settlement :=
| Resolved (response : TanaAPIResponse)
| Rejected (error : QueueError).

(** The frame of a suspended [handleLargeCreateRequest]: the promise it
    will settle, the request it spreads into every chunk request, the
    chunks the [for] loop has not reached yet and [allResponses]. *)
Record SplitFrame := {
  logical : nat;
  target : option string;
  remaining : list (list TanaNode);
  allResponses : list TanaAPIResponse
}.

(** The [resolve]/[reject] pair of a queued request: either the promise
    handed to an outside caller of [enqueue], or the promise awaited by a
    suspended [handleLargeCreateRequest]. *)
Inductive Continuation :=
| Caller (future : nat)
| Chunk (frame : SplitFrame).

(** [QueuedRequest]; [id] is the number in [req_<n>]. *)
Record QueuedRequest := {
  id : Z;
  request : TanaAPIRequest;
  cont : Continuation;
  timestamp : Z;
  retryCount : Z
}.

(** Where the worker ([processQueue]) is suspended. *)
Inductive WorkerPhase :=
| Idle
| Pacing (wakeAt : Z)
| InFlight (entry : QueuedRequest)
| BackingOff (entry : QueuedRequest) (wakeAt : Z).

(** One call of [executeRequest]. *)
Record Dispatch := { at_ : Z; sent : QueuedRequest }.

(** The fields of the [BatchingQueue] object. *)
Record BatchingQueue := {
  queue : list QueuedRequest;
  processing : bool;
  lastRequestTime : Z;
  totalNodeCount : Z;
  requestId : Z
}.

(** The queue object together with its surroundings: the clock
    ([Date.now()]), the suspended worker, the promises handed out so far
    and how they were settled, the calls made to the executor, and whether
    the thread is stuck in a loop that never ends. *)
Record World := {
  self : BatchingQueue;
  now : Z;
  worker : WorkerPhase;
  nextFuture : nat;
  settled : list (nat * Settlement);
  dispatched : list Dispatch;
  hung : bool
}.

Definition newQueue : BatchingQueue := {|
  queue := [];
  processing := false;
  lastRequestTime := 0;
  totalNodeCount := 0;
  requestId := 0
|}.

(** A freshly constructed queue at time [t]. *)
Definition init (t : Z) : World := {|
  self := newQueue;
  now := t;
  worker := Idle;
  nextFuture := O;
  settled := [];
  dispatched := [];
  hung := false
|}.

Definition withSelf (w : World) (q : BatchingQueue) : World :=
  {| self := q; now := now w; worker := worker w; nextFuture := nextFuture w;
     settled := settled w; dispatched := dispatched w; hung := hung w |}.

Definition withWorker (w : World) (p : WorkerPhase) : World :=
  {| self := self w; now := now w; worker := p; nextFuture := nextFuture w;
     settled := settled w; dispatched := dispatched w; hung := hung w |}.

Definition withNow (w : World) (t : Z) : World :=
  {| self := self w; now := t; worker := worker w; nextFuture := nextFuture w;
     settled := settled w; dispatched := dispatched w; hung := hung w |}.

Definition withQueue (q : BatchingQueue) (l : list QueuedRequest) : BatchingQueue :=
  {| queue := l; processing := processing q; lastRequestTime := lastRequestTime q;
     totalNodeCount := totalNodeCount q; requestId := requestId q |}.

Definition withProcessing (q : BatchingQueue) (b : bool) : BatchingQueue :=
  {| queue := queue q; processing := b; lastRequestTime := lastRequestTime q;
     totalNodeCount := totalNodeCount q; requestId := requestId q |}.

Definition withLastRequestTime (q : BatchingQueue) (t : Z) : BatchingQueue :=
  {| queue := queue q; processing := processing q; lastRequestTime := t;
     totalNodeCount := totalNodeCount q; requestId := requestId q |}.

Definition withTotalNodeCount (q : BatchingQueue) (n : Z) : BatchingQueue :=
  {| queue := queue q; processing := processing q; lastRequestTime := lastRequestTime q;
     totalNodeCount := n; requestId := requestId q |}.

Definition withRequestId (q : BatchingQueue) (n : Z) : BatchingQueue :=
  {| queue := queue q; processing := processing q; lastRequestTime := lastRequestTime q;
     totalNodeCount := totalNodeCount q; requestId := n |}.

(** A new promise is created. *)
Definition bump (w : World) : World :=
  {| self := self w; now := now w; worker := worker w;
     nextFuture := S (nextFuture w); settled := settled w;
     dispatched := dispatched w; hung := hung w |}.

(** [this.queue.unshift(queuedRequest)]. *)
Definition unshift (q : QueuedRequest) (w : World) : World :=
  withSelf w (withQueue (self w) (q :: queue (self w))).

(** A promise is settled: the settlement is appended to the log. *)
Definition settle (f : nat) (s : Settlement) (w : World) : World :=
  {| self := self w; now := now w; worker := worker w; nextFuture := nextFuture w;
     settled := settled w ++ [(f, s)]; dispatched := dispatched w; hung := hung w |}.

(** The thread enters a loop that never ends. *)
Definition hang (w : World) : World :=
  {| self := self w; now := now w; worker := worker w; nextFuture := nextFuture w;
     settled := settled w; dispatched := dispatched w; hung := true |}.

(** The promise of the logical request a continuation works for. *)
Definition logicalFuture (k : Continuation) : nat :=
  match k with
  | Caller f => f
  | Chunk fr => logical fr
  end.

(** [reject(error)], and equally a [throw] inside [enqueue]: for an outside
    caller the promise is rejected; inside [handleLargeCreateRequest] the
    [await] throws, the function has no [catch], and its promise is
    rejected with the same error. [allResponses] is dropped with the frame. *)
Definition rejectWith (k : Continuation) (e : QueueError) (w : World) : World :=
  settle (logicalFuture k) (Rejected e) w.

(** ** The worker *)

(** [const queuedRequest = this.queue.shift(); if (!queuedRequest) break;]
    followed by the call of [executeRequest], at which the worker suspends. *)
Definition shiftAndExecute (w : World) : World :=
  match queue (self w) with
  | [] => withWorker (withSelf w (withProcessing (self w) false)) Idle
  | q :: rest =>
      {| self := withQueue (self w) rest; now := now w; worker := InFlight q;
         nextFuture := nextFuture w; settled := settled w;
         dispatched := dispatched w ++ [{| at_ := now w; sent := q |}];
         hung := hung w |}
  end.

(** The top of [while (this.queue.length > 0)], up to the next [await];
    [this.processing = false] when the loop is left. [1000 / rateLimit] is
    a floating-point division in the source; the integer division used here
    agrees with it when [rateLimit] divides 1000. For any other
    [rateLimit] the source compares with the quotient as it is, and the
    definition with the quotient rounded down: what is stated about the
    exact threshold of the pacing assumes that [rateLimit] divides 1000. *)
Definition whileLoop (w : World) : World :=
  match queue (self w) with
  | [] => withWorker (withSelf w (withProcessing (self w) false)) Idle
  | _ :: _ =>
      let timeSinceLastRequest := now w - lastRequestTime (self w) in
      let minInterval := 1000 / rateLimit options in
      if timeSinceLastRequest <? minInterval then
        let waitTime := minInterval - timeSinceLastRequest in
        withWorker w (Pacing (now w + waitTime))
      else shiftAndExecute w
  end.

(** [processQueue()], up to its first [await]. *)
Definition processQueue (w : World) : World :=
  if processing (self w) || (match queue (self w) with [] => true | _ => false end)
  then w
  else whileLoop (withSelf w (withProcessing (self w) true)).

(** ** Admission *)

(** The tail of [enqueue]: the new [QueuedRequest] is pushed and
    [processQueue] is called. *)
Definition pushRequest (k : Continuation) (r : TanaAPIRequest) (w : World) : World :=
  let queuedRequest :=
    {| id := requestId (self w) + 1; request := r; cont := k;
       timestamp := now w; retryCount := 0 |} in
  processQueue
    (withSelf w
       (withQueue (withRequestId (self w) (requestId (self w) + 1))
          (queue (self w) ++ [queuedRequest]))).

(** [this.isCreateNodesRequest(request) ? request.nodes.length : 0]. *)
Definition estimatedNewNodes (r : TanaAPIRequest) : Z :=
  match r with
  | CreateNodes _ nodes => Z.of_nat (length nodes)
  | SetName _ _ => 0
  end.

(** [enqueue], with the branch for oversized creates left to [large]. *)
Definition enqueueVia
    (large : Continuation -> option string -> list TanaNode -> World -> World)
    (k : Continuation) (r : TanaAPIRequest) (w : World) : World :=
  if totalNodeCount (self w) + estimatedNewNodes r >? maxWorkspaceNodes options then
    rejectWith k
      (WorkspaceLimitExceeded (estimatedNewNodes r) (maxWorkspaceNodes options)
         (totalNodeCount (self w))) w
  else
    let payloadSize := jsonLength r in
    if payloadSize >? maxPayloadSize options then
      rejectWith k (PayloadTooLarge payloadSize (maxPayloadSize options)) w
    else
      match r with
      | CreateNodes tgt nodes =>
          if Z.of_nat (length nodes) >? maxNodesPerRequest options
          then large k tgt nodes w
          else pushRequest k r w
      | SetName _ _ => pushRequest k r w
      end.

(** [this.enqueue(chunkRequest)] as called from [handleLargeCreateRequest].
    A chunk never has more than [maxNodesPerRequest] nodes (lemma
    [chunkNodes_small]), so the branch for oversized creates is not taken
    again; the embedding maps it to [hang]. *)
Definition enqueueChunk : Continuation -> TanaAPIRequest -> World -> World :=
  enqueueVia (fun _ _ _ w => hang w).

(** One turn of [for (const chunk of chunks)] in [handleLargeCreateRequest]:
    the next chunk request is enqueued and the function suspends on its
    promise; after the last chunk the combined response is returned. *)
Definition nextChunk (fr : SplitFrame) (w : World) : World :=
  match remaining fr with
  | [] => settle (logical fr) (Resolved (combineResponses (allResponses fr))) w
  | chunk :: rest =>
      enqueueChunk
        (Chunk {| logical := logical fr; target := target fr; remaining := rest;
                  allResponses := allResponses fr |})
        (CreateNodes (target fr) chunk) w
  end.

(** [handleLargeCreateRequest], up to its first [await]. *)
Definition handleLargeCreateRequest (k : Continuation) (tgt : option string)
    (nodes : list TanaNode) (w : World) : World :=
  match chunkNodes nodes (maxNodesPerRequest options) with
  | None => hang w
  | Some chunks =>
      nextChunk {| logical := logicalFuture k; target := tgt; remaining := chunks;
                   allResponses := [] |} w
  end.

(** [enqueue(request)]. *)
Definition enqueue : Continuation -> TanaAPIRequest -> World -> World :=
  enqueueVia handleLargeCreateRequest.

(** [resolve(response)]: an outside caller's promise is fulfilled; a
    suspended [handleLargeCreateRequest] resumes with
    [allResponses.push(response)] and the next turn of its loop. *)
Definition resolveWith (k : Continuation) (response : TanaAPIResponse) (w : World) : World :=
  match k with
  | Caller f => settle f (Resolved response) w
  | Chunk fr =>
      nextChunk {| logical := logical fr; target := target fr; remaining := remaining fr;
                   allResponses := allResponses fr ++ [response] |} w
  end.

(** [updateNodeCount]. *)
Definition updateNodeCount (r : TanaAPIRequest) (response : TanaAPIResponse)
    (q : BatchingQueue) : BatchingQueue :=
  if isCreateNodesRequest r then
    let nodesCreated :=
      match children response with
      | Some cs => Z.of_nat (length cs)
      | None => 0
      end in
    withTotalNodeCount q (totalNodeCount q + nodesCreated)
  else q.

(** [resetNodeCount]. *)
Definition resetNodeCount (q : BatchingQueue) : BatchingQueue :=
  withTotalNodeCount q 0.

(** [setNodeCount]. *)
Definition setNodeCount (count : Z) (q : BatchingQueue) : BatchingQueue :=
  withTotalNodeCount q (Z.max 0 count).

Definition withRetryCount (q : QueuedRequest) (n : Z) : QueuedRequest :=
  {| id := id q; request := request q; cont := cont q; timestamp := timestamp q;
     retryCount := n |}.

(** [handleRequestError], up to the [await this.sleep(backoffTime)]; when
    the retries are used up the promise is rejected and the worker is back
    at the top of its loop. *)
Definition handleRequestError (queuedRequest : QueuedRequest) (error : TransportError)
    (w : World) : World :=
  let queuedRequest := withRetryCount queuedRequest (retryCount queuedRequest + 1) in
  if retryCount queuedRequest <=? maxRetries options then
    let backoffTime := baseBackoffMs options * 2 ^ (retryCount queuedRequest - 1) in
    withWorker w (BackingOff queuedRequest (now w + Z.max 0 backoffTime))
  else
    let enhancedError := RetriesExceeded (maxRetries options) error in
    whileLoop (rejectWith (cont queuedRequest) enhancedError w).

(** The body of the [try] after [executeRequest] returned a response. The
    worker runs on to its next [await] before the reactions of the promise
    just resolved get their turn. *)
Definition handleResponse (queuedRequest : QueuedRequest) (response : TanaAPIResponse)
    (w : World) : World :=
  let w1 := withSelf w (updateNodeCount (request queuedRequest) response (self w)) in
  let w2 := withSelf w1 (withLastRequestTime (self w1) (now w1)) in
  resolveWith (cont queuedRequest) response (whileLoop w2).

(** ** Events *)

Inductive Outcome :=
| Success (response : TanaAPIResponse)
| Failure (error : TransportError).

Inductive Event :=
| CallEnqueue (r : TanaAPIRequest)
| CallSetNodeCount (count : Z)
| CallResetNodeCount
| Tick (ms : Z)
| TimerFires
| ExecutorReturns (o : Outcome).

(** One event of the event loop: a caller invokes [enqueue],
    [setNodeCount] or [resetNodeCount]; time passes; the timer of the
    pending [sleep] fires, not before its delay has passed, and the worker
    goes on after its [await]; the executor returns or throws, and the
    worker goes on after [await this.executeRequest]. An event the worker
    does not wait for changes nothing. *)
Definition step (w : World) (e : Event) : World :=
  if hung w then w else
  match e with
  | CallEnqueue r => enqueue (Caller (nextFuture w)) r (bump w)
  | CallSetNodeCount c => withSelf w (setNodeCount c (self w))
  | CallResetNodeCount => withSelf w (resetNodeCount (self w))
  | Tick ms => withNow w (now w + Z.max 0 ms)
  | TimerFires =>
      match worker w with
      | Pacing wakeAt => shiftAndExecute (withNow w (Z.max (now w) wakeAt))
      | BackingOff q wakeAt =>
          whileLoop (unshift q (withNow w (Z.max (now w) wakeAt)))
      | _ => w
      end
  | ExecutorReturns o =>
      match worker w with
      | InFlight q =>
          match o with
          | Success response => handleResponse q response w
          | Failure error => handleRequestError q error w
          end
      | _ => w
      end
  end.

(** A run: the events are taken from left to right. *)
Definition run (w : World) (es : list Event) : World := fold_left step es w.

(** The worlds a new queue can get into. *)
Definition reachable (w : World) : Prop :=
  exists t es, w = run (init t) es.

(** ** Observations used in the statements *)

(** The entry the worker holds while it is suspended, if any. *)
Definition workerEntry (p : WorkerPhase) : list QueuedRequest :=
  match p with
  | InFlight q => [q]
  | BackingOff q _ => [q]
  | _ => []
  end.

(** The entries that are not settled yet: the one in flight or backing
    off, then the pending list. *)
Definition entries (w : World) : list QueuedRequest :=
  workerEntry (worker w) ++ queue (self w).

(** The promise of the logical request an entry belongs to. *)
Definition logicalOf (q : QueuedRequest) : nat := logicalFuture (cont q).

(** An entry created by the call of [enqueue] that the outside caller
    made: the request itself, or the first chunk of a split. *)
Definition isFirstEntry (q : QueuedRequest) : bool :=
  match cont q with
  | Caller _ => true
  | Chunk fr => match allResponses fr with [] => true | _ :: _ => false end
  end.

(** How often the entry with the given id was handed to the executor. *)
Definition attempts (i : Z) (log : list Dispatch) : Z :=
  Z.of_nat (length (filter (fun d => id (sent d) =? i) log)).

(** The number of calls of the executor at times [from <= t < until]. *)
Definition attemptsIn (from until : Z) (log : list Dispatch) : Z :=
  Z.of_nat (length (filter (fun d => (from <=? at_ d) && (at_ d <? until)) log)).

(** The per-node results a settled promise hands to its caller. *)
Definition carriedResults (s : Settlement) : list TanaNodeResponse :=
  match s with
  | Resolved r => match children r with Some cs => cs | None => [] end
  | Rejected _ => []
  end.

(** The two conditions under which [enqueue] throws. *)
Definition denied (q : BatchingQueue) (r : TanaAPIRequest) : Prop :=
  maxWorkspaceNodes options < totalNodeCount q + estimatedNewNodes r \/
  maxPayloadSize options < jsonLength r.

(** The order the claim on overtaking asks for: when a dispatch for an
    older logical request follows a dispatch for a younger one, it is a
    retry. *)
Definition orderRespected (log : list Dispatch) : Prop :=
  forall i j older younger,
    (i < j)%nat ->
    nth_error log i = Some younger ->
    nth_error log j = Some older ->
    (logicalOf (sent older) < logicalOf (sent younger))%nat ->
    0 < retryCount (sent older).

(** ** Running the worker to the end *)

(** The event the suspended worker waits for; the executor's answer to
    its [n]-th call, made with the request [r], is [executor n r]. *)
Definition workerEvent (executor : nat -> TanaAPIRequest -> Outcome) (w : World)
    : option Event :=
  match worker w with
  | Idle => None
  | Pacing _ => Some TimerFires
  | BackingOff _ _ => Some TimerFires
  | InFlight q => Some (ExecutorReturns (executor (length (dispatched w)) (request q)))
  end.

(** At most [n] events of the worker, with no caller in between. *)
Fixpoint drain (executor : nat -> TanaAPIRequest -> Outcome) (n : nat) (w : World)
    : World :=
  match n with
  | O => w
  | S n' =>
      match workerEvent executor w with
      | None => w
      | Some e => drain executor n' (step w e)
      end
  end.

(** The attempts an entry may still get. *)
Definition attemptsLeft (q : QueuedRequest) : nat :=
  S (Z.to_nat (maxRetries options - retryCount q)).

(** A bound on the worker events an entry can still cause, the chunks
    that follow it included. *)
Definition weight (q : QueuedRequest) : nat :=
  (4 * attemptsLeft q +
   match cont q with
   | Caller _ => 0
   | Chunk fr => length (remaining fr) * (4 * S (Z.to_nat (maxRetries options)))
   end)%nat.

Definition totalWeight (l : list QueuedRequest) : nat :=
  fold_right (fun q acc => (weight q + acc)%nat) O l.

(** A bound on the worker events until the worker is idle. *)
Definition measure (w : World) : nat :=
  (match worker w with
   | Idle => 0
   | Pacing _ => 1
   | InFlight q => weight q - 1
   | BackingOff q _ => 2 + weight q
   end + totalWeight (queue (self w)))%nat.

End Queue.

Arguments CreateNodes {TanaNode} targetNodeId nodes.
Arguments SetName {TanaNode} targetNodeId setName.
Arguments Build_TanaAPIResponse {TanaNodeResponse} children.
Arguments children {TanaNodeResponse} t.
Arguments Resolved {TanaNodeResponse} response.
Arguments Rejected {TanaNodeResponse} error.
Arguments Caller {TanaNode TanaNodeResponse} future.
Arguments Chunk {TanaNode TanaNodeResponse} frame.
Arguments Success {TanaNodeResponse} response.
Arguments Failure {TanaNodeResponse} error.
Arguments CallEnqueue {TanaNode TanaNodeResponse} r.
Arguments CallSetNodeCount {TanaNode TanaNodeResponse} count.
Arguments CallResetNodeCount {TanaNode TanaNodeResponse}.
Arguments Tick {TanaNode TanaNodeResponse} ms.
Arguments TimerFires {TanaNode TanaNodeResponse}.
Arguments ExecutorReturns {TanaNode TanaNodeResponse} o.
Arguments Idle {TanaNode TanaNodeResponse}.
Arguments Pacing {TanaNode TanaNodeResponse} wakeAt.
Arguments InFlight {TanaNode TanaNodeResponse} entry.
Arguments BackingOff {TanaNode TanaNodeResponse} entry wakeAt.
Arguments settle {TanaNode TanaNodeResponse}.
Arguments hang {TanaNode TanaNodeResponse}.
Arguments whileLoop {TanaNode TanaNodeResponse}.
Arguments shiftAndExecute {TanaNode TanaNodeResponse}.
Arguments processQueue {TanaNode TanaNodeResponse}.
Arguments pushRequest {TanaNode TanaNodeResponse}.
Arguments enqueueVia {TanaNode TanaNodeResponse}.
Arguments enqueueChunk {TanaNode TanaNodeResponse}.
Arguments nextChunk {TanaNode TanaNodeResponse}.
Arguments handleLargeCreateRequest {TanaNode TanaNodeResponse}.
Arguments enqueue {TanaNode TanaNodeResponse}.
Arguments resolveWith {TanaNode TanaNodeResponse}.
Arguments rejectWith {TanaNode TanaNodeResponse}.
Arguments updateNodeCount {TanaNode TanaNodeResponse}.
Arguments resetNodeCount {TanaNode TanaNodeResponse}.
Arguments setNodeCount {TanaNode TanaNodeResponse}.
Arguments handleRequestError {TanaNode TanaNodeResponse}.
Arguments handleResponse {TanaNode TanaNodeResponse}.
Arguments step {TanaNode TanaNodeResponse}.
Arguments run {TanaNode TanaNodeResponse}.
Arguments reachable {TanaNode TanaNodeResponse}.
Arguments init {TanaNode TanaNodeResponse}.
Arguments newQueue {TanaNode TanaNodeResponse}.
Arguments entries {TanaNode TanaNodeResponse}.
Arguments workerEntry {TanaNode TanaNodeResponse}.
Arguments logicalOf {TanaNode TanaNodeResponse}.
Arguments isFirstEntry {TanaNode TanaNodeResponse}.
Arguments attempts {TanaNode TanaNodeResponse}.
Arguments attemptsIn {TanaNode TanaNodeResponse}.
Arguments carriedResults {TanaNodeResponse}.
Arguments denied {TanaNode TanaNodeResponse}.
Arguments orderRespected {TanaNode TanaNodeResponse}.
Arguments workerEvent {TanaNode TanaNodeResponse}.
Arguments drain {TanaNode TanaNodeResponse}.
Arguments attemptsLeft {TanaNode TanaNodeResponse}.
Arguments weight {TanaNode TanaNodeResponse}.
Arguments totalWeight {TanaNode TanaNodeResponse}.
Arguments measure {TanaNode TanaNodeResponse}.
Arguments combineResponses {TanaNodeResponse}.
Arguments isCreateNodesRequest {TanaNode}.
Arguments estimatedNewNodes {TanaNode}.
Arguments logicalFuture {TanaNode TanaNodeResponse}.
Arguments withSelf {TanaNode TanaNodeResponse}.
Arguments withWorker {TanaNode TanaNodeResponse}.
Arguments withNow {TanaNode TanaNodeResponse}.
Arguments withQueue {TanaNode TanaNodeResponse}.
Arguments withProcessing {TanaNode TanaNodeResponse}.
Arguments withLastRequestTime {TanaNode TanaNodeResponse}.
Arguments withTotalNodeCount {TanaNode TanaNodeResponse}.
Arguments withRequestId {TanaNode TanaNodeResponse}.
Arguments withRetryCount {TanaNode TanaNodeResponse}.
Arguments bump {TanaNode TanaNodeResponse}.
Arguments unshift {TanaNode TanaNodeResponse}.
Arguments logical {TanaNode TanaNodeResponse}.
Arguments target {TanaNode TanaNodeResponse}.
Arguments remaining {TanaNode TanaNodeResponse}.
Arguments allResponses {TanaNode TanaNodeResponse}.
Arguments id {TanaNode TanaNodeResponse}.
Arguments request {TanaNode TanaNodeResponse}.
Arguments cont {TanaNode TanaNodeResponse}.
Arguments timestamp {TanaNode TanaNodeResponse}.
Arguments retryCount {TanaNode TanaNodeResponse}.
Arguments at_ {TanaNode TanaNodeResponse}.
Arguments sent {TanaNode TanaNodeResponse}.
Arguments queue {TanaNode TanaNodeResponse}.
Arguments processing {TanaNode TanaNodeResponse}.
Arguments lastRequestTime {TanaNode TanaNodeResponse}.
Arguments totalNodeCount {TanaNode TanaNodeResponse}.
Arguments requestId {TanaNode TanaNodeResponse}.
Arguments self {TanaNode TanaNodeResponse}.
Arguments now {TanaNode TanaNodeResponse}.
Arguments worker {TanaNode TanaNodeResponse}.
Arguments nextFuture {TanaNode TanaNodeResponse}.
Arguments settled {TanaNode TanaNodeResponse}.
Arguments dispatched {TanaNode TanaNodeResponse}.
Arguments hung {TanaNode TanaNodeResponse}.

(** ** Scenarios

    Node specifications and node results are numbers here, and the length
    of the serialized request grows with the number of nodes. *)
Module Scenarios.

Definition sizeOf (r : TanaAPIRequest nat) : Z :=
  match r with
  | CreateNodes _ nodes => 20 + 10 * Z.of_nat (length nodes)
  | SetName _ name => 30 + Z.of_nat (String.length name)
  end.

(** The executor created every node of the list. *)
Definition created (ids : list nat) : Outcome nat :=
  Success {| children := Some ids |}.

Definition badRequest : TransportError := ApiError 400 "Bad Request".
Definition unavailable : TransportError := ApiError 503 "Service Unavailable".

(** A workspace that may hold ten nodes. *)
Definition tenNodes : BatchingOptions := {|
  maxNodesPerRequest := 100; maxPayloadSize := 5000; maxWorkspaceNodes := 10;
  rateLimit := 1; maxRetries := 3; baseBackoffMs := 1000 |}.

(** Two creates of six nodes each are admitted one after the other, then
    both are sent and both succeed. *)
Definition twoAdmitted : list (Event nat nat) :=
  [ CallEnqueue (CreateNodes None [1; 2; 3; 4; 5; 6]%nat);
    CallEnqueue (CreateNodes None [7; 8; 9; 10; 11; 12]%nat);
    ExecutorReturns (created [101; 102; 103; 104; 105; 106]%nat);
    TimerFires;
    ExecutorReturns (created [107; 108; 109; 110; 111; 112]%nat) ].

(** One request per second, a short backoff. *)
Definition shortBackoff : BatchingOptions := {|
  maxNodesPerRequest := 100; maxPayloadSize := 5000; maxWorkspaceNodes := 750000;
  rateLimit := 1; maxRetries := 3; baseBackoffMs := 100 |}.

(** One rename whose every attempt fails. *)
Definition alwaysFailing : list (Event nat nat) :=
  [ CallEnqueue (SetName "node" "name");
    ExecutorReturns (Failure unavailable); TimerFires;
    ExecutorReturns (Failure unavailable); TimerFires;
    ExecutorReturns (Failure unavailable); TimerFires;
    ExecutorReturns (Failure unavailable) ].

(** At most two nodes per request, no retries. *)
Definition pairs : BatchingOptions := {|
  maxNodesPerRequest := 2; maxPayloadSize := 5000; maxWorkspaceNodes := 750000;
  rateLimit := 1; maxRetries := 0; baseBackoffMs := 1000 |}.

(** A create of five nodes: the first chunk succeeds, the second fails. *)
Definition secondChunkFails : list (Event nat nat) :=
  [ CallEnqueue (CreateNodes None [1; 2; 3; 4; 5]%nat);
    ExecutorReturns (created [101; 102]%nat);
    TimerFires;
    ExecutorReturns (Failure badRequest) ].

(** A create of three nodes, then a rename; every call succeeds. *)
Definition renameOvertakes : list (Event nat nat) :=
  [ CallEnqueue (CreateNodes None [1; 2; 3]%nat);
    CallEnqueue (SetName "node" "name");
    ExecutorReturns (created [101; 102]%nat);
    TimerFires;
    ExecutorReturns (Success {| children := None |});
    TimerFires;
    ExecutorReturns (created [103]%nat) ].

(** One retry. *)
Definition oneRetry : BatchingOptions := {|
  maxNodesPerRequest := 100; maxPayloadSize := 5000; maxWorkspaceNodes := 750000;
  rateLimit := 1; maxRetries := 1; baseBackoffMs := 1000 |}.

(** One rename, every attempt fails with a transient error. *)
Definition failsTwice : list (Event nat nat) :=
  [ CallEnqueue (SetName "node" "name");
    ExecutorReturns (Failure unavailable); TimerFires;
    ExecutorReturns (Failure unavailable) ].

(** A create of five nodes, every chunk succeeds. *)
Definition allChunksSucceed : list (Event nat nat) :=
  [ CallEnqueue (CreateNodes None [1; 2; 3; 4; 5]%nat);
    ExecutorReturns (created [101; 102]%nat); TimerFires;
    ExecutorReturns (created [103; 104]%nat); TimerFires;
    ExecutorReturns (created [105]%nat) ].

(** An executor that answers every create with one result per node: the
    successor of the node's number. *)
Definition creator (n : nat) (r : TanaAPIRequest nat) : Outcome nat :=
  match r with
  | CreateNodes _ nodes => Success {| children := Some (map S nodes) |}
  | SetName _ _ => Success {| children := None |}
  end.

(** The count is seeded with eight nodes. *)
Definition eightInUse : list (Event nat nat) := [CallSetNodeCount 8].

(** One rename is enqueued. *)
Definition oneRename : list (Event nat nat) := [CallEnqueue (SetName "node" "name")].

(** The only entry [oneRename] creates, after the given number of failures. *)
Definition rename1 (retries : Z) : QueuedRequest nat nat :=
  {| id := 1; request := SetName "node" "name"; cont := Caller 0;
     timestamp := 5000; retryCount := retries |}.

(** The frame of the split of [secondChunkFails] while its second chunk
    is in flight, and the entry of that chunk. *)
Definition frame2 : SplitFrame nat nat :=
  {| logical := 0; target := None; remaining := [[5%nat]];
     allResponses := [{| children := Some [101; 102]%nat |}] |}.

Definition chunk2 : QueuedRequest nat nat :=
  {| id := 2; request := CreateNodes None [3; 4]%nat; cont := Chunk frame2;
     timestamp := 5000; retryCount := 0 |}.

(** [secondChunkFails] up to the answer to the second chunk. *)
Definition secondChunkInFlight : list (Event nat nat) :=
  [ CallEnqueue (CreateNodes None [1; 2; 3; 4; 5]%nat);
    ExecutorReturns (created [101; 102]%nat);
    TimerFires ].

(** The calls of the executor in [renameOvertakes]: the first chunk of
    the create, the rename, the second chunk of the create. *)
Definition firstChunkCall : Dispatch nat nat :=
  {| at_ := 5000; sent :=
       {| id := 1; request := CreateNodes None [1; 2]%nat;
          cont := Chunk {| logical := 0; target := None; remaining := [[3%nat]];
                           allResponses := [] |};
          timestamp := 5000; retryCount := 0 |} |}.

Definition renameCall : Dispatch nat nat :=
  {| at_ := 6000; sent :=
       {| id := 2; request := SetName "node" "name"; cont := Caller 1;
          timestamp := 5000; retryCount := 0 |} |}.

Definition secondChunkCall : Dispatch nat nat :=
  {| at_ := 7000; sent :=
       {| id := 3; request := CreateNodes None [3%nat];
          cont := Chunk {| logical := 0; target := None; remaining := [];
                           allResponses := [{| children := Some [101; 102]%nat |}] |};
          timestamp := 5000; retryCount := 0 |} |}.

Definition overtakeLog : list (Dispatch nat nat) :=
  [firstChunkCall; renameCall; secondChunkCall].

(** [failsTwice] up to the answer to the second attempt. *)
Definition secondAttempt : list (Event nat nat) :=
  [ CallEnqueue (SetName "node" "name");
    ExecutorReturns (Failure unavailable); TimerFires ].

(** Two retries. *)
Definition twoRetries : BatchingOptions := {|
  maxNodesPerRequest := 100; maxPayloadSize := 5000; maxWorkspaceNodes := 750000;
  rateLimit := 1; maxRetries := 2; baseBackoffMs := 1000 |}.

Definition failsTwiceThenSucceeds : list (Event nat nat) :=
  [ CallEnqueue (SetName "node" "name");
    ExecutorReturns (Failure unavailable); TimerFires;
    ExecutorReturns (Failure unavailable); TimerFires;
    ExecutorReturns (Success {| children := None |}) ].



End Scenarios.

(** The classification the specification asks of the executor's errors: a
    failure is not retryable when the remote rejected the request itself
    (a client-error status). The source has no such classification. *)
Definition specNonRetryable (e : TransportError) : bool :=
  match e with
  | ApiError status _ => (400 <=? status) && (status <? 500)
  | NetworkError _ => false
  end.

(** ** Auxiliary definitions of the proofs *)

(** Chunking written by recursion on the list that is left. *)
Fixpoint chunksOf {T : Type} (fuel : nat) (size : nat) (l : list T) : list (list T) :=
  match fuel with
  | O => []
  | S fuel' =>
      match l with
      | [] => []
      | _ :: _ => firstn size l :: chunksOf fuel' size (skipn size l)
      end
  end.

(** The per-node results of a response. *)
Definition childrenOf {R : Type} (r : TanaAPIResponse R) : list R :=
  match children r with
  | Some cs => cs
  | None => []
  end.

(** *** The pieces [step] is made of *)

(** Two worlds that differ at most in the clock, the time of the last
    request and the node count. *)
Definition sameCore {N R : Type} (w w' : World N R) : Prop :=
  queue (self w') = queue (self w) /\
  processing (self w') = processing (self w) /\
  requestId (self w') = requestId (self w) /\
  worker w' = worker w /\
  nextFuture w' = nextFuture w /\
  settled w' = settled w /\
  dispatched w' = dispatched w /\
  hung w' = hung w.

(** No chunk is larger than [maxNodesPerRequest]. *)
Definition smallChunks {N : Type} (options : BatchingOptions) (chunks : list (list N)) : Prop :=
  Forall (fun ch => Z.of_nat (length ch) <= maxNodesPerRequest options) chunks.

(** The chunks a suspended [handleLargeCreateRequest] still has to send
    are small. *)
Definition goodK {N R : Type} (options : BatchingOptions) (k : Continuation N R) : Prop :=
  match k with
  | Caller _ => True
  | Chunk fr => smallChunks options (remaining fr)
  end.

(** The continuations [enqueue] creates for the promise it has just
    handed out. *)
Definition freshK {N R : Type} (options : BatchingOptions) (w : World N R)
    (k : Continuation N R) : Prop :=
  k = Caller (nextFuture w) \/
  exists fr, k = Chunk fr /\ logical fr = nextFuture w /\ allResponses fr = [] /\
             smallChunks options (remaining fr).

(** The frame of [handleLargeCreateRequest] after one more response. *)
Definition advance {N R : Type} (fr : SplitFrame N R) (rest : list (list N))
    (response : TanaAPIResponse R) : SplitFrame N R :=
  {| logical := logical fr; target := target fr; remaining := rest;
     allResponses := allResponses fr ++ [response] |}.

(** A property of worlds [P], with a companion [PQ q] for the moment in
    which the worker has let go of the entry [q] and the promise of [q] is
    about to be settled or passed on to the next chunk, that every piece
    of [step] maintains. *)
Record Closed {N R : Type} (options : BatchingOptions)
    (P : World N R -> Prop) (PQ : QueuedRequest N R -> World N R -> Prop) : Prop := {
  c_frame : forall w w', sameCore w w' -> P w -> P w';
  c_fresh_settle : forall w s, P w -> P (settle (nextFuture w) s (bump w));
  c_fresh_hang : forall w, P w -> P (hang (bump w));
  c_fresh_push : forall w k r,
      P w -> freshK options w k -> P (pushRequest options k r (bump w));
  c_retire : forall w q,
      P w -> worker w = InFlight q -> PQ q (whileLoop options (withWorker w Idle));
  c_settle : forall w q s, PQ q w -> P (settle (logicalOf q) s w);
  c_hang : forall w q, PQ q w -> P (hang w);
  c_push : forall w q fr chunk rest response r,
      PQ q w -> cont q = Chunk fr -> remaining fr = chunk :: rest ->
      P (pushRequest options (Chunk (advance fr rest response)) r w);
  c_backoff : forall w q t,
      P w -> worker w = InFlight q ->
      retryCount q + 1 <= maxRetries options ->
      P (withWorker w (BackingOff (withRetryCount q (retryCount q + 1)) t));
  c_unshift : forall w q t,
      P w -> worker w = BackingOff q t ->
      P (whileLoop options (withWorker (unshift q w) Idle));
  c_pace : forall w t, P w -> worker w = Pacing t -> P (shiftAndExecute w)
}.

(** The entry [enqueue] creates. *)
Definition newEntry {N R : Type} (k : Continuation N R) (r : TanaAPIRequest N)
    (w : World N R) : QueuedRequest N R :=
  {| id := requestId (self w) + 1; request := r; cont := k;
     timestamp := now w; retryCount := 0 |}.

(** The world in which the worker has just taken [q] from the list [q :: rest]. *)
Definition sending {N R : Type} (w : World N R) (q : QueuedRequest N R)
    (rest : list (QueuedRequest N R)) : World N R :=
  {| self := withQueue (self w) rest; now := now w; worker := InFlight q;
     nextFuture := nextFuture w; settled := settled w;
     dispatched := dispatched w ++ [{| at_ := now w; sent := q |}];
     hung := hung w |}.

(** What the top of the worker's loop can do. *)
Inductive LoopResult {N R : Type} (w : World N R) : World N R -> Prop :=
| LoopIdle :
    queue (self w) = [] ->
    LoopResult w (withWorker (withSelf w (withProcessing (self w) false)) Idle)
| LoopPace t q rest :
    queue (self w) = q :: rest ->
    LoopResult w (withWorker w (Pacing t))
| LoopSend q rest :
    queue (self w) = q :: rest ->
    LoopResult w (sending w q rest).

(** The worker and the [processing] flag agree. *)
Definition Ctl {N R : Type} (w : World N R) : Prop :=
  (worker w = Idle -> queue (self w) = [] /\ processing (self w) = false) /\
  (processing (self w) = false -> worker w = Idle).

(** The promises that are settled, then those of the entries. *)
Definition owed {N R : Type} (w : World N R) : list nat :=
  map fst (settled w) ++ map logicalOf (entries w).

(** Every promise handed out is accounted for once: it is in [limbo], or
    settled, or has an entry. *)
Definition Ledger {N R : Type} (limbo : list nat) (w : World N R) : Prop :=
  NoDup (limbo ++ owed w) /\
  (forall f, In f (limbo ++ owed w) -> (f < nextFuture w)%nat) /\
  (hung w = false -> forall f, (f < nextFuture w)%nat -> In f (limbo ++ owed w)).

(** The chunks still to be sent are small. *)
Definition Chunks {N R : Type} (options : BatchingOptions) (w : World N R) : Prop :=
  forall q, In q (entries w) -> goodK options (cont q).

Definition Sound {N R : Type} (options : BatchingOptions) (w : World N R) : Prop :=
  Ledger [] w /\ Chunks options w /\ Ctl w.

Definition SoundQ {N R : Type} (options : BatchingOptions) (q : QueuedRequest N R)
    (w : World N R) : Prop :=
  Ledger [logicalOf q] w /\ Chunks options w /\ Ctl w /\ goodK options (cont q).

(** The request has been pushed and [processQueue] is about to be called. *)
Definition pushed {N R : Type} (k : Continuation N R) (r : TanaAPIRequest N)
    (w : World N R) : World N R :=
  withSelf w
    (withQueue (withRequestId (self w) (requestId (self w) + 1))
       (queue (self w) ++ [newEntry k r w])).

(** [isFirstEntry], for the continuation of an entry that is yet to be
    created. *)
Definition isFirstK {N R : Type} (k : Continuation N R) : bool :=
  match k with
  | Caller _ => true
  | Chunk fr => match allResponses fr with [] => true | _ :: _ => false end
  end.

(** The ids of the entries handed to the executor, in the order of the calls. *)
Definition sentIds {N R : Type} (w : World N R) : list Z :=
  map (fun d => id (sent d)) (dispatched w).

(** Every entry the queue has created and not yet forgotten: those handed
    to the executor at least once, and those not settled yet. *)
Definition known {N R : Type} (w : World N R) : list (QueuedRequest N R) :=
  map sent (dispatched w) ++ entries w.

(** The retry counter of an entry is within its bounds. *)
Definition retryOk {N R : Type} (options : BatchingOptions) (q : QueuedRequest N R) : Prop :=
  0 <= retryCount q <= Z.max 0 (maxRetries options).

(** The order of the entries and of the calls of the executor, and the
    number of calls per entry. *)
Record OrderedCore {N R : Type} (options : BatchingOptions) (w : World N R) : Prop := {
  o_strict : StronglySorted Z.lt (map id (entries w));
  o_ids : forall q, In q (entries w) -> id q <= requestId (self w);
  o_log_ids : forall d, In d (dispatched w) -> id (sent d) <= requestId (self w);
  o_log_sorted : StronglySorted Z.le (sentIds w);
  o_log_before : forall d q,
      In d (dispatched w) -> In q (entries w) -> id (sent d) <= id q;
  o_count_queue : forall q,
      In q (queue (self w)) ->
      attempts (id q) (dispatched w) = retryCount q /\ retryOk options q;
  o_count_worker :
      match worker w with
      | InFlight q =>
          attempts (id q) (dispatched w) = retryCount q + 1 /\ retryOk options q
      | BackingOff q _ =>
          attempts (id q) (dispatched w) = retryCount q /\ retryOk options q
      | _ => True
      end;
  o_bound : forall i, attempts i (dispatched w) <= Z.max 0 (maxRetries options) + 1;
  o_first : forall e1 e2,
      In e1 (known w) -> In e2 (known w) ->
      isFirstEntry e1 = true ->
      (logicalOf e1 < logicalOf e2)%nat ->
      id e1 < id e2;
  o_logical : forall e, In e (known w) -> (logicalOf e < nextFuture w)%nat
}.

Definition Ordered {N R : Type} (options : BatchingOptions) (w : World N R) : Prop :=
  OrderedCore options w /\ Ctl w.

Definition OrderedQ {N R : Type} (options : BatchingOptions) (q : QueuedRequest N R)
    (w : World N R) : Prop :=
  Ordered options w /\ (logicalOf q < nextFuture w)%nat.

(** The requests handed to the executor, in the order of the calls. *)
Definition sentRequests {N R : Type} (w : World N R) : list (TanaAPIRequest N) :=
  map (fun d => request (sent d)) (dispatched w).

(** The response of an executor that creates every node it is given. *)
Definition answer {N R : Type} (result : N -> R) (nodes : list N) : TanaAPIResponse R :=
  {| children := Some (map result nodes) |}.

(** A split create is under way: the entry of [chunk] is the only entry,
    it waits for the pacing delay or is in flight, [rest] are the chunks
    after it and [done] the responses before it. *)
Record Waiting {N R : Type} (f : nat) (tgt : option string) (chunk : list N)
    (rest : list (list N)) (done : list (TanaAPIResponse R))
    (total : Z) (log : list (nat * Settlement R)) (reqs : list (TanaAPIRequest N))
    (w : World N R) : Prop := {
  wt_hung : hung w = false;
  wt_total : totalNodeCount (self w) = total;
  wt_settled : settled w = log;
  wt_entry : exists e,
      request e = CreateNodes tgt chunk /\
      cont e = Chunk {| logical := f; target := tgt; remaining := rest;
                        allResponses := done |} /\
      ((exists t, worker w = Pacing t /\ queue (self w) = [e] /\
                  sentRequests w = reqs) \/
       (worker w = InFlight e /\ queue (self w) = [] /\
        sentRequests w = reqs ++ [CreateNodes tgt chunk]))
}.

(** ** The rest of the queue's interface *)

From Stdlib Require Import Ascii.

(** The object [getStatus()] returns. *)
Module Status.
Record QueueStatus := {
  queueLength : Z;
  processing : bool;
  totalNodeCount : Z;
  lastRequestTime : Z
}.
End Status.

(** [getStatus()]. *)
Definition getStatus {N R : Type} (q : BatchingQueue N R) : Status.QueueStatus :=
  {| Status.queueLength := Z.of_nat (length (queue q));
     Status.processing := processing q;
     Status.totalNodeCount := totalNodeCount q;
     Status.lastRequestTime := lastRequestTime q |}.

(** The error [executeRequest] throws as the class declares it. *)
Definition unimplemented : TransportError :=
  NetworkError "executeRequest must be implemented by the HTTP client".

(** [executeRequest] before [setHttpExecutor] has replaced it: every call
    throws. *)
Definition executeRequest {N R : Type} (n : nat) (r : TanaAPIRequest N) : Outcome R :=
  Failure unimplemented.

(** An event a queue without an executor can see: whenever
    [executeRequest] returns, it has thrown [unimplemented]. *)
Definition fromDefaultExecutor {N R : Type} (e : Event N R) : Prop :=
  match e with
  | ExecutorReturns o => o = Failure unimplemented
  | _ => True
  end.

(** How a promise of a queue without an executor can end: denied at
    admission, or given up after the retries. *)
Definition rejectedUnsent {R : Type} (options : BatchingOptions) (s : Settlement R) : Prop :=
  match s with
  | Resolved _ => False
  | Rejected (RetriesExceeded n cause) => n = maxRetries options /\ cause = unimplemented
  | Rejected _ => True
  end.

(** The events the worker waits for, as opposed to calls from outside and
    the passing of time. *)
Definition isWorkerEvent {N R : Type} (e : Event N R) : bool :=
  match e with
  | TimerFires => true
  | ExecutorReturns _ => true
  | _ => false
  end.

(** A request the admission checks of [enqueue] let through to the list
    of pending requests. *)
Definition fits {N : Type} (jsonLength : TanaAPIRequest N -> Z) (options : BatchingOptions)
    (r : TanaAPIRequest N) : Prop :=
  jsonLength r <= maxPayloadSize options /\
  match r with
  | CreateNodes _ nodes => Z.of_nat (length nodes) <= maxNodesPerRequest options
  | SetName _ _ => True
  end.

(** *** Auxiliary definitions of the proofs *)

(** The worker keeps to [minInterval = 1000 / rateLimit]: a request is in
    flight only when that much time has passed since [lastRequestTime],
    and a pacing sleep ends exactly then. *)
Definition Timed {N R : Type} (options : BatchingOptions) (w : World N R) : Prop :=
  match worker w with
  | InFlight _ => lastRequestTime (self w) + 1000 / rateLimit options <= now w
  | Pacing t => t = lastRequestTime (self w) + 1000 / rateLimit options
  | _ => True
  end.

(** What the code run by one event does between two readings of the
    clock: the clock and [lastRequestTime] stay, and every call of the
    executor that is added is made at that time, [minInterval] after
    [lastRequestTime] or later. *)
Definition Move {N R : Type} (options : BatchingOptions) (w w' : World N R) : Prop :=
  now w' = now w /\
  lastRequestTime (self w') = lastRequestTime (self w) /\
  (Timed options w -> Timed options w') /\
  exists added,
    dispatched w' = dispatched w ++ added /\
    Forall (fun d => at_ d = now w /\
                     lastRequestTime (self w) + 1000 / rateLimit options <= now w) added.

(** The worker is where it was, no call of the executor was added, and
    the list of pending requests has grown at its end at most. *)
Definition Waits {N R : Type} (w w' : World N R) : Prop :=
  worker w' = worker w /\ dispatched w' = dispatched w /\
  exists added, queue (self w') = queue (self w) ++ added.

(** The requests of all known entries have the property [P]. *)
Definition AllKnown {N R : Type} (P : TanaAPIRequest N -> Prop) (w : World N R) : Prop :=
  forall q, In q (known w) -> P (request q).

(** Every promise settled so far was rejected without a call that
    succeeded. *)
Definition NothingSent {N R : Type} (options : BatchingOptions) (w : World N R) : Prop :=
  Forall (fun p => rejectedUnsent options (snd p)) (settled w).

(** ** The client *)

(** [TanaClient] (src/server/tana-client.ts) hands every request to a
    [BatchingQueue] constructed with the default options and awaits the
    promise [enqueue] returns. *)
Module TanaClient.

Section Client.

Variables TanaNode TanaNodeResponse : Type.

(** [createdNodes[i].nodeId]. *)
Variable nodeId : TanaNodeResponse -> string.

(** [{ nodeId: targetNodeId }]. *)
Variable ofNodeId : string -> TanaNodeResponse.

(** What the methods of the client throw: the error the queue rejected
    the promise with, or ['Failed to create node']. *)
Inductive ClientError :=
| QueueRejected (error : QueueError)
| FailedToCreateNode.

(** The arguments of one call of [mirrorStorage.storeNode]. *)
Record StoreCall := {
  nodeData : TanaNode;
  targetNodeId : option string;
  resultId : string
}.

(** The loop of [createNodes]:
    [for (let i = 0; i < nodes.length && i < createdNodes.length; i++)
       await this.mirrorStorage.storeNode(nodes[i], targetNodeId, createdNodes[i].nodeId)]
    inside [try { ... } catch]: when the [i]-th call throws ([throws i]) the
    loop is left. The loop makes at most [nodes.length] turns, which is
    what [fuel] counts. *)
Fixpoint storeLoop (fuel : nat) (throws : nat -> bool) (nodes : list TanaNode)
    (tgt : option string) (createdNodes : list TanaNodeResponse) (i : nat)
    (calls : list StoreCall) : list StoreCall :=
  match fuel with
  | O => calls
  | S fuel' =>
      match nth_error nodes i, nth_error createdNodes i with
      | Some node, Some created =>
          let call := {| nodeData := node; targetNodeId := tgt;
                         resultId := nodeId created |} in
          if throws i then calls ++ [call]
          else storeLoop fuel' throws nodes tgt createdNodes (S i) (calls ++ [call])
      | _, _ => calls
      end
  end.

(** [createNodes(targetNodeId, nodes)] once the promise of [makeRequest]
    is settled: what it returns or throws, and the calls of [storeNode] it
    makes. The request it sends is [CreateNodes targetNodeId nodes]. *)
Definition createNodes (throws : nat -> bool) (tgt : option string) (nodes : list TanaNode)
    (s : Settlement TanaNodeResponse)
    : (ClientError + list TanaNodeResponse) * list StoreCall :=
  match s with
  | Rejected error => (inl (QueueRejected error), [])
  | Resolved response =>
      let createdNodes := match children response with Some cs => cs | None => [] end in
      (inr createdNodes, storeLoop (length nodes) throws nodes tgt createdNodes O [])
  end.

(** [createNode(targetNodeId, node)]. *)
Definition createNode (throws : nat -> bool) (tgt : option string) (node : TanaNode)
    (s : Settlement TanaNodeResponse) : ClientError + TanaNodeResponse :=
  match fst (createNodes throws tgt [node] s) with
  | inl error => inl error
  | inr [] => inl FailedToCreateNode
  | inr (created :: _) => inr created
  end.

(** [setNodeName(targetNodeId, newName)] once the promise of
    [makeRequest] is settled; the request it sends is
    [SetName targetNodeId newName]. *)
Definition setNodeName (targetNodeId : string) (s : Settlement TanaNodeResponse)
    : ClientError + TanaNodeResponse :=
  match s with
  | Rejected error => inl (QueueRejected error)
  | Resolved response =>
      match children response with
      | Some (first :: _) => inr first
      | _ => inr (ofNodeId targetNodeId)
      end
  end.

End Client.

Arguments setNodeName {TanaNodeResponse}.
Arguments Build_StoreCall {TanaNode}.
Arguments nodeData {TanaNode}.
Arguments targetNodeId {TanaNode}.
Arguments resultId {TanaNode}.
Arguments storeLoop {TanaNode TanaNodeResponse}.
Arguments createNodes {TanaNode TanaNodeResponse}.
Arguments createNode {TanaNode TanaNodeResponse}.

(** The calls of [storeNode] that pair every node with the result at the
    same position, as far as both lists reach. *)
Definition paired {N R : Type} (nodeId : R -> string) (tgt : option string)
    (nodes : list N) (createdNodes : list R) : list (StoreCall N) :=
  map (fun p => {| nodeData := fst p; targetNodeId := tgt; resultId := nodeId (snd p) |})
    (combine nodes createdNodes).

End TanaClient.

(** ** Names of generated tools and prompts *)

(** [SchemaToolGenerator.generateToolName] and [generatePromptName]
    (src/server/schema-tool-generator.ts);
    [SchemaManager.schemaNameToToolName] has the body of
    [generateToolName]. Strings are sequences of the characters below
    U+0100. *)
Module ToolNames.

Definition code (a : ascii) : nat := nat_of_ascii a.

(** [a-z] and [0-9]. *)
Definition isLower (a : ascii) : bool := (97 <=? code a)%nat && (code a <=? 122)%nat.
Definition isDigit (a : ascii) : bool := (48 <=? code a)%nat && (code a <=? 57)%nat.

(** [\s] below U+0100: tab, line feed, vertical tab, form feed, carriage
    return, space and no-break space. *)
Definition isSpace (a : ascii) : bool :=
  ((9 <=? code a)%nat && (code a <=? 13)%nat) || (code a =? 32)%nat || (code a =? 160)%nat.

Definition isUnderscore (a : ascii) : bool := (code a =? 95)%nat.

(** [toLowerCase] on one character: A-Z, and the capital letters of
    Latin-1 (U+00C0 to U+00DE without the multiplication sign). *)
Definition lowerChar (a : ascii) : ascii :=
  let c := code a in
  if ((65 <=? c)%nat && (c <=? 90)%nat) ||
     ((192 <=? c)%nat && (c <=? 222)%nat && negb (c =? 215)%nat)
  then ascii_of_nat (c + 32)
  else a.

Fixpoint toLowerCase (s : string) : string :=
  match s with
  | EmptyString => EmptyString
  | String a rest => String (lowerChar a) (toLowerCase rest)
  end.

(** [s.replace(/[...]/g, '')] for the characters [p] selects. *)
Fixpoint remove (p : ascii -> bool) (s : string) : string :=
  match s with
  | EmptyString => EmptyString
  | String a rest => if p a then remove p rest else String a (remove p rest)
  end.

(** [s.replace(/[...]+/g, by)]: every maximal run of characters [p]
    selects is replaced by [by]; [inRun] tells that the character before
    belongs to a run already replaced. *)
Fixpoint replaceRunsFrom (p : ascii -> bool) (by_ : ascii) (inRun : bool) (s : string)
    : string :=
  match s with
  | EmptyString => EmptyString
  | String a rest =>
      if p a then
        if inRun then replaceRunsFrom p by_ true rest
        else String by_ (replaceRunsFrom p by_ true rest)
      else String a (replaceRunsFrom p by_ false rest)
  end.

Definition replaceRuns (p : ascii -> bool) (by_ : ascii) (s : string) : string :=
  replaceRunsFrom p by_ false s.

(** [/[^a-z0-9\s]/]. *)
Definition isSpecial (a : ascii) : bool := negb (isLower a || isDigit a || isSpace a).

(** [name.toLowerCase().replace(/[^a-z0-9\s]/g, '')], the part the two
    generators share. *)
Definition stripped (name : string) : string := remove isSpecial (toLowerCase name).

(** [generateToolName(schema, prefix)]; [prefix] defaults to ['create_']. *)
Definition generateToolName (name : string) (prefix : string) : string :=
  let cleanName :=
    replaceRuns isUnderscore "_"%char (replaceRuns isSpace "_"%char (stripped name)) in
  (prefix ++ cleanName)%string.

(** [generatePromptName(schema)]. *)
Definition generatePromptName (name : string) : string :=
  let cleanName := replaceRuns isSpace "-"%char (stripped name) in
  ("create-" ++ cleanName)%string.

(** The name the [add_schema] tool of the server announces in its answer
    (src/server/tana-mcp-server.ts):
    [create_${schema.name.toLowerCase().replace(/\s+/g, '_')}]. *)
Definition announcedToolName (name : string) : string :=
  ("create_" ++ replaceRuns isSpace "_"%char (toLowerCase name))%string.

(** The characters of a string, from left to right. *)
Definition chars (s : string) : list ascii := list_ascii_of_string s.

(** No two neighbours in the list are both [c]. *)
Fixpoint noDouble (c : ascii) (l : list ascii) : bool :=
  match l with
  | a :: ((b :: _) as rest) => negb (Ascii.eqb a c && Ascii.eqb b c) && noDouble c rest
  | _ => true
  end.

(** Every [from] is replaced by [to]. *)
Fixpoint substitute (from to : ascii) (s : string) : string :=
  match s with
  | EmptyString => EmptyString
  | String a rest =>
      String (if Ascii.eqb a from then to else a) (substitute from to rest)
  end.

End ToolNames.

(** ** More scenarios *)

Module Cases.

(** A queue constructed with [maxNodesPerRequest: 0]. *)
Definition zeroChunk : BatchingOptions := {|
  maxNodesPerRequest := 0; maxPayloadSize := 5000; maxWorkspaceNodes := 750000;
  rateLimit := 1; maxRetries := 3; baseBackoffMs := 1000 |}.

(** A rename is enqueued and its first attempt fails. *)
Definition renameFailsOnce : list (Event nat nat) :=
  [ CallEnqueue (SetName "node" "name");
    ExecutorReturns (Failure Scenarios.unavailable) ].

(** A rename is answered, and one more rename is enqueued at once. *)
Definition answeredThenEnqueued : list (Event nat nat) :=
  [ CallEnqueue (SetName "node" "name");
    ExecutorReturns (Success {| children := None |});
    CallEnqueue (SetName "node" "other") ].

(** After an answer: one more rename is enqueued and the pacing sleep ends. *)
Definition renameAgain : list (Event nat nat) :=
  [ CallEnqueue (SetName "node" "other"); TimerFires ].

(** Two nodes per request, a workspace of five nodes. *)
Definition smallWorkspace : BatchingOptions := {|
  maxNodesPerRequest := 2; maxPayloadSize := 5000; maxWorkspaceNodes := 5;
  rateLimit := 1; maxRetries := 3; baseBackoffMs := 1000 |}.

(** A create of four nodes is enqueued; its first chunk is in flight. *)
Definition fourNodes : list (Event nat nat) :=
  [ CallEnqueue (CreateNodes None [1; 2; 3; 4]%nat) ].

Definition frameOfFour : SplitFrame nat nat :=
  {| logical := 0; target := None; remaining := [[3; 4]%nat]; allResponses := [] |}.

Definition firstOfFour : QueuedRequest nat nat :=
  {| id := 1; request := CreateNodes None [1; 2]%nat; cont := Chunk frameOfFour;
     timestamp := 5000; retryCount := 0 |}.

(** The answer to the first chunk reports four nodes, those of the two
    nodes of the chunk and of a child of each. *)
Definition fourCreated : TanaAPIResponse nat :=
  {| children := Some [101; 102; 103; 104]%nat |}.

(** The id of the result with the given number. *)
Definition idOf (r : nat) : string := String (ascii_of_nat (48 + r)) EmptyString.

(** The result a rename is answered with when the response names none. *)
Definition renamed (targetNodeId : string) : nat := String.length targetNodeId.

End Cases.

(** * Properties *)

(** ** Chunking and combining *)

Section Chunking.

Context {T : Type}.

Lemma slice_forward (l : list T) (i c : Z) :
  0 <= i -> 0 <= c ->
  slice l i (i + c) = firstn (Z.to_nat c) (skipn (Z.to_nat i) l).
Proof.
  intros Hi Hc. unfold slice.
  destruct (Z.ltb_spec i 0) as [?|_]; [lia|].
  destruct (Z.ltb_spec (i + c) 0) as [?|_]; [lia|].
  destruct (Z.le_gt_cases (Z.of_nat (length l)) i) as [Hout|Hin].
  - rewrite (Z.min_r i) by lia.
    rewrite !skipn_all2 by lia. now rewrite !firstn_nil.
  - rewrite (Z.min_l i) by lia.
    destruct (Z.le_gt_cases (i + c) (Z.of_nat (length l))) as [Hfit|Hover].
    + rewrite Z.min_l by lia. f_equal. lia.
    + rewrite Z.min_r by lia.
      rewrite !firstn_all2; [reflexivity| |]; rewrite length_skipn; lia.
Qed.

Lemma slice_length_le (l : list T) (i c : Z) :
  0 <= i -> 0 <= c -> Z.of_nat (length (slice l i (i + c))) <= c.
Proof.
  intros Hi Hc. rewrite slice_forward by assumption.
  rewrite length_firstn. lia.
Qed.

Lemma chunksOf_nil (fuel size : nat) : chunksOf fuel size (@nil T) = [].
Proof. destruct fuel; reflexivity. Qed.

Lemma chunkLoop_chunksOf (fuel : nat) :
  forall (nodes : list T) (c i : Z) (acc : list (list T)),
    0 < c -> 0 <= i ->
    (length (skipn (Z.to_nat i) nodes) <= fuel)%nat ->
    chunkLoop fuel nodes c i acc =
    Some (acc ++ chunksOf fuel (Z.to_nat c) (skipn (Z.to_nat i) nodes)).
Proof.
  induction fuel as [|fuel IH]; intros nodes c i acc Hc Hi Hfuel.
  - simpl. rewrite length_skipn in Hfuel.
    destruct (Z.ltb_spec i (Z.of_nat (length nodes))); [lia|].
    now rewrite app_nil_r.
  - cbn [chunkLoop].
    destruct (Z.ltb_spec i (Z.of_nat (length nodes))) as [Hin|Hout].
    + rewrite IH; [|lia|lia|rewrite length_skipn in *; lia].
      rewrite <- app_assoc. do 2 f_equal. cbn [app chunksOf].
      destruct (skipn (Z.to_nat i) nodes) as [|x rest] eqn:E.
      { apply (f_equal (@length T)) in E. rewrite length_skipn in E.
        simpl in E. lia. }
      rewrite <- E, slice_forward by lia. f_equal.
      rewrite skipn_skipn. do 2 f_equal. lia.
    + rewrite skipn_all2 by lia. now rewrite chunksOf_nil, app_nil_r.
Qed.

Lemma chunkNodes_chunksOf (nodes : list T) (c : Z) :
  0 < c ->
  chunkNodes nodes c = Some (chunksOf (length nodes) (Z.to_nat c) nodes).
Proof.
  intros Hc. unfold chunkNodes.
  rewrite chunkLoop_chunksOf; simpl; try lia. reflexivity.
Qed.

Lemma chunkLoop_stuck (fuel : nat) :
  forall (nodes : list T) (c i : Z) (acc : list (list T)),
    c <= 0 -> i < Z.of_nat (length nodes) ->
    chunkLoop fuel nodes c i acc = None.
Proof.
  induction fuel as [|fuel IH]; intros nodes c i acc Hc Hi; cbn [chunkLoop];
    destruct (Z.ltb_spec i (Z.of_nat (length nodes))); try lia; auto.
  apply IH; lia.
Qed.

(** The loop of [chunkNodes] fails to terminate exactly when there are
    nodes to chunk and the chunk size is not positive. *)
Lemma chunkNodes_diverges_iff (nodes : list T) (c : Z) :
  chunkNodes nodes c = None <-> nodes <> [] /\ c <= 0.
Proof.
  split.
  - intros H. destruct (Z.lt_ge_cases 0 c) as [Hc|Hc].
    + rewrite chunkNodes_chunksOf in H by assumption. discriminate.
    + split; [|assumption]. intros ->. discriminate.
  - intros [Hne Hc]. apply chunkLoop_stuck; [assumption|].
    destruct nodes; [congruence|simpl; lia].
Qed.

Lemma chunksOf_concat (fuel size : nat) :
  forall l : list T, (length l <= fuel)%nat -> (0 < size)%nat ->
    concat (chunksOf fuel size l) = l.
Proof.
  induction fuel as [|fuel IH]; intros l Hl Hs.
  - destruct l; [reflexivity|simpl in Hl; lia].
  - destruct l as [|x l]; [reflexivity|].
    cbn [chunksOf concat]. rewrite IH; [apply firstn_skipn| |assumption].
    rewrite length_skipn. cbn [length] in *. lia.
Qed.

Lemma chunksOf_sizes (fuel size : nat) :
  forall l : list T, (0 < size)%nat ->
    Forall (fun ch => (0 < length ch <= size)%nat) (chunksOf fuel size l).
Proof.
  induction fuel as [|fuel IH]; intros l Hs; [constructor|].
  destruct l as [|x l]; [constructor|].
  cbn [chunksOf]. constructor; [|apply IH; assumption].
  rewrite length_firstn. simpl length. lia.
Qed.

Lemma chunksOf_full (fuel size : nat) :
  forall (l : list T) (k : nat),
    (S k < length (chunksOf fuel size l))%nat ->
    length (nth k (chunksOf fuel size l) []) = size.
Proof.
  induction fuel as [|fuel IH]; intros l k Hk; [simpl in Hk; lia|].
  destruct l as [|x l]; [simpl in Hk; lia|].
  cbn [chunksOf] in *. destruct k as [|k].
  - cbn [nth]. cbn [length] in Hk.
    destruct (skipn size (x :: l)) as [|y rest] eqn:E.
    { rewrite chunksOf_nil in Hk. simpl in Hk. lia. }
    apply (f_equal (@length T)) in E. rewrite length_skipn in E.
    rewrite length_firstn. simpl length in *. lia.
  - cbn [nth]. apply IH. cbn [length] in Hk. lia.
Qed.

End Chunking.

Section Combining.

Context {R : Type}.

Lemma combine_fold (rs : list (TanaAPIResponse R)) :
  forall acc : list R,
    fold_left
      (fun combined response =>
         match children response with
         | Some cs =>
             {| children :=
                  Some (match children combined with Some a => a | None => [] end ++ cs) |}
         | None => combined
         end)
      rs {| children := Some acc |} =
    {| children := Some (acc ++ flat_map childrenOf rs) |}.
Proof.
  induction rs as [|r rs IH]; intros acc; cbn [fold_left flat_map].
  - now rewrite app_nil_r.
  - unfold childrenOf at 1. destruct (children r) as [cs|]; cbn [children].
    + rewrite IH. now rewrite app_assoc.
    + apply IH.
Qed.

(** [combineResponses] concatenates the children of the responses, in the
    order of the responses. *)
Lemma combineResponses_flat_map (rs : list (TanaAPIResponse R)) :
  combineResponses rs = {| children := Some (flat_map childrenOf rs) |}.
Proof. unfold combineResponses. now rewrite combine_fold. Qed.

Lemma flat_map_children_of_chunks {N : Type} (result : N -> R) (chunks : list (list N)) :
  flat_map childrenOf (map (fun ch => {| children := Some (map result ch) |}) chunks) =
  map result (concat chunks).
Proof.
  induction chunks as [|ch chunks IH]; [reflexivity|].
  cbn [map flat_map concat]. rewrite IH, map_app. reflexivity.
Qed.

End Combining.

(** Chunking followed by combining, on lists alone. *)
Lemma chunk_and_combine
    {N R : Type} (nodes : list N) (limit : Z) (result : N -> R) :
  0 < limit ->
  exists chunks,
    chunkNodes nodes limit = Some chunks /\
    concat chunks = nodes /\
    Forall (fun ch => 0 < Z.of_nat (length ch) <= limit) chunks /\
    (forall k, (S k < length chunks)%nat ->
               Z.of_nat (length (nth k chunks [])) = limit) /\
    combineResponses (map (answer result) chunks) = answer result nodes.
Proof.
  intros Hpos. exists (chunksOf (length nodes) (Z.to_nat limit) nodes).
  assert (Hs : (0 < Z.to_nat limit)%nat) by lia.
  split; [apply chunkNodes_chunksOf; assumption|].
  split; [apply chunksOf_concat; [lia|assumption]|].
  split.
  { eapply Forall_impl; [|apply chunksOf_sizes; exact Hs].
    cbn beta. intros ch Hch. lia. }
  split.
  { intros k Hk. rewrite chunksOf_full by assumption. lia. }
  rewrite combineResponses_flat_map. unfold answer.
  rewrite flat_map_children_of_chunks.
  rewrite chunksOf_concat; [reflexivity|lia|assumption].
Qed.

(** ** The queue in its worlds *)

Ltac break_match :=
  repeat match goal with
         | |- context [match ?x with _ => _ end] => destruct x eqn:?
         end.

Section Worlds.

Context {TanaNode TanaNodeResponse : Type}.
Variable jsonLength : TanaAPIRequest TanaNode -> Z.
Variable options : BatchingOptions.

Implicit Types w : World TanaNode TanaNodeResponse.
Implicit Types e : Event TanaNode TanaNodeResponse.
Implicit Types es : list (Event TanaNode TanaNodeResponse).
Implicit Types q : QueuedRequest TanaNode TanaNodeResponse.
Implicit Types k : Continuation TanaNode TanaNodeResponse.
Implicit Types r : TanaAPIRequest TanaNode.

Lemma run_snoc w es e :
  run jsonLength options w (es ++ [e]) =
  step jsonLength options (run jsonLength options w es) e.
Proof. unfold run. now rewrite fold_left_app. Qed.

Lemma run_app w es es' :
  run jsonLength options w (es ++ es') =
  run jsonLength options (run jsonLength options w es) es'.
Proof. unfold run. now rewrite fold_left_app. Qed.

(** Induction over the runs of the queue. *)
Lemma run_invariant (P : World TanaNode TanaNodeResponse -> Prop) :
  (forall w e, P w -> P (step jsonLength options w e)) ->
  forall es w, P w -> P (run jsonLength options w es).
Proof.
  intros Hstep es. induction es as [|e es IH]; intros w Hw; [exact Hw|].
  apply IH, Hstep, Hw.
Qed.

Lemma reachable_step w e :
  reachable jsonLength options w ->
  reachable jsonLength options (step jsonLength options w e).
Proof.
  intros (t & es & ->). exists t, (es ++ [e]). now rewrite run_snoc.
Qed.

Lemma step_hung w e : hung w = true -> step jsonLength options w e = w.
Proof. intros H. unfold step. now rewrite H. Qed.

(** *** The node count *)

Lemma whileLoop_totalNodeCount w :
  totalNodeCount (self (whileLoop options w)) = totalNodeCount (self w).
Proof. unfold whileLoop, shiftAndExecute. break_match; reflexivity. Qed.

Lemma shiftAndExecute_totalNodeCount w :
  totalNodeCount (self (shiftAndExecute w)) = totalNodeCount (self w).
Proof. unfold shiftAndExecute. break_match; reflexivity. Qed.

Lemma pushRequest_totalNodeCount k r w :
  totalNodeCount (self (pushRequest options k r w)) = totalNodeCount (self w).
Proof.
  unfold pushRequest, processQueue. break_match; try reflexivity.
  now rewrite whileLoop_totalNodeCount.
Qed.

Lemma enqueueVia_totalNodeCount large k r w :
  (forall k tgt nodes w,
      totalNodeCount (self (large k tgt nodes w)) = totalNodeCount (self w)) ->
  totalNodeCount (self (enqueueVia jsonLength options large k r w)) =
  totalNodeCount (self w).
Proof.
  intros Hlarge. unfold enqueueVia.
  break_match; auto using pushRequest_totalNodeCount.
Qed.

Lemma enqueueChunk_totalNodeCount k r w :
  totalNodeCount (self (enqueueChunk jsonLength options k r w)) =
  totalNodeCount (self w).
Proof. apply enqueueVia_totalNodeCount. reflexivity. Qed.

Lemma nextChunk_totalNodeCount fr w :
  totalNodeCount (self (nextChunk jsonLength options fr w)) = totalNodeCount (self w).
Proof.
  unfold nextChunk. break_match; [reflexivity|apply enqueueChunk_totalNodeCount].
Qed.

Lemma enqueue_totalNodeCount k r w :
  totalNodeCount (self (enqueue jsonLength options k r w)) = totalNodeCount (self w).
Proof.
  apply enqueueVia_totalNodeCount. intros. unfold handleLargeCreateRequest.
  break_match; [apply nextChunk_totalNodeCount|reflexivity].
Qed.

Lemma resolveWith_totalNodeCount k response w :
  totalNodeCount (self (resolveWith jsonLength options k response w)) =
  totalNodeCount (self w).
Proof.
  unfold resolveWith. break_match; [reflexivity|apply nextChunk_totalNodeCount].
Qed.

Lemma handleRequestError_totalNodeCount q error w :
  totalNodeCount (self (handleRequestError options q error w)) =
  totalNodeCount (self w).
Proof.
  unfold handleRequestError. break_match; [reflexivity|].
  now rewrite whileLoop_totalNodeCount.
Qed.

Lemma handleResponse_totalNodeCount q response w :
  totalNodeCount (self (handleResponse jsonLength options q response w)) =
  totalNodeCount (updateNodeCount (request q) response (self w)).
Proof.
  unfold handleResponse.
  now rewrite resolveWith_totalNodeCount, whileLoop_totalNodeCount.
Qed.

Lemma updateNodeCount_grows r (response : TanaAPIResponse TanaNodeResponse)
    (b : BatchingQueue TanaNode TanaNodeResponse) :
  totalNodeCount b <= totalNodeCount (updateNodeCount r response b).
Proof.
  unfold updateNodeCount. destruct (isCreateNodesRequest r); cbn; [|lia].
  destruct (children response); lia.
Qed.

Lemma step_totalNodeCount_nonneg w e :
  0 <= totalNodeCount (self w) ->
  0 <= totalNodeCount (self (step jsonLength options w e)).
Proof.
  intros H. unfold step. destruct (hung w); [exact H|].
  destruct e as [r|c| |ms| |o].
  - now rewrite enqueue_totalNodeCount.
  - cbn. lia.
  - cbn. lia.
  - exact H.
  - destruct (worker w); try exact H.
    + now rewrite shiftAndExecute_totalNodeCount.
    + now rewrite whileLoop_totalNodeCount.
  - destruct (worker w); try exact H. destruct o.
    + rewrite handleResponse_totalNodeCount.
      pose proof (updateNodeCount_grows (request entry) response (self w)). lia.
    + now rewrite handleRequestError_totalNodeCount.
Qed.

(** C10. [setNodeCount(c)] stores [max(0, c)] and [resetNodeCount]
    stores 0. The update after a successful call adds to the count exactly
    the number of children the executor reports in its response when the
    request is a create, and nothing when it is a rename, so it never
    lowers the count; that is also all the answer of the executor does to
    the count of the queue. And the count is non-negative after every
    sequence of events. *)
Theorem node_count_never_negative :
  (forall c (q : BatchingQueue TanaNode TanaNodeResponse),
      totalNodeCount (setNodeCount c q) = Z.max 0 c) /\
  (forall q : BatchingQueue TanaNode TanaNodeResponse,
      totalNodeCount (resetNodeCount q) = 0) /\
  (forall r response (q : BatchingQueue TanaNode TanaNodeResponse),
      totalNodeCount (updateNodeCount r response q) =
      totalNodeCount q +
      (if isCreateNodesRequest r then Z.of_nat (length (childrenOf response)) else 0)) /\
  (forall r response (q : BatchingQueue TanaNode TanaNodeResponse),
      totalNodeCount q <= totalNodeCount (updateNodeCount r response q)) /\
  (forall w q response,
      hung w = false -> worker w = InFlight q ->
      totalNodeCount
        (self (step jsonLength options w (ExecutorReturns (Success response)))) =
      totalNodeCount (self w) +
      (if isCreateNodesRequest (request q)
       then Z.of_nat (length (childrenOf response)) else 0)) /\
  (forall t es, 0 <= totalNodeCount (self (run jsonLength options (init t) es))).
Proof.
  assert (Hadd : forall r response (q : BatchingQueue TanaNode TanaNodeResponse),
             totalNodeCount (updateNodeCount r response q) =
             totalNodeCount q +
             (if isCreateNodesRequest r
              then Z.of_nat (length (childrenOf response)) else 0)).
  { intros r response q. unfold updateNodeCount, childrenOf.
    destruct (isCreateNodesRequest r); cbn; [|lia].
    destruct (children response); reflexivity. }
  split; [reflexivity|]. split; [reflexivity|]. split; [exact Hadd|]. split; [|split].
  - intros r response q. apply updateNodeCount_grows.
  - intros w q response Hh Hw. unfold step. rewrite Hh, Hw.
    rewrite handleResponse_totalNodeCount. apply Hadd.
  - intros t es. apply run_invariant; [apply step_totalNodeCount_nonneg|].
    cbn. lia.
Qed.

(** *** What the worker's loop touches *)

Lemma shiftAndExecute_frame w :
  settled (shiftAndExecute w) = settled w /\
  nextFuture (shiftAndExecute w) = nextFuture w /\
  hung (shiftAndExecute w) = hung w /\
  now (shiftAndExecute w) = now w /\
  lastRequestTime (self (shiftAndExecute w)) = lastRequestTime (self w) /\
  requestId (self (shiftAndExecute w)) = requestId (self w).
Proof. unfold shiftAndExecute. break_match; cbn; auto 10. Qed.

Lemma whileLoop_frame w :
  settled (whileLoop options w) = settled w /\
  nextFuture (whileLoop options w) = nextFuture w /\
  hung (whileLoop options w) = hung w /\
  now (whileLoop options w) = now w /\
  lastRequestTime (self (whileLoop options w)) = lastRequestTime (self w) /\
  requestId (self (whileLoop options w)) = requestId (self w).
Proof.
  unfold whileLoop.
  break_match; try apply shiftAndExecute_frame; cbn; auto 10.
Qed.

(** The worker takes the head of the pending list, or leaves the list as
    it is. *)
Lemma shiftAndExecute_entries w :
  workerEntry (worker w) = [] ->
  entries (shiftAndExecute w) = entries w.
Proof.
  intros H. unfold entries, shiftAndExecute. rewrite H.
  destruct (queue (self w)) eqn:E; simpl; rewrite ?E; reflexivity.
Qed.

Lemma whileLoop_entries w :
  workerEntry (worker w) = [] ->
  entries (whileLoop options w) = entries w.
Proof.
  intros H. unfold whileLoop.
  destruct (queue (self w)) eqn:E.
  - unfold entries. simpl. rewrite H, E. reflexivity.
  - break_match.
    + unfold entries. simpl. rewrite H. reflexivity.
    + now apply shiftAndExecute_entries.
Qed.

(** The loop does not look at where the worker was suspended. *)
Lemma shiftAndExecute_withWorker w p :
  shiftAndExecute (withWorker w p) = shiftAndExecute w.
Proof. unfold shiftAndExecute. cbn. destruct (queue (self w)); reflexivity. Qed.

Lemma whileLoop_withWorker w p :
  whileLoop options (withWorker w p) = whileLoop options w.
Proof.
  unfold whileLoop. cbn [withWorker self now].
  destruct (queue (self w)); [reflexivity|].
  break_match; [reflexivity|apply shiftAndExecute_withWorker].
Qed.

(** *** Admission *)

Lemma enqueue_denied k r w :
  denied jsonLength options (self w) r ->
  exists err, enqueue jsonLength options k r w = rejectWith k err w.
Proof.
  intros [Hquota|Hsize]; unfold enqueue, enqueueVia.
  - destruct (Z.gtb_spec (totalNodeCount (self w) + estimatedNewNodes r)
                (maxWorkspaceNodes options)); [eauto|lia].
  - destruct (Z.gtb_spec (totalNodeCount (self w) + estimatedNewNodes r)
                (maxWorkspaceNodes options)); [eauto|].
    destruct (Z.gtb_spec (jsonLength r) (maxPayloadSize options)); [eauto|lia].
Qed.

Lemma step_denied w r :
  hung w = false ->
  denied jsonLength options (self w) r ->
  let w' := step jsonLength options w (CallEnqueue r) in
  self w' = self w /\ worker w' = worker w /\ dispatched w' = dispatched w /\
  now w' = now w /\ hung w' = false /\ nextFuture w' = S (nextFuture w) /\
  exists err, settled w' = settled w ++ [(nextFuture w, Rejected err)].
Proof.
  intros Hh Hd. cbn zeta. unfold step. rewrite Hh.
  match goal with
  | |- context [enqueue _ _ ?k r ?w0] =>
      destruct (enqueue_denied k r w0 Hd) as [err ->]
  end.
  cbn. repeat split; auto. now exists err.
Qed.

(** C9. A request that [enqueue] denies, for the workspace limit or for
    the payload size, has its promise rejected in the call itself; no entry
    is created and the queue object is left as it was. So a request denied
    by a queue is still denied after any series of denied requests, and the
    only trace of the call is the rejected promise. *)
Theorem denial_is_pure w (rs : list (TanaAPIRequest TanaNode)) r :
  hung w = false ->
  Forall (denied jsonLength options (self w)) rs ->
  denied jsonLength options (self w) r ->
  let w1 := run jsonLength options w (map CallEnqueue rs) in
  let w2 := step jsonLength options w1 (CallEnqueue r) in
  self w1 = self w /\
  denied jsonLength options (self w1) r /\
  self w2 = self w /\
  totalNodeCount (self w2) = totalNodeCount (self w) /\
  entries w2 = entries w /\
  dispatched w2 = dispatched w /\
  exists err, settled w2 = settled w1 ++ [(nextFuture w1, Rejected err)].
Proof.
  intros Hh Hrs Hr. cbn zeta.
  assert (H1 : let w1 := run jsonLength options w (map CallEnqueue rs) in
               self w1 = self w /\ worker w1 = worker w /\
               dispatched w1 = dispatched w /\ hung w1 = false).
  { clear Hr. induction rs as [|r' rs IH] using rev_ind; [cbn; auto|].
    apply Forall_app in Hrs as [Hrs Hr']. specialize (IH Hrs).
    cbn zeta in *. destruct IH as (Hs & Hw & Hd & Hh').
    rewrite map_app. cbn [map]. rewrite run_snoc. inversion Hr' as [|? ? Hden _]; subst.
    rewrite <- Hs in Hden.
    destruct (step_denied _ r' Hh' Hden) as (-> & -> & -> & _ & -> & _).
    auto. }
  cbn zeta in H1. destruct H1 as (Hs & Hw & Hd & Hh').
  assert (Hr1 : denied jsonLength options
                  (self (run jsonLength options w (map CallEnqueue rs))) r)
    by now rewrite Hs.
  destruct (step_denied _ r Hh' Hr1) as (Hs2 & Hw2 & Hd2 & _ & _ & _ & err & He).
  repeat split; try congruence.
  - unfold entries. congruence.
  - now exists err.
Qed.

(** *** Failures *)

Lemma step_failure w q error :
  hung w = false -> worker w = InFlight q ->
  step jsonLength options w (ExecutorReturns (Failure error)) =
  handleRequestError options q error w.
Proof. intros Hh Hw. unfold step. now rewrite Hh, Hw. Qed.

Lemma step_timer_backoff w q t :
  hung w = false -> worker w = BackingOff q t ->
  step jsonLength options w TimerFires =
  whileLoop options (unshift q (withNow w (Z.max (now w) t))).
Proof. intros Hh Hw. unfold step. now rewrite Hh, Hw. Qed.

Lemma failure_retried w q error :
  hung w = false ->
  worker w = InFlight q ->
  retryCount q + 1 <= maxRetries options ->
  let q' := withRetryCount q (retryCount q + 1) in
  let w1 := step jsonLength options w (ExecutorReturns (Failure error)) in
  worker w1 = BackingOff q' (now w + Z.max 0 (baseBackoffMs options * 2 ^ retryCount q)) /\
  settled w1 = settled w /\
  self w1 = self w /\
  entries (step jsonLength options w1 TimerFires) = q' :: queue (self w).
Proof.
  intros Hh Hw Hrc. cbn zeta. rewrite (step_failure _ _ _ Hh Hw).
  unfold handleRequestError. cbn [retryCount withRetryCount].
  destruct (Z.leb_spec (retryCount q + 1) (maxRetries options)); [|lia].
  replace (retryCount q + 1 - 1) with (retryCount q) by lia.
  cbn [worker withWorker settled self]. repeat split.
  erewrite step_timer_backoff; [|exact Hh|reflexivity].
  rewrite <- (whileLoop_withWorker _ Idle).
  rewrite whileLoop_entries by reflexivity. reflexivity.
Qed.

Lemma failure_exhausted w q error :
  hung w = false ->
  worker w = InFlight q ->
  maxRetries options < retryCount q + 1 ->
  let w1 := step jsonLength options w (ExecutorReturns (Failure error)) in
  settled w1 =
    settled w ++ [(logicalOf q, Rejected (RetriesExceeded (maxRetries options) error))] /\
  totalNodeCount (self w1) = totalNodeCount (self w) /\
  requestId (self w1) = requestId (self w) /\
  entries w1 = queue (self w).
Proof.
  intros Hh Hw Hrc. cbn zeta. rewrite (step_failure _ _ _ Hh Hw).
  split; [|split; [apply handleRequestError_totalNodeCount|]].
  all: unfold handleRequestError; cbn [retryCount withRetryCount];
    (destruct (Z.leb_spec (retryCount q + 1) (maxRetries options)); [lia|]).
  - now rewrite (proj1 (whileLoop_frame _)).
  - rewrite (proj2 (proj2 (proj2 (proj2 (proj2 (whileLoop_frame _)))))).
    split; [reflexivity|].
    rewrite <- (whileLoop_withWorker _ Idle).
    rewrite whileLoop_entries by reflexivity. reflexivity.
Qed.

(** C4, as the code has it. The queue does not classify failures: after
    any failure of the executor the retry counter is incremented; while it
    does not exceed [maxRetries] the worker waits
    [baseBackoffMs * 2^(retryCount - 1)] and puts the entry back at the
    front of the pending list, without settling its promise; once it
    exceeds [maxRetries] the promise is rejected with the error that names
    [maxRetries] and the last failure. *)
Theorem every_failure_counts w q error :
  hung w = false ->
  worker w = InFlight q ->
  let q' := withRetryCount q (retryCount q + 1) in
  let w1 := step jsonLength options w (ExecutorReturns (Failure error)) in
  (retryCount q + 1 <= maxRetries options ->
   worker w1 = BackingOff q' (now w + Z.max 0 (baseBackoffMs options * 2 ^ retryCount q)) /\
   settled w1 = settled w /\
   self w1 = self w /\
   entries (step jsonLength options w1 TimerFires) = q' :: queue (self w)) /\
  (maxRetries options < retryCount q + 1 ->
   settled w1 =
     settled w ++ [(logicalOf q, Rejected (RetriesExceeded (maxRetries options) error))] /\
   entries w1 = queue (self w)).
Proof.
  intros Hh Hw. cbn zeta. split; intros Hrc.
  - exact (failure_retried w q error Hh Hw Hrc).
  - destruct (failure_exhausted w q error Hh Hw Hrc) as (Hs & _ & _ & He).
    split; assumption.
Qed.

(** C2, as the code has it. When the last attempt of a chunk of a split
    create fails, the promise of the logical request is rejected with the
    error of that chunk alone: the rejection carries no per-node results,
    whatever responses earlier chunks had brought; the node count keeps the
    nodes of the earlier chunks; and no entry is created for the chunks
    that were still to come. *)
Theorem failed_chunk_rejects_whole_request w q fr error :
  hung w = false ->
  worker w = InFlight q ->
  cont q = Chunk fr ->
  maxRetries options < retryCount q + 1 ->
  let w1 := step jsonLength options w (ExecutorReturns (Failure error)) in
  let outcome := Rejected (RetriesExceeded (maxRetries options) error) in
  settled w1 = settled w ++ [(logical fr, outcome)] /\
  carriedResults (TanaNodeResponse := TanaNodeResponse) outcome = [] /\
  totalNodeCount (self w1) = totalNodeCount (self w) /\
  requestId (self w1) = requestId (self w) /\
  entries w1 = queue (self w).
Proof.
  intros Hh Hw Hk Hrc. cbn zeta.
  destruct (failure_exhausted w q error Hh Hw Hrc) as (Hs & Hn & Hi & He).
  cbn zeta in *. rewrite Hs. unfold logicalOf. rewrite Hk. cbn [logicalFuture].
  repeat split; assumption.
Qed.

End Worlds.

(** ** How a step is put together *)

Section Decomposition.

Context {TanaNode TanaNodeResponse : Type}.
Variable jsonLength : TanaAPIRequest TanaNode -> Z.
Variable options : BatchingOptions.

Implicit Types w : World TanaNode TanaNodeResponse.
Implicit Types e : Event TanaNode TanaNodeResponse.
Implicit Types q : QueuedRequest TanaNode TanaNodeResponse.
Implicit Types k : Continuation TanaNode TanaNodeResponse.
Implicit Types r : TanaAPIRequest TanaNode.
Implicit Types fr : SplitFrame TanaNode TanaNodeResponse.

Lemma chunkNodes_small (nodes : list TanaNode) chunks :
  chunkNodes nodes (maxNodesPerRequest options) = Some chunks ->
  smallChunks options chunks.
Proof.
  intros H. unfold smallChunks.
  destruct (Z.lt_ge_cases 0 (maxNodesPerRequest options)) as [Hpos|Hneg].
  - rewrite chunkNodes_chunksOf in H by assumption. injection H as <-.
    eapply Forall_impl; [|apply chunksOf_sizes; lia].
    cbn beta. intros ch Hch. lia.
  - destruct nodes as [|n nodes].
    + injection H as <-. constructor.
    + assert (Hd : chunkNodes (n :: nodes) (maxNodesPerRequest options) = None).
      { apply chunkNodes_diverges_iff. split; [discriminate|lia]. }
      congruence.
Qed.

(** The three ways [enqueue(chunkRequest)] can go; the third is ruled out
    for small chunks. *)
Lemma enqueueChunk_cases k r w :
  (exists err, enqueueChunk jsonLength options k r w = rejectWith k err w) \/
  enqueueChunk jsonLength options k r w = pushRequest options k r w \/
  (enqueueChunk jsonLength options k r w = hang w /\
   maxNodesPerRequest options < estimatedNewNodes r).
Proof.
  unfold enqueueChunk, enqueueVia.
  destruct (_ >? maxWorkspaceNodes options); [left; eauto|].
  destruct (_ >? maxPayloadSize options); [left; eauto|].
  destruct r as [tgt nodes|]; [|right; left; reflexivity].
  cbn [estimatedNewNodes].
  destruct (Z.gtb_spec (Z.of_nat (length nodes)) (maxNodesPerRequest options)).
  - right; right. split; [reflexivity|lia].
  - right; left; reflexivity.
Qed.

Lemma nextChunk_cases fr w :
  (remaining fr = [] /\
   nextChunk jsonLength options fr w =
   settle (logical fr) (Resolved (combineResponses (allResponses fr))) w) \/
  (exists chunk rest,
      remaining fr = chunk :: rest /\
      nextChunk jsonLength options fr w =
      enqueueChunk jsonLength options
        (Chunk {| logical := logical fr; target := target fr; remaining := rest;
                  allResponses := allResponses fr |})
        (CreateNodes (target fr) chunk) w).
Proof.
  unfold nextChunk. destruct (remaining fr) as [|chunk rest]; [left|right]; eauto.
Qed.

(** The ways [enqueue(request)] can go for an outside caller. *)
Lemma enqueue_cases k r w :
  (exists err, enqueue jsonLength options k r w = rejectWith k err w) \/
  enqueue jsonLength options k r w = pushRequest options k r w \/
  (exists tgt nodes,
      r = CreateNodes tgt nodes /\
      chunkNodes nodes (maxNodesPerRequest options) = None /\
      enqueue jsonLength options k r w = hang w) \/
  (exists tgt nodes chunks,
      r = CreateNodes tgt nodes /\
      chunkNodes nodes (maxNodesPerRequest options) = Some chunks /\
      enqueue jsonLength options k r w =
      nextChunk jsonLength options
        {| logical := logicalFuture k; target := tgt; remaining := chunks;
           allResponses := [] |} w).
Proof.
  unfold enqueue, enqueueVia.
  destruct (_ >? maxWorkspaceNodes options); [left; eauto|].
  destruct (_ >? maxPayloadSize options); [left; eauto|].
  destruct r as [tgt nodes|]; [|right; left; reflexivity].
  destruct (_ >? maxNodesPerRequest options); [|right; left; reflexivity].
  unfold handleLargeCreateRequest.
  destruct (chunkNodes nodes (maxNodesPerRequest options)) as [chunks|] eqn:E.
  - right; right; right. exists tgt, nodes, chunks. auto.
  - right; right; left. exists tgt, nodes. auto.
Qed.

Lemma whileLoop_settle f s w :
  whileLoop options (settle f s w) = settle f s (whileLoop options w).
Proof.
  unfold whileLoop, shiftAndExecute, settle. cbn.
  destruct (queue (self w)); [reflexivity|].
  destruct (_ <? _); reflexivity.
Qed.

Section Closure.

Variable P : World TanaNode TanaNodeResponse -> Prop.
Variable PQ : QueuedRequest TanaNode TanaNodeResponse ->
              World TanaNode TanaNodeResponse -> Prop.
Hypothesis closed : Closed options P PQ.

Lemma closed_fresh_chunk w k r :
  P w -> freshK options w k ->
  logicalFuture k = nextFuture w ->
  P (enqueueChunk jsonLength options k r (bump w)).
Proof.
  intros Hw Hk Hf.
  destruct (enqueueChunk_cases k r (bump w)) as [[err ->]|[->|[-> _]]].
  - unfold rejectWith. rewrite Hf. now apply (c_fresh_settle _ _ _ closed).
  - now apply (c_fresh_push _ _ _ closed).
  - now apply (c_fresh_hang _ _ _ closed).
Qed.

Lemma closed_enqueue w r :
  P w -> P (enqueue jsonLength options (Caller (nextFuture w)) r (bump w)).
Proof.
  intros Hw.
  destruct (enqueue_cases (Caller (nextFuture w)) r (bump w))
    as [[err ->]|[->|[(tgt & nodes & _ & _ & ->)|(tgt & nodes & chunks & _ & Hc & ->)]]].
  - now apply (c_fresh_settle _ _ _ closed).
  - apply (c_fresh_push _ _ _ closed); [assumption|now left].
  - now apply (c_fresh_hang _ _ _ closed).
  - apply chunkNodes_small in Hc.
    match goal with
    | |- P (nextChunk _ _ ?fr _) =>
        destruct (nextChunk_cases fr (bump w))
          as [[_ ->]|(chunk & rest & Hrem & ->)]
    end.
    + now apply (c_fresh_settle _ _ _ closed).
    + cbn [logical target remaining allResponses logicalFuture] in *. subst chunks.
      apply closed_fresh_chunk; [assumption| |reflexivity].
      right. eexists. split; [reflexivity|]. cbn.
      repeat split. now inversion Hc.
Qed.

Lemma closed_resolve w q response :
  PQ q w -> P (resolveWith jsonLength options (cont q) response w).
Proof.
  intros Hw. unfold resolveWith. destruct (cont q) as [f|fr] eqn:Hk.
  - replace f with (logicalOf q) by (unfold logicalOf; now rewrite Hk).
    now apply (c_settle _ _ _ closed).
  - assert (Hl : logical fr = logicalOf q) by (unfold logicalOf; now rewrite Hk).
    match goal with
    | |- P (nextChunk _ _ ?fr' _) =>
        destruct (nextChunk_cases fr' w) as [[_ ->]|(chunk & rest & Hrem & ->)]
    end; cbn [logical target remaining allResponses] in *.
    + rewrite Hl. now apply (c_settle _ _ _ closed).
    + match goal with
      | |- P (enqueueChunk _ _ ?k' ?r' _) =>
          destruct (enqueueChunk_cases k' r' w) as [[err ->]|[->|[-> _]]]
      end.
      * unfold rejectWith. cbn [logicalFuture logical]. rewrite Hl.
        now apply (c_settle _ _ _ closed).
      * now apply (c_push _ _ _ closed w q fr chunk rest response).
      * now apply (c_hang _ _ _ closed w q).
Qed.

(** A closed property is kept by every event. *)
Lemma closed_step w e : P w -> P (step jsonLength options w e).
Proof.
  intros Hw. unfold step. destruct (hung w) eqn:Hh; [exact Hw|].
  destruct e as [r|c| |ms| |o].
  - exact (closed_enqueue w r Hw).
  - apply (c_frame _ _ _ closed w); [|exact Hw]. repeat split.
  - apply (c_frame _ _ _ closed w); [|exact Hw]. repeat split.
  - apply (c_frame _ _ _ closed w); [|exact Hw]. repeat split.
  - destruct (worker w) as [|t|q|q t] eqn:Hwk; try exact Hw.
    + apply (c_pace _ _ _ closed _ t); [|exact Hwk].
      apply (c_frame _ _ _ closed w); [|exact Hw]. repeat split.
    + rewrite <- (whileLoop_withWorker _ _ Idle).
      apply (c_unshift _ _ _ closed (withNow w (Z.max (now w) t)) q t);
        [|exact Hwk].
      apply (c_frame _ _ _ closed w); [|exact Hw]. repeat split.
  - destruct (worker w) as [|t|q|q t] eqn:Hwk; try exact Hw.
    destruct o as [response|error].
    + unfold handleResponse. apply closed_resolve.
      rewrite <- (whileLoop_withWorker _ _ Idle).
      apply (c_retire _ _ _ closed); [|exact Hwk].
      apply (c_frame _ _ _ closed w); [|exact Hw].
      unfold updateNodeCount. destruct (isCreateNodesRequest _); repeat split.
    + unfold handleRequestError. cbn [retryCount withRetryCount cont].
      destruct (Z.leb_spec (retryCount q + 1) (maxRetries options)).
      * now apply (c_backoff _ _ _ closed).
      * unfold rejectWith. rewrite whileLoop_settle.
        change (logicalFuture (cont q)) with (logicalOf q).
        apply (c_settle _ _ _ closed).
        rewrite <- (whileLoop_withWorker _ _ Idle).
        now apply (c_retire _ _ _ closed).
Qed.

Lemma closed_run t es :
  P (init t) -> P (run jsonLength options (init t) es).
Proof. apply run_invariant. exact closed_step. Qed.

End Closure.

End Decomposition.

(** ** The worker's loop and the pending list *)

Section Loop.

Context {TanaNode TanaNodeResponse : Type}.
Variable jsonLength : TanaAPIRequest TanaNode -> Z.
Variable options : BatchingOptions.

Implicit Types w : World TanaNode TanaNodeResponse.
Implicit Types q : QueuedRequest TanaNode TanaNodeResponse.
Implicit Types k : Continuation TanaNode TanaNodeResponse.
Implicit Types r : TanaAPIRequest TanaNode.

Lemma shiftAndExecute_result w : LoopResult w (shiftAndExecute w).
Proof.
  unfold shiftAndExecute. destruct (queue (self w)) as [|q rest] eqn:E.
  - now apply LoopIdle.
  - now apply LoopSend.
Qed.

Lemma whileLoop_result w : LoopResult w (whileLoop options w).
Proof.
  unfold whileLoop. destruct (queue (self w)) as [|q rest] eqn:E.
  - now apply LoopIdle.
  - destruct (_ <? _).
    + now apply (LoopPace w _ q rest).
    + apply shiftAndExecute_result.
Qed.

Lemma loop_entries w w' :
  LoopResult w w' -> workerEntry (worker w) = [] -> entries w' = entries w.
Proof.
  intros [E|t q rest E|q rest E] H; unfold entries; cbn; rewrite H, ?E; reflexivity.
Qed.

Lemma loop_frame w w' :
  LoopResult w w' ->
  settled w' = settled w /\ nextFuture w' = nextFuture w /\ hung w' = hung w /\
  requestId (self w') = requestId (self w).
Proof. intros [E|t q rest E|q rest E]; cbn; auto. Qed.

Lemma loop_ctl w w' :
  LoopResult w w' ->
  (queue (self w) <> [] -> processing (self w) = true) ->
  Ctl w'.
Proof.
  intros [E|t q rest E|q rest E] H; unfold Ctl; cbn.
  - auto.
  - rewrite E in *. rewrite H by discriminate. split; discriminate.
  - rewrite E in *. rewrite H by discriminate. split; discriminate.
Qed.

Lemma ctl_ext w w' :
  worker w' = worker w ->
  queue (self w') = queue (self w) ->
  processing (self w') = processing (self w) ->
  Ctl w -> Ctl w'.
Proof. unfold Ctl. intros -> -> ->. auto. Qed.

Lemma ctl_sameCore w w' : sameCore w w' -> Ctl w -> Ctl w'.
Proof. intros (Hq & Hp & _ & Hw & _). now apply ctl_ext. Qed.

Lemma ctl_busy w : Ctl w -> worker w <> Idle -> processing (self w) = true.
Proof.
  intros [_ H] Hw. destruct (processing (self w)); [reflexivity|].
  now elim Hw; apply H.
Qed.

Lemma ctl_backoff w q q' t :
  Ctl w -> worker w = InFlight q -> Ctl (withWorker w (BackingOff q' t)).
Proof.
  intros Hc Hw. assert (Hp := ctl_busy w Hc). rewrite Hw in Hp.
  unfold Ctl. cbn. rewrite Hp by discriminate. split; discriminate.
Qed.

(** What [enqueue] does once the request is admitted: the entry goes to
    the tail, and a worker that was idle takes it at once unless it has
    to pace. *)
Lemma pushRequest_result k r w :
  Ctl w ->
  let w' := pushRequest options k r w in
  let q := newEntry k r w in
  Ctl w' /\
  entries w' = entries w ++ [q] /\
  settled w' = settled w /\ nextFuture w' = nextFuture w /\ hung w' = hung w /\
  requestId (self w') = requestId (self w) + 1 /\
  ((dispatched w' = dispatched w /\
    queue (self w') = queue (self w) ++ [q] /\
    (worker w' = worker w \/ exists t, worker w = Idle /\ worker w' = Pacing t)) \/
   (worker w = Idle /\ queue (self w) = [] /\
    dispatched w' = dispatched w ++ [{| at_ := now w; sent := q |}] /\
    queue (self w') = [] /\ worker w' = InFlight q)).
Proof.
  intros Hc. cbn zeta.
  set (q := newEntry k r w).
  set (pushed := withSelf w
                   (withQueue (withRequestId (self w) (requestId (self w) + 1))
                      (queue (self w) ++ [q]))).
  change (pushRequest options k r w) with (processQueue options pushed).
  unfold processQueue.
  assert (Hne : queue (self pushed) <> []).
  { cbn. intros H. now apply app_eq_nil in H as [_ ?]. }
  destruct (processing (self pushed)) eqn:Hp; cbn [orb].
  - cbn in Hp. split.
    { unfold Ctl in *. cbn. rewrite Hp. split; [|discriminate].
      intros Hw. destruct Hc as [Hc _]. destruct (Hc Hw); congruence. }
    split; [unfold entries; cbn; now rewrite app_assoc|].
    cbn. repeat split. left. auto.
  - destruct (queue (self pushed)) eqn:Hq0; [congruence|]. clear Hq0.
    cbn in Hp. destruct Hc as [Hc1 Hc2]. specialize (Hc2 Hp).
    destruct (Hc1 Hc2) as [Hq _].
    set (w0 := withSelf pushed (withProcessing (self pushed) true)).
    assert (E0 : queue (self w0) = [q]) by (cbn; now rewrite Hq).
    pose proof (whileLoop_result w0) as Hl.
    inversion Hl as [E|t q1 rest E Hw1|q1 rest E Hw1];
      rewrite E0 in E; try discriminate; injection E as <- <-.
    + split; [unfold Ctl; cbn; split; discriminate|].
      unfold entries. cbn. rewrite Hc2, Hq. repeat split. left.
      rewrite <- ?Hw1. cbn. rewrite ?Hq. repeat split. right. now exists t.
    + split; [unfold Ctl; cbn; split; discriminate|].
      unfold entries. cbn. rewrite Hc2, Hq. repeat split. right. auto.
Qed.

End Loop.

(** ** Every promise is accounted for *)

Section Accounting.

Context {TanaNode TanaNodeResponse : Type}.
Variable jsonLength : TanaAPIRequest TanaNode -> Z.
Variable options : BatchingOptions.

Implicit Types w : World TanaNode TanaNodeResponse.
Implicit Types q : QueuedRequest TanaNode TanaNodeResponse.
Implicit Types k : Continuation TanaNode TanaNodeResponse.
Implicit Types r : TanaAPIRequest TanaNode.

Lemma ledger_perm l w l' w' :
  Ledger l w ->
  Permutation (l ++ owed w) (l' ++ owed w') ->
  nextFuture w' = nextFuture w ->
  (hung w' = false -> hung w = false) ->
  Ledger l' w'.
Proof.
  intros (Hnd & Hb & Ht) Hp Hn Hh. unfold Ledger. rewrite Hn. repeat split.
  - eapply Permutation_NoDup; eassumption.
  - intros f Hf. apply Hb. eapply Permutation_in; [symmetry|]; eassumption.
  - intros Hh' f Hf. eapply Permutation_in; [eassumption|]. auto.
Qed.

Lemma ledger_bump w l' w' :
  Ledger [] w ->
  Permutation (nextFuture w :: owed w) (l' ++ owed w') ->
  nextFuture w' = S (nextFuture w) ->
  (hung w' = false -> hung w = false) ->
  Ledger l' w'.
Proof.
  intros (Hnd & Hb & Ht) Hp Hn Hh. cbn [app] in *.
  unfold Ledger. rewrite Hn. repeat split.
  - eapply Permutation_NoDup; [eassumption|]. constructor; [|assumption].
    intros Hin. apply Hb in Hin. lia.
  - intros f Hf. eapply Permutation_in in Hf; [|symmetry; eassumption].
    destruct Hf as [<-|Hf]; [lia|]. apply Hb in Hf. lia.
  - intros Hh' f Hf. eapply Permutation_in; [eassumption|].
    destruct (Nat.eq_dec f (nextFuture w)) as [->|Hne]; [now left|].
    right. apply Ht; [auto|lia].
Qed.

Lemma ledger_hung l w w' :
  Ledger l w ->
  incl (owed w') (l ++ owed w) ->
  NoDup (owed w') ->
  (nextFuture w <= nextFuture w')%nat ->
  hung w' = true ->
  Ledger [] w'.
Proof.
  intros (Hnd & Hb & Ht) Hi Hnd' Hn Hh. unfold Ledger. cbn [app]. repeat split.
  - assumption.
  - intros f Hf. apply Hi, Hb in Hf. lia.
  - congruence.
Qed.

Lemma owed_settle f s w :
  owed (settle f s w) = (map fst (settled w) ++ [f]) ++ map logicalOf (entries w).
Proof. unfold owed, settle, entries. cbn. now rewrite map_app. Qed.

Lemma perm_limbo_settled (f : nat) (a b : list nat) :
  Permutation (f :: a ++ b) ((a ++ [f]) ++ b).
Proof.
  rewrite <- app_assoc. cbn [app]. apply Permutation_middle.
Qed.

Lemma perm_limbo_entry (f : nat) (a b : list nat) :
  Permutation (f :: a ++ b) (a ++ b ++ [f]).
Proof.
  rewrite app_assoc. apply Permutation_cons_append.
Qed.

Lemma chunks_entries w w' :
  (forall q, In q (entries w') -> In q (entries w)) ->
  Chunks options w -> Chunks options w'.
Proof. intros Hi Hc q Hq. apply Hc, Hi, Hq. Qed.

(** The effect of an admitted request on the account. *)
Lemma sound_push k r w :
  Ctl w ->
  Chunks options w ->
  goodK options k ->
  (forall w', owed w' = owed w ++ [logicalFuture k] ->
              nextFuture w' = nextFuture w -> hung w' = hung w -> Ledger [] w') ->
  Sound options (pushRequest options k r w).
Proof.
  intros Hc Hch Hk Hled.
  destruct (pushRequest_result options k r w Hc)
    as (Hc' & He & Hs & Hn & Hh & _).
  cbn zeta in *. split; [|split; [|exact Hc']].
  - apply Hled; try assumption.
    unfold owed. rewrite Hs, He, map_app, app_assoc. reflexivity.
  - intros q Hq. rewrite He in Hq. apply in_app_iff in Hq as [Hq|[<-|[]]].
    + now apply Hch.
    + exact Hk.
Qed.

Lemma sound_closed :
  Closed options (@Sound TanaNode TanaNodeResponse options) (SoundQ options).
Proof.
  constructor.
  - (* frame *)
    intros w w' Hsame (Hl & Hch & Hc).
    pose proof Hsame as (Hq & Hp & Hr & Hw & Hn & Hs & Hd & Hh).
    assert (He : entries w' = entries w) by (unfold entries; congruence).
    split; [|split].
    + eapply ledger_perm; [exact Hl| |exact Hn|congruence].
      unfold owed. now rewrite Hs, He.
    + eapply chunks_entries; [|exact Hch]. now rewrite He.
    + eapply ctl_sameCore; eassumption.
  - (* a new promise is settled at once *)
    intros w s (Hl & Hch & Hc). split; [|split].
    + eapply ledger_bump; [exact Hl| |reflexivity|auto].
      rewrite owed_settle. apply perm_limbo_settled.
    + exact Hch.
    + exact Hc.
  - (* the thread hangs in [chunkNodes] *)
    intros w (Hl & Hch & Hc). split; [|split]; [|exact Hch|exact Hc].
    eapply ledger_hung; [exact Hl| | | |reflexivity].
    + apply incl_refl.
    + apply Hl.
    + cbn. lia.
  - (* a new promise gets its entry *)
    intros w k r (Hl & Hch & Hc) Hk.
    assert (Hf : logicalFuture k = nextFuture w).
    { destruct Hk as [->|(fr & -> & Hf & _)]; [reflexivity|exact Hf]. }
    assert (Hg : goodK options k).
    { destruct Hk as [->|(fr & -> & _ & _ & Hg)]; [exact I|exact Hg]. }
    apply (sound_push k r (bump w)); try assumption.
    intros w' Ho Hn Hh. eapply ledger_bump; [exact Hl| |exact Hn|].
    + cbn [app]. rewrite Ho. change (owed (bump w)) with (owed w).
      rewrite Hf. apply Permutation_cons_append.
    + cbn in Hh. congruence.
  - (* the worker lets go of the entry it has sent *)
    intros w q (Hl & Hch & Hc) Hw.
    pose proof (whileLoop_result options (withWorker w Idle)) as Hr.
    assert (He : entries (whileLoop options (withWorker w Idle)) = queue (self w)).
    { rewrite (loop_entries _ _ Hr) by reflexivity. reflexivity. }
    destruct (loop_frame _ _ Hr) as (Hs & Hn & Hh & _).
    assert (Hew : entries w = q :: queue (self w)).
    { unfold entries. now rewrite Hw. }
    split; [|split; [|split]].
    + eapply ledger_perm; [exact Hl| |exact Hn|rewrite Hh; auto].
      unfold owed. rewrite Hs, He, Hew. cbn.
      symmetry. apply Permutation_middle.
    + intros q' Hq'. rewrite He in Hq'. apply Hch. rewrite Hew. now right.
    + apply (loop_ctl _ _ Hr). intros _. cbn.
      apply ctl_busy; [exact Hc|]. rewrite Hw. discriminate.
    + apply Hch. rewrite Hew. now left.
  - (* the promise of that entry is settled *)
    intros w q s (Hl & Hch & Hc & _). split; [|split]; [|exact Hch|exact Hc].
    eapply ledger_perm; [exact Hl| |reflexivity|auto].
    rewrite owed_settle. cbn [app]. apply perm_limbo_settled.
  - (* the thread hangs while the next chunk is enqueued *)
    intros w q (Hl & Hch & Hc & _). split; [|split]; [|exact Hch|exact Hc].
    eapply ledger_hung; [exact Hl| | | |reflexivity].
    + change (owed (hang w)) with (owed w). apply incl_appr, incl_refl.
    + change (owed (hang w)) with (owed w).
      destruct Hl as (Hnd & _). now apply NoDup_cons_iff in Hnd as [_ ?].
    + cbn. lia.
  - (* the promise passes to the entry of the next chunk *)
    intros w q fr chunk rest response r (Hl & Hch & Hc & Hg) Hk Hrem.
    assert (Hf : logicalFuture (Chunk (advance fr rest response)) = logicalOf q).
    { unfold logicalOf. rewrite Hk. reflexivity. }
    apply (sound_push _ r w); try assumption.
    + rewrite Hk in Hg. cbn in Hg |- *. unfold smallChunks in *.
      rewrite Hrem in Hg. now inversion Hg.
    + intros w' Ho Hn Hh. eapply ledger_perm; [exact Hl| |exact Hn|congruence].
      cbn [app]. rewrite Ho, Hf. apply Permutation_cons_append.
  - (* a failed attempt is followed by a backoff *)
    intros w q t (Hl & Hch & Hc) Hw Hrc.
    assert (Hew : entries w = q :: queue (self w)).
    { unfold entries. now rewrite Hw. }
    split; [|split].
    + eapply ledger_perm; [exact Hl| |reflexivity|auto].
      unfold owed, entries. cbn. rewrite Hw. reflexivity.
    + intros q' [<-|Hq'].
      * apply (Hch q). rewrite Hew. now left.
      * apply Hch. rewrite Hew. now right.
    + eapply ctl_backoff; eassumption.
  - (* after the backoff the entry is back at the front *)
    intros w q t (Hl & Hch & Hc) Hw.
    pose proof (whileLoop_result options (withWorker (unshift q w) Idle)) as Hr.
    assert (He : entries (whileLoop options (withWorker (unshift q w) Idle)) = entries w).
    { rewrite (loop_entries _ _ Hr) by reflexivity.
      unfold entries. cbn. now rewrite Hw. }
    destruct (loop_frame _ _ Hr) as (Hs & Hn & Hh & _).
    split; [|split].
    + eapply ledger_perm; [exact Hl| |exact Hn|rewrite Hh; auto].
      unfold owed. rewrite Hs, He. reflexivity.
    + eapply chunks_entries; [|exact Hch]. now rewrite He.
    + apply (loop_ctl _ _ Hr). intros _. cbn.
      apply ctl_busy; [exact Hc|]. rewrite Hw. discriminate.
  - (* the pacing delay is over *)
    intros w t (Hl & Hch & Hc) Hw.
    pose proof (shiftAndExecute_result w) as Hr.
    assert (He : entries (shiftAndExecute w) = entries w).
    { apply (loop_entries _ _ Hr). now rewrite Hw. }
    destruct (loop_frame _ _ Hr) as (Hs & Hn & Hh & _).
    split; [|split].
    + eapply ledger_perm; [exact Hl| |exact Hn|rewrite Hh; auto].
      unfold owed. rewrite Hs, He. reflexivity.
    + eapply chunks_entries; [|exact Hch]. now rewrite He.
    + apply (loop_ctl _ _ Hr). intros _.
      apply ctl_busy; [exact Hc|]. rewrite Hw. discriminate.
Qed.

Lemma sound_init t : Sound options (init (TanaNode := TanaNode)
                                         (TanaNodeResponse := TanaNodeResponse) t).
Proof.
  split; [|split].
  - unfold Ledger. cbn. repeat split; [constructor|intros f []|intros _ f Hf; lia].
  - intros q [].
  - unfold Ctl. cbn. auto.
Qed.

Lemma sound_reachable w : reachable jsonLength options w -> Sound options w.
Proof.
  intros (t & es & ->).
  apply (closed_run jsonLength options _ _ sound_closed). apply sound_init.
Qed.

End Accounting.

(** ** The worker comes to an end *)

Section Termination.

Context {TanaNode TanaNodeResponse : Type}.
Variable jsonLength : TanaAPIRequest TanaNode -> Z.
Variable options : BatchingOptions.

Implicit Types w : World TanaNode TanaNodeResponse.
Implicit Types q : QueuedRequest TanaNode TanaNodeResponse.
Implicit Types k : Continuation TanaNode TanaNodeResponse.
Implicit Types r : TanaAPIRequest TanaNode.

Lemma weight_pos q : (4 <= weight options q)%nat.
Proof. unfold weight, attemptsLeft. lia. Qed.

Lemma weight_retry q :
  retryCount q + 1 <= maxRetries options ->
  (weight options (withRetryCount q (retryCount q + 1)) + 4 = weight options q)%nat.
Proof.
  intros H. unfold weight, attemptsLeft. cbn [retryCount cont withRetryCount].
  replace (Z.to_nat (maxRetries options - retryCount q))
    with (S (Z.to_nat (maxRetries options - (retryCount q + 1)))) by lia.
  lia.
Qed.

Lemma weight_chunk q fr chunk rest :
  cont q = Chunk fr -> remaining fr = chunk :: rest ->
  weight options q =
  (4 * attemptsLeft options q + S (length rest) * (4 * S (Z.to_nat (maxRetries options))))%nat.
Proof. intros Hk Hr. unfold weight. now rewrite Hk, Hr. Qed.

Lemma weight_next fr rest response r w :
  weight options (newEntry (Chunk (advance fr rest response)) r w) =
  (S (length rest) * (4 * S (Z.to_nat (maxRetries options))))%nat.
Proof.
  unfold weight, attemptsLeft. cbn. rewrite Z.sub_0_r. lia.
Qed.

Lemma totalWeight_app (l l' : list (QueuedRequest TanaNode TanaNodeResponse)) :
  totalWeight options (l ++ l') = (totalWeight options l + totalWeight options l')%nat.
Proof.
  unfold totalWeight. induction l as [|q l IH]; cbn [app fold_right]; [reflexivity|].
  rewrite IH. lia.
Qed.

Lemma loop_measure w w' :
  LoopResult w w' ->
  (measure options w' <= 1 + totalWeight options (queue (self w)))%nat.
Proof.
  intros [E|t q rest E|q rest E]; unfold measure; cbn; rewrite E; cbn; try lia.
Qed.

Lemma shift_measure w :
  (measure options (shiftAndExecute w) <= totalWeight options (queue (self w)))%nat.
Proof.
  unfold shiftAndExecute, measure.
  destruct (queue (self w)) as [|q rest] eqn:E; cbn; rewrite ?E; cbn; lia.
Qed.

Lemma measure_settle f s w : measure options (settle f s w) = measure options w.
Proof. reflexivity. Qed.

Lemma pushRequest_measure k r w :
  Ctl w ->
  (measure options (pushRequest options k r w) <=
   measure options w + weight options (newEntry k r w) + 1)%nat.
Proof.
  intros Hc.
  destruct (pushRequest_result options k r w Hc)
    as (_ & _ & _ & _ & _ & _ & [(_ & Hq & Hw)|(Hw & Hq & _ & Hq' & Hw')]).
  - unfold measure. rewrite Hq, totalWeight_app. cbn.
    destruct Hw as [->|(t & -> & ->)]; lia.
  - unfold measure. rewrite Hq', Hw', Hw, Hq. cbn. lia.
Qed.

Lemma pushRequest_frame k r w :
  Ctl w ->
  hung (pushRequest options k r w) = hung w /\
  nextFuture (pushRequest options k r w) = nextFuture w.
Proof.
  intros Hc.
  destruct (pushRequest_result options k r w Hc) as (_ & _ & _ & Hn & Hh & _).
  auto.
Qed.

(** The answer to a successful attempt: the promise is resolved, or the
    next chunk is enqueued, and the worker is nearer to its end. *)
Lemma resolve_measure q response w :
  Ctl w -> goodK options (cont q) -> hung w = false ->
  let w' := resolveWith jsonLength options (cont q) response w in
  hung w' = false /\ nextFuture w' = nextFuture w /\
  (measure options w' + 4 * attemptsLeft options q <=
   measure options w + weight options q + 1)%nat.
Proof.
  intros Hc Hg Hh. cbn zeta. unfold resolveWith.
  destruct (cont q) as [f|fr] eqn:Hk.
  - split; [exact Hh|split; [reflexivity|]].
    rewrite measure_settle. unfold weight. rewrite Hk. lia.
  - match goal with
    | |- context [nextChunk _ _ ?fr' _] =>
        destruct (nextChunk_cases jsonLength options fr' w)
          as [[_ ->]|(chunk & rest & Hrem & ->)]
    end.
    + split; [exact Hh|split; [reflexivity|]].
      rewrite measure_settle. unfold weight. rewrite Hk. lia.
    + cbn [logical target remaining allResponses] in *.
      match goal with
      | |- context [enqueueChunk _ _ ?k' ?r' _] =>
          destruct (enqueueChunk_cases jsonLength options k' r' w)
            as [[err ->]|[->|[_ Hbig]]]
      end.
      * split; [exact Hh|split; [reflexivity|]].
        unfold rejectWith. rewrite measure_settle. unfold weight. rewrite Hk. lia.
      * match goal with
        | |- context [pushRequest _ ?k' ?r' _] =>
            destruct (pushRequest_frame k' r' w Hc) as [-> ->];
            pose proof (pushRequest_measure k' r' w Hc) as Hm
        end.
        repeat split; [assumption|].
        change (Chunk _) with (Chunk (advance fr rest response)) in Hm.
        rewrite weight_next in Hm.
        rewrite (weight_chunk q fr chunk rest Hk Hrem). unfold advance in Hm. lia.
      * exfalso. cbn in Hg, Hbig. unfold smallChunks in Hg. rewrite Hrem in Hg.
        inversion Hg; subst. lia.
Qed.

(** Every event of the worker brings it nearer to its end, and promises
    are neither handed out nor lost on the way. *)
Lemma worker_step_decreases executor w e :
  Sound options w -> hung w = false ->
  workerEvent executor w = Some e ->
  let w' := step jsonLength options w e in
  hung w' = false /\ nextFuture w' = nextFuture w /\
  (measure options w' < measure options w)%nat.
Proof.
  intros (Hl & Hch & Hc) Hh He. cbn zeta. unfold workerEvent in He.
  unfold step. rewrite Hh.
  destruct (worker w) as [|t|q|q t] eqn:Hw; try discriminate;
    injection He as <-; rewrite ?Hw.
  - (* the pacing delay is over *)
    set (w2 := withNow w (Z.max (now w) t)).
    assert (Hm : (measure options (shiftAndExecute w2) <=
                  totalWeight options (queue (self w)))%nat)
      by exact (shift_measure w2).
    destruct (loop_frame _ _ (shiftAndExecute_result w2)) as (_ & Hn & Hg & _).
    split; [rewrite Hg; exact Hh|]. split; [rewrite Hn; reflexivity|].
    unfold measure at 2. rewrite Hw. lia.
  - (* the executor has answered *)
    assert (Hp : processing (self w) = true).
    { apply ctl_busy; [exact Hc|]. rewrite Hw. discriminate. }
    assert (Hgood : goodK options (cont q)).
    { apply Hch. unfold entries. rewrite Hw. now left. }
    destruct (executor (length (dispatched w)) (request q)) as [response|error].
    + unfold handleResponse.
      set (w1 := withSelf w (updateNodeCount (request q) response (self w))).
      set (w2 := withSelf w1 (withLastRequestTime (self w1) (now w1))).
      assert (Hq2 : queue (self w2) = queue (self w) /\
                    processing (self w2) = processing (self w)).
      { unfold w2, w1, updateNodeCount. destruct (isCreateNodesRequest _); auto. }
      destruct Hq2 as [Hq2 Hp2].
      pose proof (whileLoop_result options w2) as Hr.
      set (w3 := whileLoop options w2) in *.
      pose proof (loop_measure _ _ Hr) as Hm. rewrite Hq2 in Hm.
      destruct (loop_frame _ _ Hr) as (_ & Hn3 & Hh3 & _).
      assert (Hc3 : Ctl w3).
      { apply (loop_ctl _ _ Hr). intros _. now rewrite Hp2. }
      assert (Hh3' : hung w3 = false) by (rewrite Hh3; exact Hh).
      destruct (resolve_measure q response w3 Hc3 Hgood Hh3') as (Hh4 & Hn4 & Hm4).
      cbn zeta in *. split; [exact Hh4|]. split; [rewrite Hn4, Hn3; reflexivity|].
      unfold measure at 2. rewrite Hw.
      pose proof (weight_pos q). unfold attemptsLeft in Hm4. lia.
    + unfold handleRequestError. cbn [retryCount withRetryCount cont].
      destruct (Z.leb_spec (retryCount q + 1) (maxRetries options)) as [Hrc|Hrc].
      * split; [exact Hh|]. split; [reflexivity|].
        pose proof (weight_retry q Hrc) as Hwr.
        unfold measure. rewrite Hw. cbn [worker withWorker self].
        lia.
      * set (w2 := rejectWith (cont q)
                     (RetriesExceeded (maxRetries options) error) w).
        pose proof (whileLoop_result options w2) as Hr.
        assert (Hm : (measure options (whileLoop options w2) <=
                      1 + totalWeight options (queue (self w)))%nat)
          by exact (loop_measure _ _ Hr).
        destruct (loop_frame _ _ Hr) as (_ & Hn & Hg & _).
        split; [rewrite Hg; exact Hh|]. split; [rewrite Hn; reflexivity|].
        unfold measure at 2. rewrite Hw. pose proof (weight_pos q). lia.
  - (* the backoff is over *)
    set (w2 := unshift q (withNow w (Z.max (now w) t))).
    pose proof (whileLoop_result options w2) as Hr.
    assert (Hm : (measure options (whileLoop options w2) <=
                  1 + (weight options q + totalWeight options (queue (self w))))%nat)
      by exact (loop_measure _ _ Hr).
    destruct (loop_frame _ _ Hr) as (_ & Hn & Hg & _).
    split; [rewrite Hg; exact Hh|]. split; [rewrite Hn; reflexivity|].
    unfold measure at 2. rewrite Hw. lia.
Qed.

Lemma measure_zero_idle w : measure options w = O -> worker w = Idle.
Proof.
  unfold measure. destruct (worker w) as [|t|q|q t]; try reflexivity; try lia.
  pose proof (weight_pos q). lia.
Qed.

(** With enough events the worker becomes idle. *)
Lemma drain_idle executor n :
  forall w,
    reachable jsonLength options w -> hung w = false ->
    (measure options w <= n)%nat ->
    let w' := drain jsonLength options executor n w in
    reachable jsonLength options w' /\ hung w' = false /\
    nextFuture w' = nextFuture w /\ worker w' = Idle.
Proof.
  induction n as [|n IH]; intros w Hr Hh Hm; cbn [drain].
  - repeat split; try assumption. apply measure_zero_idle. lia.
  - destruct (workerEvent executor w) as [e|] eqn:He.
    + destruct (worker_step_decreases executor w e
                  (sound_reachable jsonLength options w Hr) Hh He)
        as (Hh' & Hn' & Hm').
      cbn zeta in *.
      destruct (IH (step jsonLength options w e)) as (Hr2 & Hh2 & Hn2 & Hw2).
      * now apply reachable_step.
      * assumption.
      * lia.
      * repeat split; try assumption. congruence.
    + repeat split; try assumption.
      unfold workerEvent in He. destruct (worker w); try discriminate. reflexivity.
Qed.







End Termination.

(** ** The order of the calls of the executor *)

Section Order.

Context {TanaNode TanaNodeResponse : Type}.
Variable jsonLength : TanaAPIRequest TanaNode -> Z.
Variable options : BatchingOptions.

Implicit Types w : World TanaNode TanaNodeResponse.
Implicit Types q : QueuedRequest TanaNode TanaNodeResponse.
Implicit Types d : Dispatch TanaNode TanaNodeResponse.
Implicit Types k : Continuation TanaNode TanaNodeResponse.
Implicit Types r : TanaAPIRequest TanaNode.

Lemma StronglySorted_snoc {A : Type} (R : A -> A -> Prop) (l : list A) (x : A) :
  StronglySorted R l -> Forall (fun y => R y x) l -> StronglySorted R (l ++ [x]).
Proof.
  induction 1 as [|a l Hs IH Ha]; intros Hx; cbn.
  - repeat constructor.
  - inversion Hx; subst. constructor; [auto|].
    apply Forall_app. split; [assumption|]. repeat constructor. assumption.
Qed.

Lemma attempts_snoc i (l : list (Dispatch TanaNode TanaNodeResponse)) d :
  attempts i (l ++ [d]) = attempts i l + (if id (sent d) =? i then 1 else 0).
Proof.
  unfold attempts. rewrite filter_app, length_app. cbn.
  destruct (id (sent d) =? i); cbn; lia.
Qed.

Lemma attempts_none i (l : list (Dispatch TanaNode TanaNodeResponse)) :
  (forall d, In d l -> id (sent d) <> i) -> attempts i l = 0.
Proof.
  intros H. unfold attempts. induction l as [|d l IH]; [reflexivity|].
  cbn. destruct (Z.eqb_spec (id (sent d)) i) as [E|_].
  - elim (H d); [now left|exact E].
  - apply IH. intros d' Hd'. apply H. now right.
Qed.

Lemma attempts_nonneg i (l : list (Dispatch TanaNode TanaNodeResponse)) :
  0 <= attempts i l.
Proof. unfold attempts. lia. Qed.

(** [pushRequest] is [pushed], followed by the top of the worker's loop
    when the worker was idle. *)
Lemma pushRequest_shape k r w :
  (processing (self w) = true /\ pushRequest options k r w = pushed k r w) \/
  (processing (self w) = false /\
   LoopResult (withSelf (pushed k r w) (withProcessing (self (pushed k r w)) true))
     (pushRequest options k r w)).
Proof.
  change (pushRequest options k r w) with (processQueue options (pushed k r w)).
  unfold processQueue.
  assert (Hp : processing (self (pushed k r w)) = processing (self w)) by reflexivity.
  rewrite Hp. destruct (processing (self w)); cbn [orb]; [left; auto|right].
  split; [reflexivity|].
  destruct (queue (self (pushed k r w))) eqn:E.
  - cbn in E. now apply app_eq_nil in E as [_ ?].
  - apply whileLoop_result.
Qed.

Lemma StronglySorted_app_r {A : Type} (R : A -> A -> Prop) (l1 l2 : list A) :
  StronglySorted R (l1 ++ l2) -> StronglySorted R l2.
Proof.
  induction l1 as [|a l1 IH]; cbn; [auto|]. intros H. inversion H; auto.
Qed.

(** The last two clauses of [OrderedCore] pass from one world to another
    whose known entries have the ids and continuations of entries the
    first one knows. *)
Lemma first_transfer w w' :
  (forall e, In e (known w') ->
             exists e0, In e0 (known w) /\ id e0 = id e /\ cont e0 = cont e) ->
  (nextFuture w <= nextFuture w')%nat ->
  OrderedCore options w ->
  (forall e1 e2,
      In e1 (known w') -> In e2 (known w') ->
      isFirstEntry e1 = true ->
      (logicalOf e1 < logicalOf e2)%nat ->
      id e1 < id e2) /\
  (forall e, In e (known w') -> (logicalOf e < nextFuture w')%nat).
Proof.
  intros Hsim Hn Ho. split.
  - intros e1 e2 H1 H2 Hf Hl.
    destruct (Hsim e1 H1) as (a1 & Ha1 & Hi1 & Hk1).
    destruct (Hsim e2 H2) as (a2 & Ha2 & Hi2 & Hk2).
    rewrite <- Hi1, <- Hi2. apply (o_first _ _ Ho a1 a2 Ha1 Ha2).
    + unfold isFirstEntry in *. now rewrite Hk1.
    + unfold logicalOf in *. now rewrite Hk1, Hk2.
  - intros e He. destruct (Hsim e He) as (a & Ha & _ & Hk).
    pose proof (o_logical _ _ Ho a Ha) as Hl.
    unfold logicalOf in *. rewrite Hk in Hl. lia.
Qed.

Lemma known_self e w : In e (known w) -> exists e0, In e0 (known w) /\ id e0 = id e /\ cont e0 = cont e.
Proof. intros H. exists e. auto. Qed.

(** Nothing changes for the order when the worker is the same, or holds
    no entry any more, and the pending list, the counter of ids and the
    calls of the executor are the same. *)
Lemma core_weaken w w' :
  worker w' = worker w \/ workerEntry (worker w') = [] ->
  queue (self w') = queue (self w) ->
  requestId (self w') = requestId (self w) ->
  dispatched w' = dispatched w ->
  (nextFuture w <= nextFuture w')%nat ->
  OrderedCore options w -> OrderedCore options w'.
Proof.
  intros Hw Hq Hr Hd Hn Ho.
  assert (Hsub : forall q, In q (entries w') -> In q (entries w)).
  { intros q. unfold entries. rewrite Hq.
    destruct Hw as [->| ->]; [auto|]. cbn. intros H. apply in_or_app. now right. }
  assert (Hk : forall e, In e (known w') -> In e (known w)).
  { intros e. unfold known. rewrite Hd, !in_app_iff. intros [H|H]; auto. }
  destruct (first_transfer w w') as [Hf Hl]; try assumption.
  { intros e He. apply known_self. auto. }
  constructor.
  - unfold entries. rewrite Hq. destruct Hw as [->| ->]; [apply (o_strict _ _ Ho)|].
    cbn. pose proof (o_strict _ _ Ho) as Hs. unfold entries in Hs.
    rewrite map_app in Hs. eapply StronglySorted_app_r. exact Hs.
  - intros q Hin. rewrite Hr. apply (o_ids _ _ Ho). auto.
  - intros d Hin. rewrite Hr. rewrite Hd in Hin. now apply (o_log_ids _ _ Ho).
  - unfold sentIds. rewrite Hd. apply (o_log_sorted _ _ Ho).
  - intros d q Hin1 Hin2. rewrite Hd in Hin1. apply (o_log_before _ _ Ho); auto.
  - intros q Hin. rewrite Hd. rewrite Hq in Hin. now apply (o_count_queue _ _ Ho).
  - rewrite Hd. destruct Hw as [->|Hw]; [apply (o_count_worker _ _ Ho)|].
    destruct (worker w'); try exact I; discriminate.
  - intros i. rewrite Hd. apply (o_bound _ _ Ho).
  - exact Hf.
  - exact Hl.
Qed.

(** The worker takes the head of the pending list. *)
Lemma core_send w q rest :
  workerEntry (worker w) = [] ->
  queue (self w) = q :: rest ->
  OrderedCore options w -> OrderedCore options (sending w q rest).
Proof.
  intros Hw Hq Ho.
  assert (He : entries w = q :: rest) by (unfold entries; now rewrite Hw, Hq).
  assert (He' : entries (sending w q rest) = q :: rest) by reflexivity.
  pose proof (o_strict _ _ Ho) as Hs. rewrite He in Hs. cbn in Hs.
  inversion Hs as [|? ? Hs' Hlt]; subst. rewrite Forall_map in Hlt.
  rewrite Forall_forall in Hlt.
  assert (Hqin : In q (entries w)) by (rewrite He; now left).
  destruct (o_count_queue _ _ Ho q) as [Hcq Hrq]; [rewrite Hq; now left|].
  destruct (first_transfer w (sending w q rest)) as [Hf Hl]; try assumption.
  { intros e. unfold known. cbn [dispatched sending]. rewrite He', map_app, <- He.
    cbn [map sent]. rewrite <- app_assoc. cbn [app]. rewrite !in_app_iff.
    intros [H|[<-|H]]; apply known_self; unfold known; rewrite in_app_iff; auto. }
  { apply Nat.le_refl. }
  constructor.
  - rewrite He'. cbn. constructor; [assumption|]. rewrite Forall_map.
    now rewrite Forall_forall.
  - intros q' Hin. rewrite He', <- He in Hin. now apply (o_ids _ _ Ho).
  - intros d Hin. cbn in Hin. apply in_app_iff in Hin as [Hin|[<-|[]]].
    + now apply (o_log_ids _ _ Ho).
    + cbn. now apply (o_ids _ _ Ho).
  - unfold sentIds. cbn [dispatched sending]. rewrite map_app. cbn [map sent].
    apply StronglySorted_snoc; [apply (o_log_sorted _ _ Ho)|].
    rewrite Forall_map, Forall_forall. intros d Hd. now apply (o_log_before _ _ Ho).
  - intros d q' Hin Hq'. cbn in Hin. rewrite He' in Hq'.
    apply in_app_iff in Hin as [Hin|[<-|[]]].
    + apply (o_log_before _ _ Ho); [assumption|]. now rewrite He.
    + cbn [sent]. destruct Hq' as [<-|Hq']; [lia|]. apply Hlt in Hq'. lia.
  - intros q' Hin. cbn in Hin. cbn [dispatched sending].
    rewrite attempts_snoc. cbn [sent].
    assert (Hne : id q <> id q') by (apply Hlt in Hin; lia).
    destruct (Z.eqb_spec (id q) (id q')); [contradiction|].
    rewrite Z.add_0_r. apply (o_count_queue _ _ Ho). rewrite Hq. now right.
  - cbn [worker sending dispatched]. rewrite attempts_snoc. cbn [sent].
    rewrite Z.eqb_refl. split; [lia|assumption].
  - intros i. cbn [dispatched sending]. rewrite attempts_snoc. cbn [sent].
    destruct (Z.eqb_spec (id q) i) as [<-|_].
    + unfold retryOk in Hrq. lia.
    + rewrite Z.add_0_r. apply (o_bound _ _ Ho).
  - exact Hf.
  - exact Hl.
Qed.

Lemma core_loop w w' :
  LoopResult w w' ->
  workerEntry (worker w) = [] ->
  OrderedCore options w -> OrderedCore options w'.
Proof.
  intros [E|t q rest E|q rest E] Hw Ho.
  - eapply core_weaken; [| | | | |exact Ho]; cbn; auto.
  - eapply core_weaken; [| | | | |exact Ho]; cbn; auto.
  - now apply core_send.
Qed.

(** A new entry joins the pending list. *)
Lemma core_pushed k r w :
  (isFirstK k = true ->
   forall e, In e (known w) -> (logicalOf e < logicalFuture k)%nat) ->
  (logicalFuture k < nextFuture w)%nat ->
  OrderedCore options w -> OrderedCore options (pushed k r w).
Proof.
  intros Hfirst Hlog Ho.
  set (q := newEntry k r w).
  assert (He : entries (pushed k r w) = entries w ++ [q]).
  { unfold entries. cbn. now rewrite app_assoc. }
  assert (Hid : forall e, In e (known w) -> id e <= requestId (self w)).
  { intros e. unfold known. rewrite in_app_iff, in_map_iff.
    intros [(d & <- & Hd)|H]; [now apply (o_log_ids _ _ Ho)|now apply (o_ids _ _ Ho)]. }
  assert (Hk : forall e, In e (known (pushed k r w)) -> In e (known w) \/ e = q).
  { intros e. unfold known. cbn [dispatched pushed withSelf]. rewrite He.
    rewrite !in_app_iff. cbn. intuition. }
  constructor.
  - rewrite He, map_app. cbn [map]. apply StronglySorted_snoc; [apply (o_strict _ _ Ho)|].
    rewrite Forall_map, Forall_forall. intros q' Hq'. cbn.
    pose proof (o_ids _ _ Ho q' Hq'). lia.
  - intros q' Hq'. rewrite He in Hq'. cbn [requestId self pushed withSelf withQueue withRequestId].
    apply in_app_iff in Hq' as [Hq'|[<-|[]]].
    + pose proof (o_ids _ _ Ho q' Hq'). lia.
    + cbn. lia.
  - intros d Hd. cbn in Hd |- *. pose proof (o_log_ids _ _ Ho d Hd). lia.
  - apply (o_log_sorted _ _ Ho).
  - intros d q' Hd Hq'. cbn in Hd. rewrite He in Hq'.
    apply in_app_iff in Hq' as [Hq'|[<-|[]]].
    + now apply (o_log_before _ _ Ho).
    + cbn. pose proof (o_log_ids _ _ Ho d Hd). lia.
  - intros q' Hq'. cbn in Hq'. cbn [dispatched pushed withSelf].
    apply in_app_iff in Hq' as [Hq'|[<-|[]]].
    + now apply (o_count_queue _ _ Ho).
    + split; [|unfold retryOk; cbn; lia].
      cbn. apply attempts_none. intros d Hd.
      pose proof (o_log_ids _ _ Ho d Hd). lia.
  - apply (o_count_worker _ _ Ho).
  - apply (o_bound _ _ Ho).
  - intros e1 e2 H1 H2 Hf Hl.
    destruct (Hk e1 H1) as [K1| ->], (Hk e2 H2) as [K2| ->].
    + now apply (o_first _ _ Ho e1 e2).
    + cbn. pose proof (Hid e1 K1). lia.
    + exfalso. assert (Hfk : isFirstK k = true) by exact Hf.
      pose proof (Hfirst Hfk e2 K2) as Hlt. unfold logicalOf in Hl at 1.
      cbn in Hl. lia.
    + lia.
  - intros e He'. destruct (Hk e He') as [K| ->].
    + now apply (o_logical _ _ Ho).
    + exact Hlog.
Qed.

(** A failed attempt is followed by a backoff. *)
Lemma core_backoff w q t :
  worker w = InFlight q ->
  retryCount q + 1 <= maxRetries options ->
  OrderedCore options w ->
  OrderedCore options (withWorker w (BackingOff (withRetryCount q (retryCount q + 1)) t)).
Proof.
  intros Hw Hrc Ho.
  set (q' := withRetryCount q (retryCount q + 1)).
  assert (He : entries w = q :: queue (self w)) by (unfold entries; now rewrite Hw).
  assert (He' : entries (withWorker w (BackingOff q' t)) = q' :: queue (self w))
    by reflexivity.
  pose proof (o_count_worker _ _ Ho) as Hcw. rewrite Hw in Hcw.
  destruct Hcw as [Hcq Hrq].
  destruct (first_transfer w (withWorker w (BackingOff q' t))) as [Hf Hl];
    try assumption.
  { intros e. unfold known. rewrite He'. cbn [dispatched withWorker].
    rewrite in_app_iff. intros [H|[<-|H]].
    - apply known_self. unfold known. rewrite in_app_iff. auto.
    - exists q. unfold known. rewrite in_app_iff, He. cbn. auto.
    - apply known_self. unfold known. rewrite in_app_iff, He. cbn. auto. }
  { apply Nat.le_refl. }
  constructor.
  - rewrite He'. pose proof (o_strict _ _ Ho) as Hs. now rewrite He in Hs.
  - intros e Hin. rewrite He' in Hin. cbn [self withWorker].
    destruct Hin as [<-|Hin]; [cbn|]; apply (o_ids _ _ Ho); rewrite He; cbn; auto.
  - apply (o_log_ids _ _ Ho).
  - apply (o_log_sorted _ _ Ho).
  - intros d e Hd Hin. rewrite He' in Hin. cbn in Hd.
    destruct Hin as [<-|Hin]; [cbn|]; apply (o_log_before _ _ Ho);
      try assumption; rewrite He; cbn; auto.
  - apply (o_count_queue _ _ Ho).
  - cbn. unfold retryOk in *. cbn. split; lia.
  - apply (o_bound _ _ Ho).
  - exact Hf.
  - exact Hl.
Qed.

(** After the backoff the entry is back at the front of the list. *)
Lemma core_unshift w q t :
  worker w = BackingOff q t ->
  OrderedCore options w ->
  OrderedCore options (withWorker (unshift q w) Idle).
Proof.
  intros Hw Ho.
  assert (He : entries w = q :: queue (self w)) by (unfold entries; now rewrite Hw).
  assert (He' : entries (withWorker (unshift q w) Idle) = entries w)
    by (now rewrite He).
  pose proof (o_count_worker _ _ Ho) as Hcw. rewrite Hw in Hcw.
  destruct (first_transfer w (withWorker (unshift q w) Idle)) as [Hf Hl];
    try assumption.
  { intros e He0. exists e. split; [|auto]. unfold known in *.
    rewrite He' in He0. exact He0. }
  { apply Nat.le_refl. }
  constructor.
  - rewrite He'. apply (o_strict _ _ Ho).
  - intros e Hin. rewrite He' in Hin. now apply (o_ids _ _ Ho).
  - apply (o_log_ids _ _ Ho).
  - apply (o_log_sorted _ _ Ho).
  - intros d e Hd Hin. rewrite He' in Hin. now apply (o_log_before _ _ Ho).
  - intros e [<-|Hin]; [exact Hcw|]. now apply (o_count_queue _ _ Ho).
  - exact I.
  - apply (o_bound _ _ Ho).
  - exact Hf.
  - exact Hl.
Qed.

(** An admitted request and the order. *)
Lemma ordered_push k r w :
  (isFirstK k = true ->
   forall e, In e (known w) -> (logicalOf e < logicalFuture k)%nat) ->
  (logicalFuture k < nextFuture w)%nat ->
  Ordered options w -> Ordered options (pushRequest options k r w).
Proof.
  intros Hfirst Hlog [Ho Hc].
  split; [|apply (pushRequest_result options k r w Hc)].
  pose proof (core_pushed k r w Hfirst Hlog Ho) as Hp.
  destruct (pushRequest_shape k r w) as [[_ ->]|[Hproc Hr]]; [exact Hp|].
  apply (core_loop _ _ Hr).
  - cbn. now rewrite (proj2 Hc Hproc).
  - eapply core_weaken; [| | | | |exact Hp]; cbn; auto.
Qed.

Lemma ordered_closed :
  Closed options (@Ordered TanaNode TanaNodeResponse options)
    (OrderedQ options).
Proof.
  constructor.
  - intros w w' Hsame [Ho Hc].
    pose proof Hsame as (Hq & Hp & Hr & Hw & Hn & Hs & Hd & Hh).
    split; [|eapply ctl_sameCore; eassumption].
    eapply core_weaken; [| | | | |exact Ho]; auto. rewrite Hn. apply Nat.le_refl.
  - intros w s [Ho Hc]. split; [|exact Hc].
    eapply core_weaken; [| | | | |exact Ho]; cbn; auto.
  - intros w [Ho Hc]. split; [|exact Hc].
    eapply core_weaken; [| | | | |exact Ho]; cbn; auto.
  - intros w k r [Ho Hc] Hk.
    assert (Hf : logicalFuture k = nextFuture w).
    { destruct Hk as [->|(fr & -> & Hf & _)]; [reflexivity|exact Hf]. }
    apply ordered_push.
    + intros _ e He. rewrite Hf. now apply (o_logical _ _ Ho).
    + rewrite Hf. cbn. lia.
    + split; [|exact Hc]. eapply core_weaken; [| | | | |exact Ho]; cbn; auto.
  - intros w q [Ho Hc] Hw.
    pose proof (whileLoop_result options (withWorker w Idle)) as Hr.
    destruct (loop_frame _ _ Hr) as (_ & Hn & _).
    split; [split|].
    + apply (core_loop _ _ Hr); [reflexivity|].
      eapply core_weaken; [| | | | |exact Ho]; cbn; auto.
    + apply (loop_ctl _ _ Hr). intros _. cbn.
      apply ctl_busy; [exact Hc|]. rewrite Hw. discriminate.
    + rewrite Hn. cbn. apply (o_logical _ _ Ho). unfold known, entries.
      rewrite Hw, in_app_iff. cbn. auto.
  - intros w q s [[Ho Hc] _]. split; [|exact Hc].
    eapply core_weaken; [| | | | |exact Ho]; cbn; auto.
  - intros w q [[Ho Hc] _]. split; [|exact Hc].
    eapply core_weaken; [| | | | |exact Ho]; cbn; auto.
  - intros w q fr chunk rest response r [Hord Hlog] Hk Hrem.
    apply ordered_push; [| |exact Hord].
    + cbn. destruct (allResponses fr); discriminate.
    + cbn. unfold logicalOf in Hlog. now rewrite Hk in Hlog.
  - intros w q t [Ho Hc] Hw Hrc. split.
    + now apply core_backoff.
    + eapply ctl_backoff; eassumption.
  - intros w q t [Ho Hc] Hw.
    pose proof (whileLoop_result options (withWorker (unshift q w) Idle)) as Hr.
    split.
    + apply (core_loop _ _ Hr); [reflexivity|]. eapply core_unshift; eassumption.
    + apply (loop_ctl _ _ Hr). intros _. cbn.
      apply ctl_busy; [exact Hc|]. rewrite Hw. discriminate.
  - intros w t [Ho Hc] Hw.
    pose proof (shiftAndExecute_result w) as Hr. split.
    + apply (core_loop _ _ Hr); [now rewrite Hw|exact Ho].
    + apply (loop_ctl _ _ Hr). intros _.
      apply ctl_busy; [exact Hc|]. rewrite Hw. discriminate.
Qed.

Lemma ordered_init t : @Ordered TanaNode TanaNodeResponse options (init t).
Proof.
  split; [|unfold Ctl; cbn; auto].
  constructor; cbn; try (intros; contradiction); try constructor.
  intros i. unfold attempts. cbn. lia.
Qed.

Lemma ordered_run t (es : list (Event TanaNode TanaNodeResponse)) :
  Ordered options (run jsonLength options (init t) es).
Proof.
  apply (closed_run jsonLength options _ _ ordered_closed). apply ordered_init.
Qed.

End Order.

(** ** Retries and overtaking *)

Section Bounds.

Context {TanaNode TanaNodeResponse : Type}.
Variable jsonLength : TanaAPIRequest TanaNode -> Z.
Variable options : BatchingOptions.

Implicit Types w : World TanaNode TanaNodeResponse.
Implicit Types q : QueuedRequest TanaNode TanaNodeResponse.
Implicit Types es : list (Event TanaNode TanaNodeResponse).

Lemma sorted_nth {A : Type} (f : A -> Z) (l : list A) :
  StronglySorted Z.le (map f l) ->
  forall i j a b,
    (i < j)%nat -> nth_error l i = Some a -> nth_error l j = Some b ->
    f a <= f b.
Proof.
  induction l as [|x l IH]; intros Hs i j a b Hij Ha Hb.
  - destruct i; discriminate.
  - cbn in Hs. inversion Hs as [|? ? Hs' Hall]; subst.
    destruct j as [|j]; [lia|]. cbn in Hb. destruct i as [|i].
    + cbn in Ha. injection Ha as <-.
      rewrite Forall_map, Forall_forall in Hall. apply Hall.
      eapply nth_error_In. exact Hb.
    + cbn in Ha. apply (IH Hs' i j); [lia|assumption|assumption].
Qed.

(** C8. With a non-negative [maxRetries], no entry is handed to the
    executor more than [maxRetries + 1] times. An entry in flight is put
    back (after its backoff) as long as it has had at most [maxRetries]
    attempts, and when its attempt number [maxRetries + 1] fails, its
    promise is rejected with the error that wraps the failure and the
    entry is gone from the queue. *)
Theorem retry_bound t es :
  0 <= maxRetries options ->
  let w := run jsonLength options (init t) es in
  (forall i, attempts i (dispatched w) <= maxRetries options + 1) /\
  (forall q error,
      hung w = false -> worker w = InFlight q ->
      let w1 := step jsonLength options w (ExecutorReturns (Failure error)) in
      (attempts (id q) (dispatched w) <= maxRetries options ->
       exists t', worker w1 = BackingOff (withRetryCount q (retryCount q + 1)) t' /\
                  settled w1 = settled w) /\
      (attempts (id q) (dispatched w) = maxRetries options + 1 ->
       settled w1 =
         settled w ++
         [(logicalOf q, Rejected (RetriesExceeded (maxRetries options) error))] /\
       entries w1 = queue (self w) /\
       forall q', In q' (entries w1) -> id q < id q')).
Proof.
  intros Hmax. cbn zeta.
  destruct (ordered_run jsonLength options t es) as [Ho Hc].
  split.
  - intros i. pose proof (o_bound _ _ Ho i). lia.
  - intros q error Hh Hw. pose proof (o_count_worker _ _ Ho) as Hcw.
    rewrite Hw in Hcw. destruct Hcw as [Hcq Hrq]. split.
    + intros Hle.
      destruct (failure_retried jsonLength options _ q error Hh Hw) as (Hb & Hs & _);
        [lia|].
      eexists. split; eassumption.
    + intros Heq.
      destruct (failure_exhausted jsonLength options _ q error Hh Hw)
        as (Hs & _ & _ & He); [lia|].
      split; [exact Hs|]. split; [exact He|].
      intros q' Hq'. rewrite He in Hq'.
      pose proof (o_strict _ _ Ho) as Hst. unfold entries in Hst.
      rewrite Hw in Hst. cbn in Hst.
      inversion Hst as [|? ? _ Hall]; subst.
      rewrite Forall_map, Forall_forall in Hall. now apply Hall.
Qed.

(** C5, as the code has it. The executor is called in the order of the
    ids of the entries, which is the order in which the entries joined
    the pending list: once an entry has been sent, no entry that joined
    before it is sent again. A call for an older logical request that
    follows a call for a younger one is never a call for the request
    itself or for the first chunk of its split; it is a call for a later
    chunk, whose entry was created when the response to the chunk before
    it had arrived. *)
Theorem calls_follow_entry_order t es :
  let w := run jsonLength options (init t) es in
  forall i j earlier later,
    (i < j)%nat ->
    nth_error (dispatched w) i = Some earlier ->
    nth_error (dispatched w) j = Some later ->
    id (sent earlier) <= id (sent later) /\
    ((logicalOf (sent later) < logicalOf (sent earlier))%nat ->
     isFirstEntry (sent later) = false).
Proof.
  cbn zeta. intros i j a b Hij Ha Hb.
  destruct (ordered_run jsonLength options t es) as [Ho _].
  assert (Hle : id (sent a) <= id (sent b)).
  { apply (sorted_nth (fun d => id (sent d)) _ (o_log_sorted _ _ Ho) i j);
      assumption. }
  split; [exact Hle|].
  intros Hlog. destruct (isFirstEntry (sent b)) eqn:Hf; [exfalso|reflexivity].
  assert (Hlt : id (sent b) < id (sent a)).
  { apply (o_first _ _ Ho); try assumption; unfold known; rewrite in_app_iff; left;
      apply in_map; eapply nth_error_In; eassumption. }
  lia.
Qed.

End Bounds.

(** ** A split create from end to end *)

Section SplitRun.

Context {TanaNode TanaNodeResponse : Type}.
Variable jsonLength : TanaAPIRequest TanaNode -> Z.
Variable options : BatchingOptions.
Variable result : TanaNode -> TanaNodeResponse.
Variable executor : nat -> TanaAPIRequest TanaNode -> Outcome TanaNodeResponse.

Implicit Types w : World TanaNode TanaNodeResponse.
Implicit Types q e : QueuedRequest TanaNode TanaNodeResponse.
Implicit Types k : Continuation TanaNode TanaNodeResponse.

(** The executor creates every node of every create request. *)
Hypothesis executor_creates :
  forall n tgt nodes,
    executor n (CreateNodes tgt nodes) = Success (answer result nodes).

Lemma whileLoop_empty w :
  queue (self w) = [] ->
  whileLoop options w = withWorker (withSelf w (withProcessing (self w) false)) Idle.
Proof. intros H. unfold whileLoop. now rewrite H. Qed.

Lemma enqueueChunk_admitted k tgt (c : list TanaNode) w :
  totalNodeCount (self w) + Z.of_nat (length c) <= maxWorkspaceNodes options ->
  jsonLength (CreateNodes tgt c) <= maxPayloadSize options ->
  Z.of_nat (length c) <= maxNodesPerRequest options ->
  enqueueChunk jsonLength options k (CreateNodes tgt c) w =
  pushRequest options k (CreateNodes tgt c) w.
Proof.
  intros Hq Hp Hs. unfold enqueueChunk, enqueueVia. cbn [estimatedNewNodes].
  destruct (Z.gtb_spec (totalNodeCount (self w) + Z.of_nat (length c))
              (maxWorkspaceNodes options)); [lia|].
  destruct (Z.gtb_spec (jsonLength (CreateNodes tgt c)) (maxPayloadSize options)); [lia|].
  destruct (Z.gtb_spec (Z.of_nat (length c)) (maxNodesPerRequest options)); [lia|].
  reflexivity.
Qed.

(** An admitted chunk that is pushed while the worker is idle waits for
    the pacing delay or is sent at once. *)
Lemma pushed_chunk_waits f tgt (c : list TanaNode) rest done w :
  hung w = false -> worker w = Idle -> queue (self w) = [] ->
  processing (self w) = false ->
  Waiting f tgt c rest done (totalNodeCount (self w)) (settled w) (sentRequests w)
    (pushRequest options
       (Chunk {| logical := f; target := tgt; remaining := rest; allResponses := done |})
       (CreateNodes tgt c) w).
Proof.
  intros Hh Hw Hq Hp.
  assert (Hc : Ctl w) by (unfold Ctl; auto).
  match goal with
  | |- Waiting _ _ _ _ _ _ _ _ (pushRequest _ ?k ?r _) =>
      destruct (pushRequest_result options k r w Hc)
        as ([Hidle _] & _ & Hs & _ & Hh' & _ & Hcase);
      pose proof (pushRequest_totalNodeCount options k r w) as Ht;
      set (e := newEntry k r w) in *
  end.
  cbn zeta in *. constructor; [congruence|exact Ht|exact Hs|].
  exists e. split; [reflexivity|]. split; [reflexivity|].
  destruct Hcase as [(Hd & Hq' & Hwk)|(_ & _ & Hd & Hq' & Hwk)].
  - left. destruct Hwk as [Hwk|(t & _ & Hwk)].
    + exfalso. rewrite Hwk, Hw in Hidle. destruct (Hidle eq_refl) as [Hnil _].
      rewrite Hq', Hq in Hnil. discriminate.
    + exists t. rewrite Hq' , Hq. repeat split; try assumption.
      unfold sentRequests. now rewrite Hd.
  - right. repeat split; try assumption.
    unfold sentRequests. rewrite Hd, map_app. reflexivity.
Qed.

Lemma step_timer_pacing w t :
  hung w = false -> worker w = Pacing t ->
  step jsonLength options w TimerFires =
  shiftAndExecute (withNow w (Z.max (now w) t)).
Proof. intros Hh Hw. unfold step. now rewrite Hh, Hw. Qed.

Lemma step_success w q response :
  hung w = false -> worker w = InFlight q ->
  step jsonLength options w (ExecutorReturns (Success response)) =
  handleResponse jsonLength options q response w.
Proof. intros Hh Hw. unfold step. now rewrite Hh, Hw. Qed.

Lemma drain_stops n w :
  worker w = Idle -> drain jsonLength options executor n w = w.
Proof. intros H. destruct n; cbn; [reflexivity|]. unfold workerEvent. now rewrite H. Qed.

(** The worker after the answer to a create that was the only entry. *)
Lemma answered_alone q tgt nodes response w :
  worker w = InFlight q -> queue (self w) = [] ->
  request q = CreateNodes tgt nodes ->
  exists w3,
    handleResponse jsonLength options q response w =
    resolveWith jsonLength options (cont q) response w3 /\
    hung w3 = hung w /\ worker w3 = Idle /\ queue (self w3) = [] /\
    processing (self w3) = false /\ settled w3 = settled w /\
    sentRequests w3 = sentRequests w /\
    totalNodeCount (self w3) =
      totalNodeCount (self w) + Z.of_nat (length (childrenOf response)).
Proof.
  intros Hw Hq Hr. unfold handleResponse. eexists. split; [reflexivity|].
  rewrite whileLoop_empty.
  2:{ unfold updateNodeCount. destruct (isCreateNodesRequest _); exact Hq. }
  unfold updateNodeCount, childrenOf. rewrite Hr. cbn.
  rewrite Hq. repeat split. destruct (children response); reflexivity.
Qed.

(** From a waiting chunk to the settled promise. *)
Lemma split_runs (rest : list (list TanaNode)) :
  forall chunk done f tgt total log reqs w n,
    Waiting f tgt chunk rest done total log reqs w ->
    total + Z.of_nat (length (concat (chunk :: rest))) <= maxWorkspaceNodes options ->
    Forall (fun c => jsonLength (CreateNodes tgt c) <= maxPayloadSize options) rest ->
    smallChunks options rest ->
    (2 * S (length rest) <= n)%nat ->
    let w' := drain jsonLength options executor n w in
    hung w' = false /\ worker w' = Idle /\ queue (self w') = [] /\
    settled w' =
      log ++ [(f, Resolved (combineResponses (done ++ map (answer result) (chunk :: rest))))] /\
    totalNodeCount (self w') = total + Z.of_nat (length (concat (chunk :: rest))) /\
    sentRequests w' = reqs ++ map (CreateNodes tgt) (chunk :: rest).
Proof.
  induction rest as [|c rest IH];
    intros chunk done f tgt total log reqs w n Hwait Hquota Hpay Hsmall Hn.
  - (* the last chunk *)
    destruct Hwait as [Hh Ht Hs (e & Hreq & Hk & Hphase)].
    assert (Hflight : forall w1 m,
               hung w1 = false -> totalNodeCount (self w1) = total ->
               settled w1 = log ->
               worker w1 = InFlight e -> queue (self w1) = [] ->
               sentRequests w1 = reqs ++ [CreateNodes tgt chunk] ->
               (1 <= m)%nat ->
               let w' := drain jsonLength options executor m w1 in
               hung w' = false /\ worker w' = Idle /\ queue (self w') = [] /\
               settled w' =
                 log ++ [(f, Resolved (combineResponses
                                         (done ++ map (answer result) [chunk])))] /\
               totalNodeCount (self w') = total + Z.of_nat (length (concat [chunk])) /\
               sentRequests w' = reqs ++ map (CreateNodes tgt) [chunk]).
    { intros w1 m Hh1 Ht1 Hs1 Hw1 Hq1 Hd1 Hm. cbn zeta.
      destruct m as [|m]; [lia|]. cbn [drain]. unfold workerEvent. rewrite Hw1, Hreq.
      rewrite executor_creates, (step_success _ _ _ Hh1 Hw1).
      destruct (answered_alone e tgt chunk (answer result chunk) w1 Hw1 Hq1 Hreq)
        as (w3' & -> & Hh3 & Hw3 & Hq3 & Hp3 & Hs3 & Hd3 & Ht3).
      rewrite Hk.
      cbn [resolveWith nextChunk remaining logical allResponses].
rewrite drain_stops by exact Hw3.
      split; [exact (eq_trans Hh3 Hh1)|]. split; [exact Hw3|]. split; [exact Hq3|].
      split; [cbn [settled settle]; now rewrite Hs3, Hs1|].
      split.
      { cbn [settle self]. rewrite Ht3, Ht1. unfold childrenOf, answer. cbn.
        now rewrite length_map, app_nil_r. }
      exact (eq_trans Hd3 Hd1). }
    destruct Hphase as [(t & Hw & Hq & Hd)|(Hw & Hq & Hd)].
    + destruct n as [|n]; [cbn in Hn; lia|]. cbn [drain]. unfold workerEvent.
      rewrite Hw, (step_timer_pacing _ _ Hh Hw).
      unfold shiftAndExecute. cbn [self withNow]. rewrite Hq.
      apply Hflight; cbn; try assumption; try reflexivity.
      * unfold sentRequests in *. cbn. rewrite map_app, Hd. cbn. now rewrite Hreq.
      * cbn in Hn. lia.
    + apply Hflight; try assumption. cbn in Hn. lia.
  - (* a chunk with more to come *)
    destruct Hwait as [Hh Ht Hs (e & Hreq & Hk & Hphase)].
    apply Forall_cons_iff in Hpay as [Hpc Hpay'].
    apply Forall_cons_iff in Hsmall as [Hsc Hsmall'].
    assert (Hlen : Z.of_nat (length (concat (chunk :: c :: rest))) =
                   Z.of_nat (length chunk) + Z.of_nat (length (concat (c :: rest)))).
    { cbn [concat]. rewrite length_app. lia. }
    assert (Hlenc : Z.of_nat (length (concat (c :: rest))) =
                    Z.of_nat (length c) + Z.of_nat (length (concat rest))).
    { cbn [concat]. rewrite length_app. lia. }
    assert (Hflight : forall w1 m,
               hung w1 = false -> totalNodeCount (self w1) = total ->
               settled w1 = log ->
               worker w1 = InFlight e -> queue (self w1) = [] ->
               sentRequests w1 = reqs ++ [CreateNodes tgt chunk] ->
               (1 + 2 * S (length rest) <= m)%nat ->
               let w' := drain jsonLength options executor m w1 in
               hung w' = false /\ worker w' = Idle /\ queue (self w') = [] /\
               settled w' =
                 log ++ [(f, Resolved (combineResponses
                                         (done ++ map (answer result) (chunk :: c :: rest))))] /\
               totalNodeCount (self w') =
                 total + Z.of_nat (length (concat (chunk :: c :: rest))) /\
               sentRequests w' = reqs ++ map (CreateNodes tgt) (chunk :: c :: rest)).
    { intros w1 m Hh1 Ht1 Hs1 Hw1 Hq1 Hd1 Hm. cbn zeta.
      destruct m as [|m]; [lia|]. cbn [drain]. unfold workerEvent. rewrite Hw1, Hreq.
      rewrite executor_creates, (step_success _ _ _ Hh1 Hw1).
      destruct (answered_alone e tgt chunk (answer result chunk) w1 Hw1 Hq1 Hreq)
        as (w3' & -> & Hh3 & Hw3 & Hq3 & Hp3 & Hs3 & Hd3 & Ht3).
      rewrite Hk.
      assert (Ht3' : totalNodeCount (self w3') = total + Z.of_nat (length chunk)).
      { rewrite Ht3, Ht1. unfold childrenOf, answer. cbn. now rewrite length_map. }
      cbn [resolveWith nextChunk remaining logical allResponses target].
      rewrite enqueueChunk_admitted; [|lia|assumption|assumption].
      pose proof (pushed_chunk_waits f tgt c rest (done ++ [answer result chunk]) w3'
                    (eq_trans Hh3 Hh1) Hw3 Hq3 Hp3) as Hwait'.
      rewrite Ht3', Hs3, Hs1, Hd3, Hd1 in Hwait'.
      specialize (IH c (done ++ [answer result chunk]) f tgt _ _ _ _ m Hwait').
      cbn zeta in IH.
      destruct IH as (H1 & H2 & H3 & H4 & H5 & H6); [lia|assumption|assumption|lia|].
      repeat split; try assumption.
      - rewrite H4. cbn [map]. now rewrite <- app_assoc.
      - rewrite H5. lia.
      - rewrite H6. cbn [map]. now rewrite <- app_assoc. }
    destruct Hphase as [(t & Hw & Hq & Hd)|(Hw & Hq & Hd)].
    + destruct n as [|n]; [cbn in Hn; lia|]. cbn [drain]. unfold workerEvent.
      rewrite Hw, (step_timer_pacing _ _ Hh Hw).
      unfold shiftAndExecute. cbn [self withNow]. rewrite Hq.
      apply Hflight; cbn; try assumption; try reflexivity.
      * unfold sentRequests in *. cbn. rewrite map_app, Hd. cbn. now rewrite Hreq.
      * cbn in Hn. lia.
    + apply Hflight; try assumption. cbn in Hn. lia.
Qed.

(** [enqueue] of an oversized create on an idle queue: the entry of the
    first chunk is created, and nothing else. *)
Lemma oversized_enqueued w tgt (nodes : list TanaNode) c rest :
  hung w = false -> worker w = Idle -> queue (self w) = [] ->
  processing (self w) = false ->
  maxNodesPerRequest options < Z.of_nat (length nodes) ->
  chunkNodes nodes (maxNodesPerRequest options) = Some (c :: rest) ->
  totalNodeCount (self w) + Z.of_nat (length nodes) <= maxWorkspaceNodes options ->
  jsonLength (CreateNodes tgt nodes) <= maxPayloadSize options ->
  jsonLength (CreateNodes tgt c) <= maxPayloadSize options ->
  Z.of_nat (length c) <= Z.of_nat (length nodes) ->
  Z.of_nat (length c) <= maxNodesPerRequest options ->
  Waiting (nextFuture w) tgt c rest [] (totalNodeCount (self w)) (settled w)
    (sentRequests w) (step jsonLength options w (CallEnqueue (CreateNodes tgt nodes))).
Proof.
  intros Hh Hw Hq Hp Hbig Hchunks Hquota Hpay Hpayc Hlen Hsmall.
  unfold step. rewrite Hh.
  unfold enqueue, enqueueVia. cbn [estimatedNewNodes].
  change (totalNodeCount (self (bump w))) with (totalNodeCount (self w)).
  destruct (Z.gtb_spec (totalNodeCount (self w) + Z.of_nat (length nodes))
              (maxWorkspaceNodes options)); [lia|].
  destruct (Z.gtb_spec (jsonLength (CreateNodes tgt nodes)) (maxPayloadSize options));
    [lia|].
  destruct (Z.gtb_spec (Z.of_nat (length nodes)) (maxNodesPerRequest options)); [|lia].
  unfold handleLargeCreateRequest. rewrite Hchunks.
  cbn [nextChunk remaining logical target allResponses logicalFuture].
  rewrite enqueueChunk_admitted; [|cbn; lia|assumption|assumption].
  apply (pushed_chunk_waits (nextFuture w) tgt c rest [] (bump w)); assumption.
Qed.

(** A split create on an idle queue, from [enqueue] to the settled
    promise. *)
Lemma split_create_runs w tgt (nodes : list TanaNode) chunks n :
  hung w = false -> worker w = Idle -> queue (self w) = [] ->
  processing (self w) = false ->
  0 < maxNodesPerRequest options ->
  maxNodesPerRequest options < Z.of_nat (length nodes) ->
  chunkNodes nodes (maxNodesPerRequest options) = Some chunks ->
  totalNodeCount (self w) + Z.of_nat (length nodes) <= maxWorkspaceNodes options ->
  jsonLength (CreateNodes tgt nodes) <= maxPayloadSize options ->
  Forall (fun c => jsonLength (CreateNodes tgt c) <= maxPayloadSize options) chunks ->
  (2 * length chunks <= n)%nat ->
  let w' := drain jsonLength options executor n
              (step jsonLength options w (CallEnqueue (CreateNodes tgt nodes))) in
  hung w' = false /\ worker w' = Idle /\ queue (self w') = [] /\
  settled w' = settled w ++ [(nextFuture w, Resolved (answer result nodes))] /\
  totalNodeCount (self w') = totalNodeCount (self w) + Z.of_nat (length nodes) /\
  sentRequests w' = sentRequests w ++ map (CreateNodes tgt) chunks.
Proof.
  intros Hh Hw Hq Hp Hpos Hbig Hchunks Hquota Hpay Hpays Hn. cbn zeta.
  destruct (chunk_and_combine nodes (maxNodesPerRequest options) result Hpos)
    as (chunks' & Hc' & Hconcat & Hsizes & _ & Hcombine).
  rewrite Hchunks in Hc'. injection Hc' as <-.
  destruct chunks as [|c rest].
  { cbn in Hconcat. subst nodes. cbn in Hbig. lia. }
  apply Forall_cons_iff in Hpays as [Hpayc Hpays].
  apply Forall_cons_iff in Hsizes as [Hsc Hsizes].
  assert (Hlen : length nodes = length (concat (c :: rest))) by now rewrite Hconcat.
  assert (Hlenc : (length c <= length nodes)%nat).
  { rewrite Hlen. cbn [concat]. rewrite length_app. lia. }
  pose proof (oversized_enqueued w tgt nodes c rest Hh Hw Hq Hp Hbig Hchunks Hquota
                Hpay Hpayc ltac:(lia) ltac:(lia)) as Hwait.
  destruct (split_runs rest c [] (nextFuture w) tgt _ _ _ _ n Hwait)
    as (H1 & H2 & H3 & H4 & H5 & H6).
  - rewrite <- Hlen. exact Hquota.
  - exact Hpays.
  - unfold smallChunks. eapply Forall_impl; [|exact Hsizes]. cbn beta. intros a Ha. lia.
  - cbn [length] in Hn. lia.
  - cbn zeta in *. repeat split; try assumption.
    + rewrite H4. cbn [app]. now rewrite Hcombine.
    + rewrite H5, Hlen. reflexivity.
Qed.

End SplitRun.

(** C7. With a positive [maxNodesPerRequest], the node list of an
    oversized create is cut from left to right into consecutive non-empty
    chunks of at most [maxNodesPerRequest] nodes, every chunk but the last
    of exactly that size; [combineResponses] of the responses to the
    chunks, in the order of the chunks, is the response one unsplit call
    would have brought; and on an idle queue whose admission checks the
    request and its chunks pass, with an executor that creates every node
    it is given, the chunks are sent one by one in that order and the
    caller's promise is resolved with exactly that response. *)
Theorem split_combine_identity
    {N R : Type} (jsonLength : TanaAPIRequest N -> Z) (options : BatchingOptions)
    (result : N -> R) (tgt : option string) (nodes : list N) :
  0 < maxNodesPerRequest options ->
  maxNodesPerRequest options < Z.of_nat (length nodes) ->
  exists chunks,
    chunkNodes nodes (maxNodesPerRequest options) = Some chunks /\
    concat chunks = nodes /\
    Forall (fun ch => 0 < Z.of_nat (length ch) <= maxNodesPerRequest options) chunks /\
    (forall k, (S k < length chunks)%nat ->
               Z.of_nat (length (nth k chunks [])) = maxNodesPerRequest options) /\
    combineResponses (map (answer result) chunks) = answer result nodes /\
    forall (executor : nat -> TanaAPIRequest N -> Outcome R) (w : World N R) (n : nat),
      (forall m t ns, executor m (CreateNodes t ns) = Success (answer result ns)) ->
      hung w = false -> worker w = Idle -> queue (self w) = [] ->
      processing (self w) = false ->
      totalNodeCount (self w) + Z.of_nat (length nodes) <= maxWorkspaceNodes options ->
      jsonLength (CreateNodes tgt nodes) <= maxPayloadSize options ->
      Forall (fun c => jsonLength (CreateNodes tgt c) <= maxPayloadSize options) chunks ->
      (2 * length chunks <= n)%nat ->
      let w' := drain jsonLength options executor n
                  (step jsonLength options w (CallEnqueue (CreateNodes tgt nodes))) in
      worker w' = Idle /\
      settled w' = settled w ++ [(nextFuture w, Resolved (answer result nodes))] /\
      totalNodeCount (self w') = totalNodeCount (self w) + Z.of_nat (length nodes) /\
      sentRequests w' = sentRequests w ++ map (CreateNodes tgt) chunks.
Proof.
  intros Hpos Hbig.
  destruct (chunk_and_combine nodes (maxNodesPerRequest options) result Hpos)
    as (chunks & Hc & Hconcat & Hsizes & Hfull & Hcombine).
  exists chunks. repeat (split; [assumption|]).
  intros executor w n Hex Hh Hw Hq Hp Hquota Hpay Hpays Hn.
  destruct (split_create_runs jsonLength options result executor Hex w tgt nodes chunks n
              Hh Hw Hq Hp Hpos Hbig Hc Hquota Hpay Hpays Hn)
    as (_ & H2 & _ & H4 & H5 & H6).
  cbn zeta in *. auto.
Qed.

(** ** Pacing *)

Section Pace.

Context {TanaNode TanaNodeResponse : Type}.
Variable jsonLength : TanaAPIRequest TanaNode -> Z.
Variable options : BatchingOptions.

Implicit Types w : World TanaNode TanaNodeResponse.
Implicit Types q : QueuedRequest TanaNode TanaNodeResponse.
Implicit Types k : Continuation TanaNode TanaNodeResponse.
Implicit Types es : list (Event TanaNode TanaNodeResponse).

Lemma move_refl w : Move options w w.
Proof.
  repeat split; auto. exists []. split; [now rewrite app_nil_r|constructor].
Qed.

Lemma move_trans w1 w2 w3 :
  Move options w1 w2 -> Move options w2 w3 -> Move options w1 w3.
Proof.
  intros (Hn & Hl & Ht & a & Ha & Hfa) (Hn' & Hl' & Ht' & b & Hb & Hfb).
  repeat split; try congruence; auto.
  exists (a ++ b). split; [rewrite Hb, Ha; now rewrite app_assoc|].
  apply Forall_app. split; [exact Hfa|].
  eapply Forall_impl; [|exact Hfb]. cbn beta. intros d [H1 H2].
  rewrite <- Hn, <- Hl. auto.
Qed.

(** A change that leaves the clock, [lastRequestTime], the worker and the
    calls alone. *)
Lemma move_same w w' :
  now w' = now w -> lastRequestTime (self w') = lastRequestTime (self w) ->
  worker w' = worker w -> dispatched w' = dispatched w ->
  Move options w w'.
Proof.
  intros Hn Hl Hw Hd. repeat split; auto.
  - unfold Timed. now rewrite Hw, Hl, Hn.
  - exists []. split; [now rewrite app_nil_r|constructor].
Qed.

Lemma timed_shiftAndExecute w :
  lastRequestTime (self w) + 1000 / rateLimit options <= now w ->
  Timed options (shiftAndExecute w).
Proof.
  intros H. unfold shiftAndExecute, Timed.
  destruct (queue (self w)); cbn; [exact I|exact H].
Qed.

Lemma move_shiftAndExecute w :
  lastRequestTime (self w) + 1000 / rateLimit options <= now w ->
  Move options w (shiftAndExecute w).
Proof.
  intros H. split; [|split; [|split]].
  - apply shiftAndExecute_frame.
  - apply shiftAndExecute_frame.
  - intros _. now apply timed_shiftAndExecute.
  - unfold shiftAndExecute. destruct (queue (self w)) as [|q rest]; cbn.
    + exists []. split; [now rewrite app_nil_r|constructor].
    + eexists. split; [reflexivity|]. constructor; [|constructor]. cbn. auto.
Qed.

(** The top of the worker's loop establishes [Timed] whatever the worker
    did before. *)
Lemma timed_whileLoop w : Timed options (whileLoop options w).
Proof.
  unfold whileLoop.
  destruct (queue (self w)) as [|q rest] eqn:E; [exact I|].
  destruct (Z.ltb_spec (now w - lastRequestTime (self w)) (1000 / rateLimit options)).
  - unfold Timed. cbn. lia.
  - apply timed_shiftAndExecute. lia.
Qed.

Lemma move_whileLoop w : Move options w (whileLoop options w).
Proof.
  assert (Ht := timed_whileLoop w).
  unfold whileLoop in *.
  destruct (queue (self w)) as [|q rest] eqn:E.
  - repeat split; auto. exists []. split; [now rewrite app_nil_r|constructor].
  - destruct (Z.ltb_spec (now w - lastRequestTime (self w)) (1000 / rateLimit options)).
    + repeat split; auto. exists []. split; [now rewrite app_nil_r|constructor].
    + apply move_shiftAndExecute. lia.
Qed.

Lemma move_settle f s w : Move options w (settle f s w).
Proof. now apply move_same. Qed.

Lemma move_hang w : Move options w (hang w).
Proof. now apply move_same. Qed.

Lemma move_pushRequest k r w : Move options w (pushRequest options k r w).
Proof.
  unfold pushRequest, processQueue.
  match goal with |- context [if ?c then _ else _] => destruct c end.
  - now apply move_same.
  - eapply move_trans; [|apply move_whileLoop]. now apply move_same.
Qed.

Lemma move_enqueueVia large k r w :
  (forall k' tgt nodes w', Move options w' (large k' tgt nodes w')) ->
  Move options w (enqueueVia jsonLength options large k r w).
Proof.
  intros Hlarge. unfold enqueueVia, rejectWith.
  repeat match goal with
         | |- context [if ?c then _ else _] => destruct c
         | |- context [match ?x with CreateNodes _ _ => _ | SetName _ _ => _ end] =>
             destruct x
         end;
    auto using move_settle, move_pushRequest.
Qed.

Lemma move_enqueueChunk k r w : Move options w (enqueueChunk jsonLength options k r w).
Proof. apply move_enqueueVia. intros. apply move_hang. Qed.

Lemma move_nextChunk fr w : Move options w (nextChunk jsonLength options fr w).
Proof.
  unfold nextChunk. destruct (remaining fr);
    [apply move_settle|apply move_enqueueChunk].
Qed.

Lemma move_enqueue k r w : Move options w (enqueue jsonLength options k r w).
Proof.
  apply move_enqueueVia. intros k' tgt nodes w'. unfold handleLargeCreateRequest.
  destruct (chunkNodes _ _); [apply move_nextChunk|apply move_hang].
Qed.

Lemma move_resolveWith k response w :
  Move options w (resolveWith jsonLength options k response w).
Proof.
  unfold resolveWith. destruct k; [apply move_settle|apply move_nextChunk].
Qed.

(** One event: the worker keeps to the interval, the clock does not go
    back, [lastRequestTime] stays or becomes the time of the clock, and
    every call added is made [minInterval] after [lastRequestTime] or
    later. *)
Lemma paced_step w e :
  Timed options w ->
  let w' := step jsonLength options w e in
  Timed options w' /\
  now w <= now w' /\
  (lastRequestTime (self w') = lastRequestTime (self w) \/
   lastRequestTime (self w') = now w') /\
  exists added,
    dispatched w' = dispatched w ++ added /\
    Forall (fun d => lastRequestTime (self w') + 1000 / rateLimit options <= at_ d) added.
Proof.
  intros Ht. cbn zeta.
  assert (Hnone : forall w' : World TanaNode TanaNodeResponse,
             dispatched w' = dispatched w ->
             exists added,
               dispatched w' = dispatched w ++ added /\
               Forall (fun d => lastRequestTime (self w') + 1000 / rateLimit options
                                <= at_ d) added).
  { intros w' H. exists []. split; [now rewrite app_nil_r|constructor]. }
  assert (Hmove : forall w0 w',
             Move options w0 w' -> dispatched w0 = dispatched w ->
             exists added,
               dispatched w' = dispatched w ++ added /\
               Forall (fun d => lastRequestTime (self w') + 1000 / rateLimit options
                                <= at_ d) added).
  { intros w0 w' (Hn & Hl & _ & a & Ha & Hfa) Hd. exists a. split; [congruence|].
    eapply Forall_impl; [|exact Hfa]. cbn beta. intros d [H1 H2]. rewrite Hl. lia. }
  assert (Hquiet : forall w' : World TanaNode TanaNodeResponse,
             Timed options w' -> now w' = now w ->
             lastRequestTime (self w') = lastRequestTime (self w) ->
             dispatched w' = dispatched w ->
             Timed options w' /\
             now w <= now w' /\
             (lastRequestTime (self w') = lastRequestTime (self w) \/
              lastRequestTime (self w') = now w') /\
             exists added,
               dispatched w' = dispatched w ++ added /\
               Forall (fun d => lastRequestTime (self w') + 1000 / rateLimit options
                                <= at_ d) added).
  { intros w' H1 H2 H3 H4. repeat split; auto; try lia. }
  unfold step. destruct (hung w) eqn:Hh.
  { now apply Hquiet. }
  destruct e as [r|c| |ms| |o].
  - (* enqueue *)
    pose proof (move_enqueue (Caller (nextFuture w)) r (bump w)) as Hm.
    pose proof Hm as (Hn & Hl & Ht' & _).
    repeat split.
    + apply Ht'. exact Ht.
    + rewrite Hn. cbn. lia.
    + left. rewrite Hl. reflexivity.
    + eapply Hmove; [exact Hm|reflexivity].
  - now apply Hquiet.
  - now apply Hquiet.
  - (* time passes *)
    repeat split; auto.
    + unfold Timed in *. cbn. destruct (worker w); auto. lia.
    + cbn. lia.
  - (* a timer fires *)
    destruct (worker w) as [|t|q|q t] eqn:Hw.
    + now apply Hquiet.
    + unfold Timed in Ht. rewrite Hw in Ht.
      set (w0 := withNow w (Z.max (now w) t)).
      assert (Hle : lastRequestTime (self w0) + 1000 / rateLimit options <= now w0).
      { cbn. lia. }
      pose proof (move_shiftAndExecute w0 Hle) as Hm.
      pose proof Hm as (Hn & Hl & _ & _).
      repeat split.
      * now apply timed_shiftAndExecute.
      * rewrite Hn. cbn. lia.
      * left. rewrite Hl. reflexivity.
      * eapply Hmove; [exact Hm|reflexivity].
    + now apply Hquiet.
    + set (w0 := unshift q (withNow w (Z.max (now w) t))).
      pose proof (move_whileLoop w0) as Hm.
      pose proof Hm as (Hn & Hl & _ & _).
      repeat split.
      * apply timed_whileLoop.
      * rewrite Hn. cbn. lia.
      * left. rewrite Hl. reflexivity.
      * eapply Hmove; [exact Hm|reflexivity].
  - (* the executor returns *)
    destruct (worker w) as [|t|q|q t] eqn:Hw; try (now apply Hquiet).
    destruct o as [response|error].
    + unfold handleResponse.
      set (w1 := withSelf w (updateNodeCount (request q) response (self w))).
      set (w2 := withSelf w1 (withLastRequestTime (self w1) (now w1))).
      pose proof (move_trans _ _ _ (move_whileLoop w2)
                    (move_resolveWith (cont q) response (whileLoop options w2))) as Hm.
      pose proof Hm as (Hn & Hl & _ & _).
      pose proof (move_resolveWith (cont q) response (whileLoop options w2))
        as (_ & _ & Ht2 & _).
      repeat split.
      * apply Ht2. apply timed_whileLoop.
      * rewrite Hn. cbn. lia.
      * right. rewrite Hl, Hn. reflexivity.
      * eapply Hmove; [exact Hm|reflexivity].
    + unfold handleRequestError.
      match goal with |- context [if ?c then _ else _] => destruct c end.
      * now apply Hquiet.
      * set (w0 := rejectWith _ _ w).
        pose proof (move_whileLoop w0) as Hm.
        pose proof Hm as (Hn & Hl & _ & _).
        repeat split.
        -- apply timed_whileLoop.
        -- rewrite Hn. cbn. lia.
        -- left. rewrite Hl. reflexivity.
        -- eapply Hmove; [exact Hm|reflexivity].
Qed.

Lemma timed_init t : @Timed TanaNode TanaNodeResponse options (init t).
Proof. exact I. Qed.

Lemma timed_run t es : Timed options (run jsonLength options (init t) es).
Proof.
  apply run_invariant; [|apply timed_init].
  intros w e H. now apply paced_step.
Qed.

(** After [lastRequestTime] has reached [since], no call is made before
    [since + minInterval]. *)
Lemma paced_run since es :
  forall w,
    Timed options w ->
    since <= lastRequestTime (self w) -> lastRequestTime (self w) <= now w ->
    exists later,
      dispatched (run jsonLength options w es) = dispatched w ++ later /\
      Forall (fun d => since + 1000 / rateLimit options <= at_ d) later.
Proof.
  induction es as [|e es IH]; intros w Ht Hs Hn.
  - exists []. split; [cbn; now rewrite app_nil_r|constructor].
  - cbn [run fold_left].
    destruct (paced_step w e Ht) as (Ht' & Hclock & Hlast & a & Ha & Hfa).
    cbn zeta in *.
    destruct (IH (step jsonLength options w e) Ht') as (b & Hb & Hfb).
    + destruct Hlast as [-> | ->]; lia.
    + destruct Hlast as [-> | ->]; lia.
    + exists (a ++ b). split.
      * unfold run in Hb. rewrite Hb, Ha. now rewrite app_assoc.
      * apply Forall_app. split; [|exact Hfb].
        eapply Forall_impl; [|exact Hfa]. cbn beta. intros d Hd.
        destruct Hlast as [Hl | Hl]; rewrite Hl in Hd; lia.
Qed.

(** X1. For a positive [rateLimit] that divides 1000, so that
    [1000 / rateLimit] is the interval the code computes: whenever a
    request is in flight, it was handed to the executor at least
    [1000 / rateLimit] milliseconds after [lastRequestTime], the time the
    last response came in (0 on a new queue); and a sleep of the worker
    for pacing ends exactly [1000 / rateLimit] milliseconds after
    [lastRequestTime]. *)
Theorem sends_wait_for_min_interval t es :
  0 < rateLimit options ->
  (rateLimit options | 1000) ->
  let w := run jsonLength options (init t) es in
  (forall q, worker w = InFlight q ->
             lastRequestTime (self w) + 1000 / rateLimit options <= now w) /\
  (forall wakeAt, worker w = Pacing wakeAt ->
                  wakeAt = lastRequestTime (self w) + 1000 / rateLimit options).
Proof.
  intros _ _. cbn zeta. pose proof (timed_run t es) as H. unfold Timed in H.
  split; intros x Hx; now rewrite Hx in H.
Qed.

(** X2. After the executor has answered a request at time [now w], no
    request is handed to the executor before [now w + 1000 / rateLimit],
    whatever happens next: enqueues, failures, retries, further answers. *)
Theorem no_send_soon_after_response w q response es :
  hung w = false ->
  worker w = InFlight q ->
  let w1 := step jsonLength options w (ExecutorReturns (Success response)) in
  exists later,
    dispatched (run jsonLength options w1 es) = dispatched w ++ later /\
    Forall (fun d => now w + 1000 / rateLimit options <= at_ d) later.
Proof.
  intros Hh Hw. cbn zeta.
  rewrite (step_success jsonLength options w q response Hh Hw).
  unfold handleResponse.
  set (w1 := withSelf w (updateNodeCount (request q) response (self w))).
  set (w2 := withSelf w1 (withLastRequestTime (self w1) (now w1))).
  pose proof (move_resolveWith (cont q) response (whileLoop options w2)) as Hr.
  pose proof (move_trans _ _ _ (move_whileLoop w2) Hr) as (Hn & Hl & _ & a & Ha & Hfa).
  destruct Hr as (_ & _ & Ht & _).
  specialize (Ht (timed_whileLoop w2)).
  set (w3 := resolveWith jsonLength options (cont q) response (whileLoop options w2)) in *.
  assert (Hn3 : now w3 = now w) by (rewrite Hn; reflexivity).
  assert (Hl3 : lastRequestTime (self w3) = now w) by (rewrite Hl; reflexivity).
  destruct (paced_run (now w) es w3 Ht) as (b & Hb & Hfb); [lia|lia|].
  exists (a ++ b). split.
  - rewrite Hb, Ha. cbn. now rewrite app_assoc.
  - apply Forall_app. split; [|exact Hfb].
    eapply Forall_impl; [|exact Hfa]. cbn beta. intros d [H1 H2].
    cbn in H1, H2. lia.
Qed.

End Pace.

(** ** One request at a time *)

Section Busy.

Context {TanaNode TanaNodeResponse : Type}.
Variable jsonLength : TanaAPIRequest TanaNode -> Z.
Variable options : BatchingOptions.

Implicit Types w : World TanaNode TanaNodeResponse.
Implicit Types q : QueuedRequest TanaNode TanaNodeResponse.
Implicit Types k : Continuation TanaNode TanaNodeResponse.
Implicit Types es : list (Event TanaNode TanaNodeResponse).

Lemma waits_same w w' :
  worker w' = worker w -> dispatched w' = dispatched w ->
  queue (self w') = queue (self w) -> Waits w w'.
Proof.
  intros H1 H2 H3. repeat split; auto. exists []. now rewrite app_nil_r.
Qed.

Lemma busy_push k r w :
  Ctl w -> worker w <> Idle -> Waits w (pushRequest options k r w).
Proof.
  intros Hc Hb.
  destruct (pushRequest_result options k r w Hc)
    as (_ & _ & _ & _ & _ & _ & [(Hd & Hq & Hw) | (Hi & _)]); [|contradiction].
  cbn zeta in *. repeat split; auto.
  - destruct Hw as [Hw | (t & Hi & _)]; [exact Hw|contradiction].
  - eexists. exact Hq.
Qed.

Lemma busy_enqueueChunk k r w :
  Ctl w -> worker w <> Idle -> Waits w (enqueueChunk jsonLength options k r w).
Proof.
  intros Hc Hb.
  destruct (enqueueChunk_cases jsonLength options k r w)
    as [(err & ->) | [-> | (-> & _)]].
  - now apply waits_same.
  - now apply busy_push.
  - now apply waits_same.
Qed.

Lemma busy_nextChunk fr w :
  Ctl w -> worker w <> Idle -> Waits w (nextChunk jsonLength options fr w).
Proof.
  intros Hc Hb.
  destruct (nextChunk_cases jsonLength options fr w)
    as [(_ & ->) | (chunk & rest & _ & ->)].
  - now apply waits_same.
  - now apply busy_enqueueChunk.
Qed.

Lemma busy_enqueue k r w :
  Ctl w -> worker w <> Idle -> Waits w (enqueue jsonLength options k r w).
Proof.
  intros Hc Hb.
  destruct (enqueue_cases jsonLength options k r w)
    as [(err & ->) | [-> | [(tgt & nodes & _ & _ & ->) | (tgt & nodes & chunks & _ & _ & ->)]]].
  - now apply waits_same.
  - now apply busy_push.
  - now apply waits_same.
  - now apply busy_nextChunk.
Qed.

(** While the worker is busy, what callers do and the passing of time
    leave the worker alone. *)
Lemma busy_step w e :
  Ctl w -> worker w <> Idle -> isWorkerEvent e = false ->
  Waits w (step jsonLength options w e).
Proof.
  intros Hc Hb He. unfold step. destruct (hung w); [now apply waits_same|].
  destruct e as [r|c| |ms| |o]; try discriminate; try (now apply waits_same).
  pose proof (busy_enqueue (Caller (nextFuture w)) r (bump w) Hc Hb) as H.
  exact H.
Qed.

Lemma reachable_ctl w : reachable jsonLength options w -> Ctl w.
Proof. intros H. apply (sound_reachable jsonLength options w H). Qed.

(** X3. Between two events, [getStatus()] reports [processing: false]
    exactly when the worker is not suspended anywhere, and then the list
    of pending requests is empty; the numbers it reports are never
    negative. *)
Theorem idle_status_has_empty_queue t es :
  let w := run jsonLength options (init t) es in
  let status := getStatus (self w) in
  (Status.processing status = false <-> worker w = Idle) /\
  (Status.processing status = false -> Status.queueLength status = 0) /\
  0 <= Status.queueLength status /\
  0 <= Status.totalNodeCount status.
Proof.
  cbn zeta. cbn [getStatus Status.processing Status.queueLength Status.totalNodeCount].
  assert (Hr : reachable jsonLength options (run jsonLength options (init t) es))
    by (exists t, es; reflexivity).
  destruct (reachable_ctl _ Hr) as [H1 H2].
  repeat split.
  - exact H2.
  - intros H. now apply H1.
  - intros H. destruct (H1 (H2 H)) as [-> _]. reflexivity.
  - lia.
  - apply run_invariant; [|cbn; lia].
    intros w e. apply step_totalNodeCount_nonneg.
Qed.

(** X4. The tracked node count changes in three places only: a caller
    seeds it, a caller resets it, or the executor answers a create, which
    adds the number of children of the response. Admission, splitting,
    pacing, failures, retries and renames leave it as it is. *)
Theorem count_changes_only_by_seed_or_created_nodes
    (w : World TanaNode TanaNodeResponse) (e : Event TanaNode TanaNodeResponse) :
  let w' := step jsonLength options w e in
  totalNodeCount (self w') = totalNodeCount (self w) \/
  (exists c, e = CallSetNodeCount c /\ totalNodeCount (self w') = Z.max 0 c) \/
  (e = CallResetNodeCount /\ totalNodeCount (self w') = 0) \/
  (exists q response,
      e = ExecutorReturns (Success response) /\ worker w = InFlight q /\
      isCreateNodesRequest (request q) = true /\
      totalNodeCount (self w') =
      totalNodeCount (self w) + Z.of_nat (length (childrenOf response))).
Proof.
  cbn zeta. unfold step. destruct (hung w); [now left|].
  destruct e as [r|c| |ms| |o].
  - left. exact (enqueue_totalNodeCount jsonLength options _ r (bump w)).
  - right. left. exists c. split; reflexivity.
  - right. right. left. split; reflexivity.
  - left. reflexivity.
  - left. destruct (worker w) as [|t|q|q t]; try reflexivity.
    + exact (shiftAndExecute_totalNodeCount (withNow w (Z.max (now w) t))).
    + exact (whileLoop_totalNodeCount options (unshift q (withNow w (Z.max (now w) t)))).
  - destruct (worker w) as [|t|q|q t] eqn:Hw; try (left; reflexivity).
    destruct o as [response|error].
    + rewrite handleResponse_totalNodeCount. unfold updateNodeCount.
      destruct (isCreateNodesRequest (request q)) eqn:Hc; [|left; reflexivity].
      right. right. right. exists q, response. repeat split; auto.
      unfold childrenOf. cbn. destruct (children response); cbn; lia.
    + left. apply handleRequestError_totalNodeCount.
Qed.

(** X5. While the worker is suspended, in a send, in a pacing sleep or
    in a backoff sleep, nothing a caller does and no passing of time makes
    the queue send: the worker stays where it is, the executor is not
    called, and the pending list grows at its end at most. *)
Theorem busy_worker_sends_nothing w e :
  reachable jsonLength options w ->
  worker w <> Idle ->
  isWorkerEvent e = false ->
  let w' := step jsonLength options w e in
  worker w' = worker w /\
  dispatched w' = dispatched w /\
  exists added, queue (self w') = queue (self w) ++ added.
Proof.
  intros Hr Hb He. apply busy_step; auto. now apply reachable_ctl.
Qed.

(** Enqueues during a pacing sleep leave the head of the pending list
    where it is. *)
Lemma pacing_keeps_head q rest t' (rs : list (TanaAPIRequest TanaNode)) :
  forall w,
    reachable jsonLength options w ->
    worker w = Pacing t' ->
    (exists added, queue (self w) = (q :: rest) ++ added) ->
    let w2 := run jsonLength options w (map CallEnqueue rs) in
    hung w2 = false ->
    worker w2 = Pacing t' /\ dispatched w2 = dispatched w /\
    exists added, queue (self w2) = (q :: rest) ++ added.
Proof.
  induction rs as [|r rs IH]; intros w Hr Hw (a & Ha); cbn zeta.
  - intros _. cbn. repeat split; auto. now exists a.
  - change (run jsonLength options w (map CallEnqueue (r :: rs)))
      with (run jsonLength options (step jsonLength options w (CallEnqueue r))
              (map CallEnqueue rs)).
    assert (Hb : worker w <> Idle) by (rewrite Hw; discriminate).
    destruct (busy_step w (CallEnqueue r) (reachable_ctl w Hr) Hb eq_refl)
      as (Hw1 & Hd1 & b & Hb1).
    intros Hh.
    destruct (IH (step jsonLength options w (CallEnqueue r))) as (H1 & H2 & H3).
    + now apply reachable_step.
    + now rewrite Hw1.
    + exists (a ++ b). rewrite Hb1, Ha. now rewrite app_assoc.
    + exact Hh.
    + repeat split; auto. now rewrite H2.
Qed.

(** X6. When the backoff sleep of a failed request ends, that request
    is the next one handed to the executor: at once, or, when the pacing
    interval has not passed yet, after the pacing sleep, whatever has been
    enqueued in the meantime. *)
Theorem retried_request_is_sent_next w q t :
  reachable jsonLength options w ->
  hung w = false ->
  worker w = BackingOff q t ->
  let w1 := step jsonLength options w TimerFires in
  (worker w1 = InFlight q /\
   dispatched w1 = dispatched w ++ [{| at_ := now w1; sent := q |}]) \/
  (exists t',
      worker w1 = Pacing t' /\ dispatched w1 = dispatched w /\
      forall rs : list (TanaAPIRequest TanaNode),
        let w2 := run jsonLength options w1 (map CallEnqueue rs) in
        hung w2 = false ->
        let w3 := step jsonLength options w2 TimerFires in
        worker w3 = InFlight q /\
        dispatched w3 = dispatched w ++ [{| at_ := now w3; sent := q |}]).
Proof.
  intros Hr Hh Hw. cbn zeta.
  pose proof (reachable_step jsonLength options w TimerFires Hr) as Hr1.
  rewrite (step_timer_backoff jsonLength options w q t Hh Hw) in *.
  set (w0 := unshift q (withNow w (Z.max (now w) t))) in *.
  assert (Hq0 : queue (self w0) = q :: queue (self w)) by reflexivity.
  unfold whileLoop in *. rewrite Hq0 in *.
  destruct (now w0 - lastRequestTime (self w0) <? 1000 / rateLimit options).
  - right. eexists. split; [reflexivity|]. split; [reflexivity|].
    intros rs. cbn zeta. intros Hh2.
    match type of Hr1 with reachable _ _ ?x => set (w1 := x) in * end.
    destruct (pacing_keeps_head q (queue (self w)) _ rs w1 Hr1 eq_refl) as (H1 & H2 & a & H3).
    + exists []. now rewrite app_nil_r.
    + exact Hh2.
    + rewrite (step_timer_pacing jsonLength options _ _ Hh2 H1).
      unfold shiftAndExecute. cbn [self withNow queue]. rewrite H3. cbn.
      split; [reflexivity|]. rewrite H2. reflexivity.
  - left. unfold shiftAndExecute. rewrite Hq0. cbn. split; reflexivity.
Qed.

End Busy.

(** ** What reaches the executor *)

Section Limits.

Context {TanaNode TanaNodeResponse : Type}.
Variable jsonLength : TanaAPIRequest TanaNode -> Z.
Variable options : BatchingOptions.

Implicit Types w : World TanaNode TanaNodeResponse.
Implicit Types q : QueuedRequest TanaNode TanaNodeResponse.
Implicit Types k : Continuation TanaNode TanaNodeResponse.
Implicit Types es : list (Event TanaNode TanaNodeResponse).
Implicit Types P : TanaAPIRequest TanaNode -> Prop.

Lemma allKnown_incl P w w' :
  incl (known w') (known w) -> AllKnown P w -> AllKnown P w'.
Proof. intros Hi H q Hq. apply H, Hi, Hq. Qed.

Lemma loop_known w w' : LoopResult w w' -> incl (known w') (known w).
Proof.
  intros [E|t q rest E|q rest E] x; unfold known, entries; cbn;
    rewrite ?E, ?map_app, ?in_app_iff; cbn; intuition auto.
Qed.

Lemma pushRequest_settled k r w :
  settled (pushRequest options k r w) = settled w.
Proof.
  unfold pushRequest, processQueue.
  match goal with |- context [if ?c then _ else _] => destruct c end;
    [reflexivity|].
  match goal with |- context [whileLoop options ?x] =>
    destruct (whileLoop_frame options x) as (-> & _) end.
  reflexivity.
Qed.

Lemma allKnown_push P k r w :
  AllKnown P w -> P r -> AllKnown P (pushRequest options k r w).
Proof.
  intros H Hr.
  assert (Hp : AllKnown P (pushed k r w)).
  { intros q. unfold known, entries, pushed. cbn.
    rewrite !in_app_iff. intros [Hq | [Hq | [Hq | Hq]]].
    - apply H. unfold known. rewrite in_app_iff. auto.
    - apply H. unfold known, entries. rewrite !in_app_iff. auto.
    - apply H. unfold known, entries. rewrite !in_app_iff. auto.
    - destruct Hq as [<- | []]. exact Hr. }
  change (pushRequest options k r w) with (processQueue options (pushed k r w)).
  unfold processQueue.
  match goal with |- context [if ?c then _ else _] => destruct c end;
    [exact Hp|].
  eapply allKnown_incl; [apply loop_known, whileLoop_result|].
  exact Hp.
Qed.

Lemma allKnown_same P w w' :
  dispatched w' = dispatched w -> worker w' = worker w ->
  queue (self w') = queue (self w) -> AllKnown P w -> AllKnown P w'.
Proof.
  intros H1 H2 H3. apply allKnown_incl. unfold known, entries.
  rewrite H1, H2, H3. apply incl_refl.
Qed.

Lemma fits_enqueueVia large k r w :
  (forall k' tgt nodes w',
      AllKnown (fits jsonLength options) w' ->
      AllKnown (fits jsonLength options) (large k' tgt nodes w')) ->
  AllKnown (fits jsonLength options) w ->
  AllKnown (fits jsonLength options) (enqueueVia jsonLength options large k r w).
Proof.
  intros Hlarge H. unfold enqueueVia, rejectWith.
  destruct (_ >? maxWorkspaceNodes options);
    [revert H; now apply allKnown_same|].
  destruct (Z.gtb_spec (jsonLength r) (maxPayloadSize options)) as [Hp|Hp];
    [revert H; now apply allKnown_same|].
  destruct r as [tgt nodes|tgt name].
  - destruct (Z.gtb_spec (Z.of_nat (length nodes)) (maxNodesPerRequest options));
      [now apply Hlarge|].
    apply allKnown_push; [exact H|]. split; [lia|]. lia.
  - apply allKnown_push; [exact H|]. split; [lia|exact I].
Qed.

Lemma fits_enqueueChunk k r w :
  AllKnown (fits jsonLength options) w ->
  AllKnown (fits jsonLength options) (enqueueChunk jsonLength options k r w).
Proof.
  apply fits_enqueueVia. intros k' tgt nodes w'. now apply allKnown_same.
Qed.

Lemma fits_nextChunk fr w :
  AllKnown (fits jsonLength options) w ->
  AllKnown (fits jsonLength options) (nextChunk jsonLength options fr w).
Proof.
  unfold nextChunk. destruct (remaining fr);
    [now apply allKnown_same|apply fits_enqueueChunk].
Qed.

Lemma fits_enqueue k r w :
  AllKnown (fits jsonLength options) w ->
  AllKnown (fits jsonLength options) (enqueue jsonLength options k r w).
Proof.
  apply fits_enqueueVia. intros k' tgt nodes w' H. unfold handleLargeCreateRequest.
  destruct (chunkNodes _ _); [now apply fits_nextChunk|revert H; now apply allKnown_same].
Qed.

Lemma fits_resolveWith k response w :
  AllKnown (fits jsonLength options) w ->
  AllKnown (fits jsonLength options) (resolveWith jsonLength options k response w).
Proof.
  unfold resolveWith. destruct k; [now apply allKnown_same|apply fits_nextChunk].
Qed.

Lemma fits_step w e :
  AllKnown (fits jsonLength options) w ->
  AllKnown (fits jsonLength options) (step jsonLength options w e).
Proof.
  intros H. unfold step. destruct (hung w); [exact H|].
  destruct e as [r|c| |ms| |o]; try exact H.
  - apply fits_enqueue. exact H.
  - destruct (worker w) as [|t|q|q t] eqn:Hw; try exact H.
    + eapply allKnown_incl; [apply loop_known, shiftAndExecute_result|].
      revert H. now apply allKnown_same.
    + eapply allKnown_incl; [apply loop_known, whileLoop_result|].
      revert H. apply allKnown_incl. unfold known, entries. cbn. rewrite Hw. cbn.
      intros x. rewrite !in_app_iff. cbn. intuition auto.
  - destruct (worker w) as [|t|q|q t] eqn:Hw; try exact H.
    destruct o as [response|error].
    + unfold handleResponse. apply fits_resolveWith.
      eapply allKnown_incl; [apply loop_known, whileLoop_result|].
      revert H. apply allKnown_same; try reflexivity.
      cbn. unfold updateNodeCount. destruct (isCreateNodesRequest _); reflexivity.
    + unfold handleRequestError.
      match goal with |- context [if ?c then _ else _] => destruct c end.
      * intros x. unfold known, entries. cbn. rewrite !in_app_iff. cbn.
        intros [Hx | [<- | Hx]].
        -- apply H. unfold known. rewrite in_app_iff. auto.
        -- cbn. apply H. unfold known, entries. rewrite Hw, !in_app_iff. cbn. auto.
        -- apply H. unfold known, entries. rewrite !in_app_iff. auto.
      * eapply allKnown_incl; [apply loop_known, whileLoop_result|].
        revert H. apply allKnown_incl. unfold known, entries, rejectWith. cbn.
        rewrite Hw. cbn. intros x. rewrite !in_app_iff. cbn. intuition auto.
Qed.

(** X7. Every request the queue hands to the executor, and every request
    that waits in the queue, has passed the checks of [enqueue]: its
    serialized length is at most [maxPayloadSize], and a create carries at
    most [maxNodesPerRequest] nodes. This holds for the chunks of a split
    create as for requests enqueued from outside. *)
Theorem queued_and_sent_requests_fit_the_limits t es :
  let w := run jsonLength options (init t) es in
  Forall (fun d => fits jsonLength options (request (sent d))) (dispatched w) /\
  Forall (fun q => fits jsonLength options (request q)) (entries w).
Proof.
  cbn zeta.
  assert (H : AllKnown (fits jsonLength options) (run jsonLength options (init t) es)).
  { apply run_invariant; [apply fits_step|]. intros q []. }
  split; apply Forall_forall; intros x Hx; apply H; unfold known;
    rewrite in_app_iff; [left|right; exact Hx].
  now apply in_map.
Qed.

End Limits.

(** ** A queue without an executor *)

Section Unset.

Context {TanaNode TanaNodeResponse : Type}.
Variable jsonLength : TanaAPIRequest TanaNode -> Z.
Variable options : BatchingOptions.

Implicit Types w : World TanaNode TanaNodeResponse.
Implicit Types q : QueuedRequest TanaNode TanaNodeResponse.
Implicit Types k : Continuation TanaNode TanaNodeResponse.
Implicit Types es : list (Event TanaNode TanaNodeResponse).

Hypothesis chunk_size_nonneg : 0 <= maxNodesPerRequest options.

Lemma ns_same w w' : settled w' = settled w -> NothingSent options w -> NothingSent options w'.
Proof. unfold NothingSent. now intros ->. Qed.

Lemma ns_reject k err w :
  rejectedUnsent (R := TanaNodeResponse) options (Rejected err) ->
  NothingSent options w -> NothingSent options (rejectWith k err w).
Proof.
  intros He H. unfold NothingSent, rejectWith. cbn.
  apply Forall_app. split; [exact H|]. constructor; [exact He|constructor].
Qed.

Lemma ns_push k r w :
  NothingSent options w -> NothingSent options (pushRequest options k r w).
Proof. apply ns_same, pushRequest_settled. Qed.

Lemma ns_loop w : NothingSent options w -> NothingSent options (whileLoop options w).
Proof. apply ns_same. apply whileLoop_frame. Qed.

Lemma ns_enqueueVia large k r w :
  (forall k' tgt nodes w',
      maxNodesPerRequest options < Z.of_nat (length nodes) ->
      NothingSent options w' -> NothingSent options (large k' tgt nodes w')) ->
  NothingSent options w ->
  NothingSent options (enqueueVia jsonLength options large k r w).
Proof.
  intros Hlarge H. unfold enqueueVia.
  destruct (_ >? maxWorkspaceNodes options); [now apply ns_reject|].
  destruct (_ >? maxPayloadSize options); [now apply ns_reject|].
  destruct r as [tgt nodes|tgt name]; [|now apply ns_push].
  destruct (Z.gtb_spec (Z.of_nat (length nodes)) (maxNodesPerRequest options));
    [now apply Hlarge|now apply ns_push].
Qed.

Lemma ns_enqueueChunk k r w :
  NothingSent options w -> NothingSent options (enqueueChunk jsonLength options k r w).
Proof. apply ns_enqueueVia. intros k' tgt nodes w' _. now apply ns_same. Qed.

(** An oversized list of nodes has at least one chunk. *)
Lemma chunks_of_oversized (nodes : list TanaNode) chunks :
  maxNodesPerRequest options < Z.of_nat (length nodes) ->
  chunkNodes nodes (maxNodesPerRequest options) = Some chunks ->
  chunks <> [].
Proof.
  intros Hbig Hc.
  destruct nodes as [|x nodes]; [cbn in Hbig; lia|].
  destruct (Z.eq_dec (maxNodesPerRequest options) 0) as [H0|H0].
  - assert (Hd : chunkNodes (x :: nodes) (maxNodesPerRequest options) = None).
    { apply chunkNodes_diverges_iff. split; [discriminate|lia]. }
    congruence.
  - rewrite chunkNodes_chunksOf in Hc by lia. injection Hc as <-. discriminate.
Qed.

Lemma ns_enqueue k r w :
  NothingSent options w -> NothingSent options (enqueue jsonLength options k r w).
Proof.
  apply ns_enqueueVia. intros k' tgt nodes w' Hbig H.
  unfold handleLargeCreateRequest.
  destruct (chunkNodes nodes (maxNodesPerRequest options)) as [chunks|] eqn:Hc;
    [|revert H; now apply ns_same].
  pose proof (chunks_of_oversized nodes chunks Hbig Hc) as Hne.
  destruct chunks as [|c rest]; [congruence|].
  cbn [nextChunk remaining]. now apply ns_enqueueChunk.
Qed.

Lemma ns_step w e :
  fromDefaultExecutor e -> NothingSent options w ->
  NothingSent options (step jsonLength options w e).
Proof.
  intros He H. unfold step. destruct (hung w); [exact H|].
  destruct e as [r|c| |ms| |o]; try exact H.
  - apply ns_enqueue. exact H.
  - destruct (worker w) as [|t|q|q t]; try exact H.
    + revert H. apply ns_same.
      exact (proj1 (shiftAndExecute_frame (withNow w (Z.max (now w) t)))).
    + apply ns_loop. exact H.
  - destruct (worker w) as [|t|q|q t]; try exact H.
    cbn in He. subst o. unfold handleRequestError.
    match goal with |- context [if ?c then _ else _] => destruct c end;
      [exact H|].
    apply ns_loop. apply ns_reject; [|exact H]. cbn. auto.
Qed.

Lemma ns_run es :
  forall w, Forall fromDefaultExecutor es -> NothingSent options w ->
            NothingSent options (run jsonLength options w es).
Proof.
  induction es as [|e es IH]; intros w Hes H; [exact H|].
  apply Forall_cons_iff in Hes as [He Hes].
  cbn [run fold_left]. apply IH; [exact Hes|]. now apply ns_step.
Qed.

Lemma ns_drain n :
  forall w, NothingSent options w ->
            NothingSent options (drain jsonLength options executeRequest n w).
Proof.
  induction n as [|n IH]; intros w H; cbn [drain]; [exact H|].
  destruct (workerEvent executeRequest w) as [e|] eqn:He; [|exact H].
  apply IH. apply ns_step; [|exact H].
  unfold workerEvent in He. destruct (worker w); try discriminate;
    injection He as <-; cbn; reflexivity.
Qed.

(** X8. A queue whose executor was never set, so that every call of
    [executeRequest] throws, rejects every promise it hands out: once the
    worker has come to rest, each promise is rejected, at admission or
    when the retries are used up, then with the error that names
    [maxRetries] and carries the message of [executeRequest]; none is
    resolved. ([maxNodesPerRequest] is not negative.) *)
Theorem unset_executor_rejects_every_request t es :
  Forall fromDefaultExecutor es ->
  let w := run jsonLength options (init t) es in
  hung w = false ->
  let w' := drain jsonLength options executeRequest (measure options w) w in
  worker w' = Idle /\ queue (self w') = [] /\
  forall f, (f < nextFuture w)%nat ->
            exists s, In (f, s) (settled w') /\ rejectedUnsent options s.
Proof.
  intros Hes. cbn zeta. intros Hh.
  set (w := run jsonLength options (init t) es) in *.
  assert (Hr : reachable jsonLength options w) by (exists t, es; reflexivity).
  assert (Hns : NothingSent options w).
  { apply ns_run; [exact Hes|]. constructor. }
  destruct (drain_idle jsonLength options executeRequest (measure options w) w Hr Hh
              (Nat.le_refl _)) as (Hr' & Hh' & Hn' & Hw').
  cbn zeta in *.
  set (w' := drain jsonLength options executeRequest (measure options w) w) in *.
  destruct (sound_reachable jsonLength options w' Hr') as ((_ & _ & Hall) & _ & (Hc & _)).
  destruct (Hc Hw') as [Hq _].
  repeat split; auto.
  intros f Hf. specialize (Hall Hh' f). rewrite Hn' in Hall. specialize (Hall Hf).
  cbn [app] in Hall. unfold owed, entries in Hall. rewrite Hw', Hq in Hall.
  cbn in Hall. rewrite app_nil_r in Hall.
  apply in_map_iff in Hall as ([f' s] & Hfs & Hin). cbn in Hfs. subst f'.
  exists s. split; [exact Hin|].
  pose proof (ns_drain (measure options w) w Hns) as Hd. fold w' in Hd.
  unfold NothingSent in Hd. rewrite Forall_forall in Hd.
  exact (Hd _ Hin).
Qed.

End Unset.

(** ** Chunking and combining, the edge cases *)

Section Edges.

Context {TanaNode TanaNodeResponse : Type}.
Variable jsonLength : TanaAPIRequest TanaNode -> Z.
Variable options : BatchingOptions.

Implicit Types w : World TanaNode TanaNodeResponse.

(** X9. The loop of [chunkNodes] runs forever, whatever the number of
    turns it is given, exactly when there are nodes to chunk and the chunk
    size is zero or negative; in every other case [chunkNodes] returns,
    and for an empty list it returns no chunk at all. *)
Theorem chunk_loop_never_ends_iff (nodes : list TanaNode) (chunkSize : Z) :
  ((forall fuel, chunkLoop fuel nodes chunkSize 0 [] = None) <->
   nodes <> [] /\ chunkSize <= 0) /\
  (chunkNodes nodes chunkSize <> None <-> nodes = [] \/ 0 < chunkSize) /\
  chunkNodes (@nil TanaNode) chunkSize = Some [].
Proof.
  split; [|split].
  - split.
    + intros H. apply chunkNodes_diverges_iff. apply H.
    + intros [Hne Hc] fuel. apply chunkLoop_stuck; [exact Hc|].
      destruct nodes; [congruence|cbn; lia].
  - rewrite chunkNodes_diverges_iff. split.
    + intros H. destruct nodes as [|x l]; [now left|right].
      destruct (Z.lt_ge_cases 0 chunkSize) as [Hc|Hc]; [exact Hc|].
      exfalso. apply H. split; [discriminate|lia].
    + intros [-> | Hc] [Hne Hle]; [congruence|lia].
  - reflexivity.
Qed.

(** X10. With [maxNodesPerRequest] zero or negative, [enqueue] of a
    create with at least one node that passes the two admission checks
    never returns: the promise it was to hand out is never settled, no
    entry is created and nothing is sent. *)
Theorem nonpositive_chunk_size_hangs_enqueue w tgt (nodes : list TanaNode) :
  maxNodesPerRequest options <= 0 ->
  nodes <> [] ->
  hung w = false ->
  totalNodeCount (self w) + Z.of_nat (length nodes) <= maxWorkspaceNodes options ->
  jsonLength (CreateNodes tgt nodes) <= maxPayloadSize options ->
  let w' := step jsonLength options w (CallEnqueue (CreateNodes tgt nodes)) in
  hung w' = true /\
  settled w' = settled w /\ entries w' = entries w /\ dispatched w' = dispatched w /\
  forall es, run jsonLength options w' es = w'.
Proof.
  intros Hc Hne Hh Hq Hp. cbn zeta.
  assert (Hw' : step jsonLength options w (CallEnqueue (CreateNodes tgt nodes)) =
                hang (bump w)).
  { unfold step. rewrite Hh. unfold enqueue, enqueueVia. cbn [estimatedNewNodes].
    change (totalNodeCount (self (bump w))) with (totalNodeCount (self w)).
    destruct (Z.gtb_spec (totalNodeCount (self w) + Z.of_nat (length nodes))
                (maxWorkspaceNodes options)); [lia|].
    destruct (Z.gtb_spec (jsonLength (CreateNodes tgt nodes)) (maxPayloadSize options));
      [lia|].
    destruct (Z.gtb_spec (Z.of_nat (length nodes)) (maxNodesPerRequest options)).
    2:{ destruct nodes; [congruence|cbn in *; lia]. }
    unfold handleLargeCreateRequest.
    assert (Hd : chunkNodes nodes (maxNodesPerRequest options) = None).
    { apply chunkNodes_diverges_iff. auto. }
    now rewrite Hd. }
  rewrite Hw'. repeat split.
  intros es. induction es as [|e es IH]; [reflexivity|].
  cbn [run fold_left]. rewrite step_hung by reflexivity. exact IH.
Qed.

(** X11. [combineResponses] concatenates: the combined response always
    has a list of children, that of no response is empty, that of two
    lists of responses put together is the children of the first followed
    by the children of the second, and a response without children adds
    nothing wherever it stands. *)
Theorem combineResponses_concatenates
    (rs1 rs2 : list (TanaAPIResponse TanaNodeResponse)) :
  children (combineResponses (rs1 ++ rs2)) =
    Some (childrenOf (combineResponses rs1) ++ childrenOf (combineResponses rs2)) /\
  children (combineResponses (@nil (TanaAPIResponse TanaNodeResponse))) = Some [] /\
  (forall r : TanaAPIResponse TanaNodeResponse,
      children (combineResponses [r]) = Some (childrenOf r)) /\
  (forall r : TanaAPIResponse TanaNodeResponse,
      children r = None ->
             combineResponses (rs1 ++ r :: rs2) = combineResponses (rs1 ++ rs2)).
Proof.
  rewrite !combineResponses_flat_map. unfold childrenOf at 1 2. cbn [children].
  split; [now rewrite flat_map_app|]. split; [reflexivity|]. split.
  - intros r. rewrite combineResponses_flat_map. cbn. now rewrite app_nil_r.
  - intros r Hr. rewrite !combineResponses_flat_map, !flat_map_app. cbn [flat_map].
    unfold childrenOf at 2. now rewrite Hr.
Qed.

End Edges.

(** The number of chunks: the quotient of the length by the chunk size,
    rounded up. *)
Lemma chunksOf_length {T : Type} (fuel size : nat) :
  forall l : list T,
    (length l <= fuel)%nat -> (0 < size)%nat ->
    length (chunksOf fuel size l) = ((length l + size - 1) / size)%nat.
Proof.
  induction fuel as [|fuel IH]; intros l Hl Hs.
  - destruct l; [|cbn in Hl; lia]. cbn. symmetry. apply Nat.div_small. lia.
  - destruct l as [|x l].
    + cbn. symmetry. apply Nat.div_small. lia.
    + cbn [chunksOf]. cbn [length] in *.
      rewrite IH; [|rewrite length_skipn; cbn [length]; lia|exact Hs].
      rewrite length_skipn. cbn [length].
      destruct (Nat.le_gt_cases (S (length l)) size) as [Hle|Hgt].
      * replace (S (length l) - size)%nat with O by lia.
        rewrite (Nat.div_small (0 + size - 1) size) by lia.
        apply (Nat.div_unique _ _ 1 (length l)); lia.
      * replace (S (length l) + size - 1)%nat
          with ((S (length l) - size + size - 1) + 1 * size)%nat by lia.
        rewrite Nat.div_add by lia. lia.
Qed.

(** X12. For a positive chunk size, [chunkNodes] cuts a list of [n]
    nodes into [n / chunkSize] chunks, rounded up; so a create the size
    limit forces to be split is sent as that many requests. *)
Theorem chunk_count_is_rounded_up_quotient
    {T : Type} (nodes : list T) (chunkSize : Z) :
  0 < chunkSize ->
  exists chunks,
    chunkNodes nodes chunkSize = Some chunks /\
    Z.of_nat (length chunks) = (Z.of_nat (length nodes) + chunkSize - 1) / chunkSize.
Proof.
  intros Hc. eexists. split; [now apply chunkNodes_chunksOf|].
  rewrite chunksOf_length by lia.
  rewrite Nat2Z.inj_div.
  replace (Z.of_nat (length nodes + Z.to_nat chunkSize - 1))
    with (Z.of_nat (length nodes) + chunkSize - 1) by lia.
  now rewrite Z2Nat.id by lia.
Qed.

(** ** One request from [enqueue] to its promise, and the client *)

Section RoundTrip.

Context {TanaNode TanaNodeResponse : Type}.
Variable jsonLength : TanaAPIRequest TanaNode -> Z.
Variable options : BatchingOptions.
Variable executor : nat -> TanaAPIRequest TanaNode -> Outcome TanaNodeResponse.

Implicit Types w : World TanaNode TanaNodeResponse.
Implicit Types q e : QueuedRequest TanaNode TanaNodeResponse.
Implicit Types k : Continuation TanaNode TanaNodeResponse.

Lemma enqueue_admitted k r w :
  totalNodeCount (self w) + estimatedNewNodes r <= maxWorkspaceNodes options ->
  fits jsonLength options r ->
  enqueue jsonLength options k r w = pushRequest options k r w.
Proof.
  intros Hq [Hp Hs]. unfold enqueue, enqueueVia.
  destruct (Z.gtb_spec (totalNodeCount (self w) + estimatedNewNodes r)
              (maxWorkspaceNodes options)); [lia|].
  destruct (Z.gtb_spec (jsonLength r) (maxPayloadSize options)); [lia|].
  destruct r as [tgt nodes|tgt name]; [|reflexivity].
  destruct (Z.gtb_spec (Z.of_nat (length nodes)) (maxNodesPerRequest options)); [lia|].
  reflexivity.
Qed.

(** A request pushed while the worker is idle waits for the pacing delay
    or is sent at once. *)
Lemma pushed_alone f r w :
  hung w = false -> worker w = Idle -> queue (self w) = [] ->
  processing (self w) = false ->
  let w1 := pushRequest options (Caller f) r w in
  hung w1 = false /\ settled w1 = settled w /\
  totalNodeCount (self w1) = totalNodeCount (self w) /\
  exists e,
    request e = r /\ cont e = Caller f /\
    ((exists t, worker w1 = Pacing t /\ queue (self w1) = [e] /\
                sentRequests w1 = sentRequests w) \/
     (worker w1 = InFlight e /\ queue (self w1) = [] /\
      sentRequests w1 = sentRequests w ++ [r])).
Proof.
  intros Hh Hw Hq Hp. cbn zeta.
  assert (Hc : Ctl w) by (unfold Ctl; auto).
  destruct (pushRequest_result options (Caller f) r w Hc)
    as ([Hidle _] & _ & Hs & _ & Hh' & _ & Hcase).
  pose proof (pushRequest_totalNodeCount options (Caller f) r w) as Ht.
  set (e := newEntry (Caller f) r w) in *.
  cbn zeta in *. split; [congruence|]. split; [exact Hs|]. split; [exact Ht|].
  exists e. split; [reflexivity|]. split; [reflexivity|].
  destruct Hcase as [(Hd & Hq' & Hwk)|(_ & _ & Hd & Hq' & Hwk)].
  - left. destruct Hwk as [Hwk|(t & _ & Hwk)].
    + exfalso. rewrite Hwk, Hw in Hidle. destruct (Hidle eq_refl) as [Hnil _].
      rewrite Hq', Hq in Hnil. discriminate.
    + exists t. rewrite Hq', Hq. repeat split; try assumption.
      unfold sentRequests. now rewrite Hd.
  - right. repeat split; try assumption.
    unfold sentRequests. rewrite Hd, map_app. reflexivity.
Qed.

Lemma drain_idle_stops n w :
  worker w = Idle -> drain jsonLength options executor n w = w.
Proof. intros H. destruct n; cbn; [reflexivity|]. unfold workerEvent. now rewrite H. Qed.

(** The answer to a request that is the only entry. *)
Lemma answered w e f r response n :
  hung w = false -> worker w = InFlight e -> queue (self w) = [] ->
  request e = r -> cont e = Caller f ->
  (forall m, executor m r = Success response) ->
  (1 <= n)%nat ->
  let w' := drain jsonLength options executor n w in
  hung w' = false /\ worker w' = Idle /\ queue (self w') = [] /\
  settled w' = settled w ++ [(f, Resolved response)] /\
  sentRequests w' = sentRequests w /\
  totalNodeCount (self w') = totalNodeCount (updateNodeCount r response (self w)) /\
  lastRequestTime (self w') = now w /\ now w' = now w.
Proof.
  intros Hh Hw Hq Hr Hk Hex Hn. cbn zeta.
  destruct n as [|n]; [lia|]. cbn [drain]. unfold workerEvent. rewrite Hw, Hr, Hex.
  rewrite (step_success jsonLength options w e response Hh Hw).
  unfold handleResponse. rewrite Hk, Hr.
  set (w1 := withSelf w (updateNodeCount r response (self w))).
  set (w2 := withSelf w1 (withLastRequestTime (self w1) (now w1))).
  assert (Hq2 : queue (self w2) = []).
  { cbn. unfold updateNodeCount. destruct (isCreateNodesRequest r); exact Hq. }
  rewrite (whileLoop_empty options w2 Hq2).
  cbn [resolveWith]. rewrite drain_idle_stops by reflexivity.
  cbn. repeat split; auto.
Qed.

(** An admitted request that is not split, on an idle queue. *)
Lemma round_trip w r response n :
  hung w = false -> worker w = Idle -> queue (self w) = [] ->
  processing (self w) = false ->
  totalNodeCount (self w) + estimatedNewNodes r <= maxWorkspaceNodes options ->
  fits jsonLength options r ->
  (forall m, executor m r = Success response) ->
  (2 <= n)%nat ->
  let w' := drain jsonLength options executor n
              (step jsonLength options w (CallEnqueue r)) in
  hung w' = false /\ worker w' = Idle /\ queue (self w') = [] /\
  settled w' = settled w ++ [(nextFuture w, Resolved response)] /\
  sentRequests w' = sentRequests w ++ [r] /\
  totalNodeCount (self w') = totalNodeCount (updateNodeCount r response (self w)) /\
  lastRequestTime (self w') = now w' /\ now w <= now w'.
Proof.
  intros Hh Hw Hq Hp Hquota Hfits Hex Hn. cbn zeta.
  unfold step. rewrite Hh.
  rewrite enqueue_admitted by assumption.
  destruct (pushed_alone (nextFuture w) r (bump w) Hh Hw Hq Hp)
    as (Hh1 & Hs1 & Ht1 & e & Hr & Hk & Hphase).
  cbn zeta in *.
  set (w1 := pushRequest options (Caller (nextFuture w)) r (bump w)) in *.
  assert (Hn1 : now w1 = now w).
  { unfold w1, pushRequest, processQueue.
    match goal with |- context [if ?c then _ else _] => destruct c end;
      [reflexivity|].
    match goal with |- context [whileLoop options ?x] =>
      destruct (whileLoop_frame options x) as (_ & _ & _ & -> & _) end.
    reflexivity. }
  assert (Hflight : forall w2 m,
             hung w2 = false -> worker w2 = InFlight e -> queue (self w2) = [] ->
             settled w2 = settled w -> sentRequests w2 = sentRequests w ++ [r] ->
             totalNodeCount (self w2) = totalNodeCount (self w) ->
             now w <= now w2 ->
             (1 <= m)%nat ->
             let w' := drain jsonLength options executor m w2 in
             hung w' = false /\ worker w' = Idle /\ queue (self w') = [] /\
             settled w' = settled w ++ [(nextFuture w, Resolved response)] /\
             sentRequests w' = sentRequests w ++ [r] /\
             totalNodeCount (self w') =
               totalNodeCount (updateNodeCount r response (self w)) /\
             lastRequestTime (self w') = now w' /\ now w <= now w').
  { intros w2 m Hh2 Hw2 Hq2 Hs2 Hd2 Ht2 Hn2 Hm. cbn zeta.
    destruct (answered w2 e (nextFuture w) r response m Hh2 Hw2 Hq2 Hr Hk Hex Hm)
      as (H1 & H2 & H3 & H4 & H5 & H6 & H7 & H8).
    cbn zeta in *. repeat split; auto; try congruence; try lia.
    rewrite H6. unfold updateNodeCount.
    destruct (isCreateNodesRequest r); cbn; [rewrite Ht2|]; congruence. }
  destruct Hphase as [(t & Hw1 & Hq1 & Hd1)|(Hw1 & Hq1 & Hd1)].
  - destruct n as [|n]; [lia|]. cbn [drain]. unfold workerEvent. rewrite Hw1.
    rewrite (step_timer_pacing jsonLength options w1 t Hh1 Hw1).
    unfold shiftAndExecute. cbn [self withNow]. rewrite Hq1.
    apply Hflight; cbn; try assumption; try reflexivity; try lia.
    unfold sentRequests in *. cbn. rewrite map_app, Hd1. cbn. now rewrite Hr.
  - apply Hflight; try assumption; lia.
Qed.

End RoundTrip.

(** X13. On an idle queue, a request that passes the checks of
    [enqueue] and is not split is handed to the executor once, as it is,
    and when the executor answers, the caller's promise is resolved with
    that very response; the node count has then grown by the children of
    the response when the request was a create, and [lastRequestTime] is
    the time of the answer. *)
Theorem single_request_round_trip
    {N R : Type} (jsonLength : TanaAPIRequest N -> Z) (options : BatchingOptions)
    (executor : nat -> TanaAPIRequest N -> Outcome R)
    (w : World N R) (r : TanaAPIRequest N) (response : TanaAPIResponse R) (n : nat) :
  hung w = false -> worker w = Idle -> queue (self w) = [] ->
  processing (self w) = false ->
  totalNodeCount (self w) + estimatedNewNodes r <= maxWorkspaceNodes options ->
  fits jsonLength options r ->
  (forall m, executor m r = Success response) ->
  (2 <= n)%nat ->
  let w' := drain jsonLength options executor n
              (step jsonLength options w (CallEnqueue r)) in
  worker w' = Idle /\ queue (self w') = [] /\
  settled w' = settled w ++ [(nextFuture w, Resolved response)] /\
  sentRequests w' = sentRequests w ++ [r] /\
  totalNodeCount (self w') =
    totalNodeCount (self w) +
    (if isCreateNodesRequest r then Z.of_nat (length (childrenOf response)) else 0) /\
  lastRequestTime (self w') = now w'.
Proof.
  intros Hh Hw Hq Hp Hquota Hfits Hex Hn. cbn zeta.
  destruct (round_trip jsonLength options executor w r response n
              Hh Hw Hq Hp Hquota Hfits Hex Hn)
    as (_ & H2 & H3 & H4 & H5 & H6 & H7 & _).
  cbn zeta in *. repeat split; auto.
  rewrite H6. unfold updateNodeCount, childrenOf.
  destruct (isCreateNodesRequest r); cbn; [|lia].
  destruct (children response); reflexivity.
Qed.

(** *** The client *)

Section ClientRun.

Context {TanaNode TanaNodeResponse : Type}.
Variable nodeId : TanaNodeResponse -> string.

Import TanaClient.

Lemma skipn_nth_error {T : Type} (l : list T) :
  forall i x, nth_error l i = Some x -> skipn i l = x :: skipn (S i) l.
Proof.
  induction l as [|y l IH]; intros [|i] x H; try discriminate.
  - injection H as ->. reflexivity.
  - cbn in H. cbn [skipn]. rewrite (IH i x H). reflexivity.
Qed.

Lemma nth_error_paired tgt (nodes : list TanaNode) (created : list TanaNodeResponse) :
  forall i,
    nth_error (paired nodeId tgt nodes created) i =
    match nth_error nodes i, nth_error created i with
    | Some node, Some c =>
        Some {| nodeData := node; targetNodeId := tgt; resultId := nodeId c |}
    | _, _ => None
    end.
Proof.
  unfold paired. revert created.
  induction nodes as [|n nodes IH]; intros [|c created] [|i]; cbn; try reflexivity.
  - destruct (nth_error nodes i); reflexivity.
  - apply IH.
Qed.

Lemma skipn_none {T : Type} (l : list T) i : nth_error l i = None -> skipn i l = [].
Proof. intros H. apply skipn_all2. now apply nth_error_None. Qed.

(** The loop stores a prefix of the pairs, and all of them when no call
    throws. *)
Lemma storeLoop_prefix throws tgt (nodes : list TanaNode)
    (created : list TanaNodeResponse) (fuel : nat) :
  forall i calls,
    exists n,
      storeLoop nodeId fuel throws nodes tgt created i calls =
      calls ++ firstn n (skipn i (paired nodeId tgt nodes created)) /\
      ((forall j, throws j = false) -> n = fuel).
Proof.
  induction fuel as [|fuel IH]; intros i calls.
  - exists O. cbn. split; [now rewrite app_nil_r|reflexivity].
  - cbn [storeLoop].
    pose proof (nth_error_paired tgt nodes created i) as Hp.
    destruct (nth_error nodes i) as [node|] eqn:Hn;
      [destruct (nth_error created i) as [c|] eqn:Hc|].
    + rewrite (skipn_nth_error _ _ _ Hp).
      destruct (throws i) eqn:Ht.
      * exists 1%nat. split; [reflexivity|]. intros H. rewrite H in Ht. discriminate.
      * destruct (IH (S i) (calls ++ [{| nodeData := node; targetNodeId := tgt;
                                         resultId := nodeId c |}]))
          as (n & -> & Hall).
        exists (S n). split; [cbn; now rewrite <- app_assoc|].
        intros H. now rewrite (Hall H).
    + rewrite (skipn_none _ _ Hp). exists (S fuel). rewrite firstn_nil, app_nil_r.
      split; reflexivity.
    + rewrite (skipn_none _ _ Hp). exists (S fuel). rewrite firstn_nil, app_nil_r.
      split; reflexivity.
Qed.

(** X14. [createNodes] hands the nodes to the mirror storage in order,
    each with the id of the result at the same position of the response,
    as far as both lists reach; when a call of [storeNode] throws, the
    calls made so far are a prefix of these pairs, and the list of results
    [createNodes] returns is the same either way. *)
Theorem mirror_pairs_nodes_with_results_by_position
    (throws : nat -> bool) (tgt : option string) (nodes : list TanaNode)
    (response : TanaAPIResponse TanaNodeResponse) :
  let outcome := createNodes nodeId throws tgt nodes (Resolved response) in
  let pairs := paired nodeId tgt nodes (childrenOf response) in
  fst outcome = inr (childrenOf response) /\
  (exists n, snd outcome = firstn n pairs) /\
  ((forall i, throws i = false) ->
   snd outcome = pairs /\
   length (snd outcome) = Nat.min (length nodes) (length (childrenOf response))).
Proof.
  cbn zeta. unfold createNodes. fold (childrenOf response). cbn [fst snd].
  destruct (storeLoop_prefix throws tgt nodes (childrenOf response) (length nodes) O [])
    as (n & Hn & Hall).
  cbn [app skipn] in Hn.
  split; [reflexivity|]. split; [exists n; exact Hn|].
  intros H. rewrite Hn, (Hall H).
  assert (Hlen : length (paired nodeId tgt nodes (childrenOf response)) =
                 Nat.min (length nodes) (length (childrenOf response))).
  { unfold paired. now rewrite length_map, length_combine. }
  rewrite firstn_all2 by lia. auto.
Qed.

Lemma paired_with_own_result (result : TanaNode -> TanaNodeResponse) tgt
    (nodes : list TanaNode) :
  paired nodeId tgt nodes (map result nodes) =
  map (fun node => {| nodeData := node; targetNodeId := tgt;
                      resultId := nodeId (result node) |}) nodes.
Proof.
  unfold paired. induction nodes as [|x nodes IH]; [reflexivity|].
  cbn. now rewrite IH.
Qed.

Variable jsonLength : TanaAPIRequest TanaNode -> Z.
Variable options : BatchingOptions.
Variable executor : nat -> TanaAPIRequest TanaNode -> Outcome TanaNodeResponse.

Implicit Types w : World TanaNode TanaNodeResponse.

(** X15. [createNodes] from end to end, the executor creating one
    result per node: on an idle queue, whether the list of nodes is sent
    as one request or split into chunks, the promise is resolved,
    [createNodes] returns the results in the order of the nodes, and the
    mirror storage is handed every node together with the id of its own
    result. *)
Theorem createNodes_returns_and_mirrors_every_node
    (result : TanaNode -> TanaNodeResponse) w tgt (nodes : list TanaNode) n :
  0 < maxNodesPerRequest options ->
  hung w = false -> worker w = Idle -> queue (self w) = [] ->
  processing (self w) = false ->
  totalNodeCount (self w) + Z.of_nat (length nodes) <= maxWorkspaceNodes options ->
  jsonLength (CreateNodes tgt nodes) <= maxPayloadSize options ->
  (forall chunks,
      chunkNodes nodes (maxNodesPerRequest options) = Some chunks ->
      Forall (fun c => jsonLength (CreateNodes tgt c) <= maxPayloadSize options) chunks) ->
  (forall m t ns, executor m (CreateNodes t ns) = Success (answer result ns)) ->
  (2 * S (length nodes) <= n)%nat ->
  let w' := drain jsonLength options executor n
              (step jsonLength options w (CallEnqueue (CreateNodes tgt nodes))) in
  exists s,
    settled w' = settled w ++ [(nextFuture w, s)] /\
    createNodes nodeId (fun _ => false) tgt nodes s =
      (inr (map result nodes),
       map (fun node => {| nodeData := node; targetNodeId := tgt;
                           resultId := nodeId (result node) |}) nodes) /\
    totalNodeCount (self w') = totalNodeCount (self w) + Z.of_nat (length nodes).
Proof.
  intros Hpos Hh Hw Hq Hp Hquota Hpay Hpays Hex Hn. cbn zeta.
  exists (Resolved (answer result nodes)).
  assert (Hclient :
            createNodes nodeId (fun _ => false) tgt nodes (Resolved (answer result nodes)) =
            (inr (map result nodes),
             map (fun node => {| nodeData := node; targetNodeId := tgt;
                                 resultId := nodeId (result node) |}) nodes)).
  { unfold createNodes, answer. cbn [children]. f_equal.
    destruct (storeLoop_prefix (fun _ => false) tgt nodes (map result nodes)
                (length nodes) O []) as (m & -> & Hall).
    rewrite (Hall (fun _ => eq_refl)). cbn [app skipn].
    rewrite paired_with_own_result. apply firstn_all2. now rewrite length_map. }
  destruct (Z.le_gt_cases (Z.of_nat (length nodes)) (maxNodesPerRequest options))
    as [Hsmall|Hbig].
  - destruct (round_trip jsonLength options executor w (CreateNodes tgt nodes)
                (answer result nodes) n Hh Hw Hq Hp)
      as (_ & _ & _ & H4 & _ & H6 & _); try assumption.
    + split; assumption.
    + intros m. apply Hex.
    + lia.
    + cbn zeta in *. split; [exact H4|]. split; [exact Hclient|].
      rewrite H6. unfold updateNodeCount, answer. cbn. now rewrite length_map.
  - pose proof (chunkNodes_chunksOf nodes (maxNodesPerRequest options) Hpos) as Hc.
    destruct (split_create_runs jsonLength options result executor Hex w tgt nodes _ n
                Hh Hw Hq Hp Hpos ltac:(lia) Hc Hquota Hpay (Hpays _ Hc))
      as (_ & _ & _ & H4 & H5 & _).
    + rewrite chunksOf_length by lia.
      assert (Hle : ((length nodes + Z.to_nat (maxNodesPerRequest options) - 1) /
                     Z.to_nat (maxNodesPerRequest options) < S (length nodes))%nat).
      { apply Nat.Div0.div_lt_upper_bound. nia. }
      lia.
    + cbn zeta in *. auto.
Qed.

(** X16. [createNode] from end to end: on an idle queue whose limit is
    at least one node per request, the node is sent as one request of one
    node; when the executor answers, the node count grows by the children
    of the response, and [createNode] returns the first child, or throws
    ['Failed to create node'] when the response has none, although the
    request was sent and answered. *)
Theorem createNode_returns_first_child_or_fails
    (throws : nat -> bool) w tgt (node : TanaNode)
    (response : TanaAPIResponse TanaNodeResponse) n :
  1 <= maxNodesPerRequest options ->
  hung w = false -> worker w = Idle -> queue (self w) = [] ->
  processing (self w) = false ->
  totalNodeCount (self w) + 1 <= maxWorkspaceNodes options ->
  jsonLength (CreateNodes tgt [node]) <= maxPayloadSize options ->
  (forall m, executor m (CreateNodes tgt [node]) = Success response) ->
  (2 <= n)%nat ->
  let w' := drain jsonLength options executor n
              (step jsonLength options w (CallEnqueue (CreateNodes tgt [node]))) in
  sentRequests w' = sentRequests w ++ [CreateNodes tgt [node]] /\
  totalNodeCount (self w') =
    totalNodeCount (self w) + Z.of_nat (length (childrenOf response)) /\
  exists s,
    settled w' = settled w ++ [(nextFuture w, s)] /\
    createNode nodeId throws tgt node s =
      match childrenOf response with
      | [] => inl FailedToCreateNode
      | created :: _ => inr created
      end.
Proof.
  intros Hpos Hh Hw Hq Hp Hquota Hpay Hex Hn. cbn zeta.
  destruct (round_trip jsonLength options executor w (CreateNodes tgt [node])
              response n Hh Hw Hq Hp)
    as (_ & _ & _ & H4 & H5 & H6 & _); try assumption.
  { split; [assumption|cbn; lia]. }
  cbn zeta in *. split; [exact H5|]. split.
  - rewrite H6. unfold updateNodeCount, childrenOf. cbn.
    destruct (children response); reflexivity.
  - exists (Resolved response). split; [exact H4|].
    unfold createNode, createNodes, childrenOf. cbn [fst].
    destruct (children response) as [[|c cs]|]; reflexivity.
Qed.

(** X17. [setNodeName] from end to end: on an idle queue the rename is
    sent as one request, the node count stays as it is, and when the
    executor answers, [setNodeName] returns a node and throws nothing: the
    first child of the response, or a node with the id of the renamed node
    when the response has no child. *)
Theorem setNodeName_always_returns_a_node
    (ofNodeId : string -> TanaNodeResponse) w (targetNodeId newName : string)
    (response : TanaAPIResponse TanaNodeResponse) n :
  hung w = false -> worker w = Idle -> queue (self w) = [] ->
  processing (self w) = false ->
  totalNodeCount (self w) <= maxWorkspaceNodes options ->
  jsonLength (SetName targetNodeId newName) <= maxPayloadSize options ->
  (forall m, executor m (SetName targetNodeId newName) = Success response) ->
  (2 <= n)%nat ->
  let w' := drain jsonLength options executor n
              (step jsonLength options w (CallEnqueue (SetName targetNodeId newName))) in
  sentRequests w' = sentRequests w ++ [SetName targetNodeId newName] /\
  totalNodeCount (self w') = totalNodeCount (self w) /\
  exists s,
    settled w' = settled w ++ [(nextFuture w, s)] /\
    setNodeName ofNodeId targetNodeId s =
      inr (match childrenOf response with
           | [] => ofNodeId targetNodeId
           | first :: _ => first
           end).
Proof.
  intros Hh Hw Hq Hp Hquota Hpay Hex Hn. cbn zeta.
  destruct (round_trip jsonLength options executor w (SetName targetNodeId newName)
              response n Hh Hw Hq Hp)
    as (_ & _ & _ & H4 & H5 & H6 & _); try assumption.
  { cbn. lia. }
  { split; [assumption|exact I]. }
  cbn zeta in *. split; [exact H5|]. split; [exact H6|].
  exists (Resolved response). split; [exact H4|].
  unfold setNodeName, childrenOf.
  destruct (children response) as [[|c cs]|]; reflexivity.
Qed.

End ClientRun.

(** ** Names of generated tools and prompts *)

Section Names.

Import ToolNames.

Open Scope string_scope.

(** The examples of the source: ["Task"] and ["Meeting Notes"]. *)
Lemma tool_name_examples :
  generateToolName "Task" "create_" = "create_task" /\
  generateToolName "Meeting Notes" "create_" = "create_meeting_notes" /\
  generatePromptName "Meeting Notes" = "create-meeting-notes" /\
  generateToolName "  R&D:  Plan_2 " "create_" = "create__rd_plan2_".
Proof. repeat split; vm_compute; reflexivity. Qed.

Lemma isUnderscore_eqb a : isUnderscore a = Ascii.eqb a "_"%char.
Proof.
  unfold isUnderscore, code. destruct (Ascii.eqb_spec a "_"%char) as [->|Hne].
  - reflexivity.
  - apply Nat.eqb_neq. intros H. apply Hne.
    rewrite <- (ascii_nat_embedding a), H. reflexivity.
Qed.

Lemma remove_chars p s : Forall (fun a => p a = false) (chars (remove p s)).
Proof.
  induction s as [|a s IH]; cbn; [constructor|].
  destruct (p a) eqn:E; [exact IH|]. cbn. constructor; assumption.
Qed.

(** What is left of a name is made of small letters, digits and white
    space. *)
Lemma stripped_chars name :
  Forall (fun a => isLower a || isDigit a || isSpace a = true) (chars (stripped name)).
Proof.
  eapply Forall_impl; [|apply remove_chars]. cbn beta. unfold isSpecial.
  intros a H. now apply negb_false_iff in H.
Qed.

Lemma replaceRunsFrom_chars p c s :
  forall inRun,
    Forall (fun a => a = c \/ (p a = false /\ In a (chars s)))
      (chars (replaceRunsFrom p c inRun s)).
Proof.
  induction s as [|a s IH]; intros inRun; cbn; [constructor|].
  assert (Hw : forall b,
             Forall (fun x => x = c \/ (p x = false /\ In x (chars s)))
               (chars (replaceRunsFrom p c b s)) ->
             Forall (fun x => x = c \/ (p x = false /\ (a = x \/ In x (chars s))))
               (chars (replaceRunsFrom p c b s))).
  { intros b. apply Forall_impl. intuition auto. }
  destruct (p a) eqn:E.
  - destruct inRun; cbn; [|constructor; [now left|]]; apply Hw, IH.
  - cbn. constructor; [right; auto|]. apply Hw, IH.
Qed.

Lemma noDouble_cons c a b t :
  noDouble c (a :: b :: t) =
  negb (Ascii.eqb a c && Ascii.eqb b c) && noDouble c (b :: t).
Proof. reflexivity. Qed.

(** The replacement of runs never puts two [c] side by side, when [c] is
    not among the characters it keeps. *)
Lemma replaceRunsFrom_noDouble p c s :
  (forall a, In a (chars s) -> p a = false -> a <> c) ->
  forall inRun,
    noDouble c (chars (replaceRunsFrom p c inRun s)) = true /\
    (inRun = true ->
     match chars (replaceRunsFrom p c inRun s) with
     | a :: _ => a <> c
     | [] => True
     end).
Proof.
  induction s as [|a s IH]; intros Hkeep inRun; cbn [replaceRunsFrom];
    [cbn; auto|].
  assert (Hkeep' : forall x, In x (chars s) -> p x = false -> x <> c).
  { intros x Hx. apply Hkeep. cbn. auto. }
  destruct (p a) eqn:E.
  - destruct inRun.
    + apply IH. exact Hkeep'.
    + destruct (IH Hkeep' true) as [H1 H2]. specialize (H2 eq_refl).
      split; [|discriminate]. unfold chars in *. cbn [list_ascii_of_string].
      destruct (list_ascii_of_string (replaceRunsFrom p c true s)) as [|b t] eqn:Et;
        [reflexivity|].
      rewrite noDouble_cons, H1, andb_true_r. apply negb_true_iff.
      apply andb_false_iff. right. now apply Ascii.eqb_neq.
  - destruct (IH Hkeep' false) as [H1 _].
    assert (Hac : a <> c) by (apply Hkeep; [cbn; auto|exact E]).
    split; [|intros _; exact Hac]. unfold chars in *. cbn [list_ascii_of_string].
    destruct (list_ascii_of_string (replaceRunsFrom p c false s)) as [|b t] eqn:Et;
      [reflexivity|].
    rewrite noDouble_cons, H1, andb_true_r. apply negb_true_iff.
    apply andb_false_iff. left. now apply Ascii.eqb_neq.
Qed.

(** Replacing the runs of [c] by [c] changes nothing where no two [c]
    stand side by side. *)
Lemma replaceRunsFrom_fixed p c :
  (forall a, p a = Ascii.eqb a c) ->
  forall s inRun,
    noDouble c (chars s) = true ->
    (inRun = true -> match chars s with a :: _ => a <> c | [] => True end) ->
    replaceRunsFrom p c inRun s = s.
Proof.
  intros Hp. induction s as [|a s IH]; intros inRun Hnd Hhead; [reflexivity|].
  cbn [replaceRunsFrom]. rewrite Hp.
  assert (Hnd' : noDouble c (chars s) = true).
  { unfold chars in *. cbn [list_ascii_of_string] in Hnd.
    destruct (list_ascii_of_string s); [reflexivity|].
    rewrite noDouble_cons in Hnd. now apply andb_true_iff in Hnd as [_ Hnd]. }
  destruct (Ascii.eqb_spec a c) as [->|Hne].
  - destruct inRun; [exfalso; now apply (Hhead eq_refl)|].
    f_equal. apply IH; [exact Hnd'|]. intros _.
    unfold chars in *. cbn [list_ascii_of_string] in Hnd.
    destruct (list_ascii_of_string s) as [|b t]; [exact I|].
    rewrite noDouble_cons in Hnd.
    apply andb_true_iff in Hnd as [Hnd _]. apply negb_true_iff in Hnd.
    rewrite Ascii.eqb_refl in Hnd. cbn in Hnd. now apply Ascii.eqb_neq.
  - f_equal. apply IH; [exact Hnd'|discriminate].
Qed.

(** The replacement of runs by [c'] is the replacement by [c] with every
    [c] turned into [c'], when [c] is not among the characters kept. *)
Lemma replaceRunsFrom_substitute p c c' s :
  (forall a, In a (chars s) -> p a = false -> a <> c) ->
  forall inRun,
    replaceRunsFrom p c' inRun s = substitute c c' (replaceRunsFrom p c inRun s).
Proof.
  induction s as [|a s IH]; intros Hkeep inRun; [reflexivity|].
  assert (Hkeep' : forall x, In x (chars s) -> p x = false -> x <> c).
  { intros x Hx. apply Hkeep. cbn. auto. }
  cbn [replaceRunsFrom]. destruct (p a) eqn:E.
  - destruct inRun; cbn [substitute]; rewrite ?Ascii.eqb_refl, (IH Hkeep'); reflexivity.
  - cbn [substitute].
    assert (Hac : a <> c) by (apply Hkeep; [cbn; auto|exact E]).
    apply Ascii.eqb_neq in Hac. rewrite Hac, (IH Hkeep'). reflexivity.
Qed.

(** No character kept from a stripped name is an underscore. *)
Lemma stripped_keeps_no_underscore name a :
  In a (chars (stripped name)) -> isSpace a = false -> a <> "_"%char.
Proof.
  intros Hin Hs ->.
  pose proof (stripped_chars name) as H. rewrite Forall_forall in H.
  specialize (H _ Hin). rewrite Hs in H. vm_compute in H. discriminate.
Qed.

(** X18. The name of a generated tool is the prefix followed by small
    letters, digits and underscores only, with no two underscores side by
    side after the prefix, whatever the name of the schema. *)
Theorem tool_name_is_prefix_and_identifier (name prefix : string) :
  exists cleanName,
    generateToolName name prefix = prefix ++ cleanName /\
    Forall (fun a => isLower a || isDigit a || isUnderscore a = true) (chars cleanName) /\
    noDouble "_"%char (chars cleanName) = true.
Proof.
  unfold generateToolName. cbn zeta.
  destruct (replaceRunsFrom_noDouble isSpace "_"%char (stripped name)
              (stripped_keeps_no_underscore name) false) as [Hnd _].
  assert (Hfix : replaceRuns isUnderscore "_"%char
                   (replaceRuns isSpace "_"%char (stripped name)) =
                 replaceRuns isSpace "_"%char (stripped name)).
  { apply (replaceRunsFrom_fixed isUnderscore "_"%char isUnderscore_eqb);
      [exact Hnd|discriminate]. }
  rewrite Hfix. eexists. split; [reflexivity|]. split; [|exact Hnd].
  pose proof (replaceRunsFrom_chars isSpace "_"%char (stripped name) false) as Hc.
  pose proof (stripped_chars name) as Hs. rewrite Forall_forall in Hs.
  eapply Forall_impl; [|exact Hc]. cbn beta. intros a [->|[Hsp Hin]].
  - reflexivity.
  - specialize (Hs _ Hin). rewrite Hsp, orb_false_r in Hs. now rewrite Hs.
Qed.

(** The tool name without the last pass. *)
Lemma tool_name_without_last_pass (name : string) :
  generateToolName name "create_" =
  "create_" ++ replaceRuns isSpace "_"%char (stripped name).
Proof.
  destruct (replaceRunsFrom_noDouble isSpace "_"%char (stripped name)
              (stripped_keeps_no_underscore name) false) as [Hnd _].
  unfold generateToolName. cbn zeta. f_equal.
  apply (replaceRunsFrom_fixed isUnderscore "_"%char isUnderscore_eqb);
    [exact Hnd|discriminate].
Qed.

(** X19. The last pass of [generateToolName], which is to remove
    duplicate underscores, never changes anything: the two passes before
    it leave no two underscores side by side. So the name of the tool and
    the name of the prompt of a schema differ in the separator only. *)
Theorem duplicate_underscore_pass_is_identity (name prefix : string) :
  let spaced := replaceRuns isSpace "_"%char (stripped name) in
  replaceRuns isUnderscore "_"%char spaced = spaced /\
  generateToolName name prefix = prefix ++ spaced /\
  generatePromptName name = "create-" ++ substitute "_"%char "-"%char spaced.
Proof.
  cbn zeta.
  destruct (replaceRunsFrom_noDouble isSpace "_"%char (stripped name)
              (stripped_keeps_no_underscore name) false) as [Hnd _].
  assert (Hfix : replaceRuns isUnderscore "_"%char
                   (replaceRuns isSpace "_"%char (stripped name)) =
                 replaceRuns isSpace "_"%char (stripped name)).
  { apply (replaceRunsFrom_fixed isUnderscore "_"%char isUnderscore_eqb);
      [exact Hnd|discriminate]. }
  split; [exact Hfix|]. split.
  - unfold generateToolName. cbn zeta. now rewrite Hfix.
  - unfold generatePromptName, replaceRuns. cbn zeta. f_equal.
    apply replaceRunsFrom_substitute. apply stripped_keeps_no_underscore.
Qed.

End Names.

(** *** The name the server announces *)

Section Announced.

Import ToolNames.

Open Scope string_scope.

Lemma remove_none p s :
  Forall (fun a => p a = false) (chars s) -> remove p s = s.
Proof.
  induction s as [|a s IH]; intros H; [reflexivity|].
  unfold chars in H. cbn in H. apply Forall_cons_iff in H as [Ha H].
  cbn. rewrite Ha. f_equal. now apply IH.
Qed.

(** A run that has begun saves at most the one character that stands for
    it. *)
Lemma replaceRunsFrom_begun p c s :
  (String.length (replaceRunsFrom p c true s) <=
   String.length (replaceRunsFrom p c false s))%nat.
Proof.
  destruct s as [|a s]; [reflexivity|]. cbn [replaceRunsFrom].
  destruct (p a); cbn [String.length]; lia.
Qed.

(** Removing characters that are kept otherwise makes the result
    shorter. *)
Lemma replaceRunsFrom_remove p q c s :
  (forall a, q a = true -> p a = false) ->
  forall inRun,
    (String.length (replaceRunsFrom p c inRun (remove q s)) <=
     String.length (replaceRunsFrom p c inRun s))%nat /\
    (Exists (fun a => q a = true) (chars s) ->
     (String.length (replaceRunsFrom p c inRun (remove q s)) <
      String.length (replaceRunsFrom p c inRun s))%nat).
Proof.
  intros Hqp. induction s as [|a s IH]; intros inRun.
  - split; [reflexivity|]. intros H. inversion H.
  - unfold chars. cbn [remove list_ascii_of_string].
    assert (Hex : forall P : Prop,
               (q a = true -> P) ->
               (Exists (fun x => q x = true) (chars s) -> P) ->
               Exists (fun x => q x = true) (a :: list_ascii_of_string s) -> P).
    { intros P H1 H2 H. apply Exists_cons in H as [H|H]; auto. }
    destruct (q a) eqn:Eq.
    + (* [a] is removed *)
      cbn [replaceRunsFrom]. rewrite (Hqp a Eq). cbn [String.length].
      destruct (IH inRun) as [Hle _].
      pose proof (replaceRunsFrom_begun p c s) as Hb.
      assert (Hany : (String.length (replaceRunsFrom p c inRun s) <=
                      String.length (replaceRunsFrom p c false s))%nat).
      { destruct inRun; [exact Hb|lia]. }
      split; [lia|intros _; lia].
    + cbn [replaceRunsFrom]. destruct (p a).
      * destruct (IH true) as [Hle Hlt].
        destruct inRun; cbn [String.length];
          (split; [lia|apply Hex; [discriminate|intros H; specialize (Hlt H); lia]]).
      * destruct (IH false) as [Hle Hlt]. cbn [String.length].
        split; [lia|apply Hex; [discriminate|intros H; specialize (Hlt H); lia]].
Qed.

(** X23. The tool name the [add_schema] tool announces is the name of
    the tool that was generated exactly when the name of the schema, in
    small letters, is made of letters a to z, digits and white space only;
    a name with any other character is announced under a name that no
    tool has. *)
Theorem announced_name_is_tool_name_iff_plain (name : string) :
  announcedToolName name = generateToolName name "create_" <->
  Forall (fun a => isSpecial a = false) (chars (toLowerCase name)).
Proof.
  pose proof (tool_name_without_last_pass name) as Hgen.
  unfold announcedToolName. rewrite Hgen. split.
  - intros H.
    assert (Hlen : String.length (replaceRuns isSpace "_"%char (toLowerCase name)) =
                   String.length (replaceRuns isSpace "_"%char (stripped name))).
    { injection H as H. now rewrite H. }
    destruct (Forall_Exists_dec (fun a => isSpecial a = false)
                (fun a => bool_dec (isSpecial a) false) (chars (toLowerCase name)))
      as [Hf|Hex]; [exact Hf|exfalso].
    assert (Hex' : Exists (fun a => isSpecial a = true) (chars (toLowerCase name))).
    { eapply Exists_impl; [|exact Hex]. cbn beta. intros a Ha.
      now destruct (isSpecial a). }
    destruct (replaceRunsFrom_remove isSpace isSpecial "_"%char (toLowerCase name))
      with (inRun := false) as [_ Hlt].
    { intros a Ha. unfold isSpecial in Ha. apply negb_true_iff in Ha.
      apply orb_false_iff in Ha. tauto. }
    specialize (Hlt Hex'). unfold replaceRuns, stripped in Hlen. lia.
  - intros H. unfold stripped. now rewrite (remove_none _ _ H).
Qed.

End Announced.

(** ** Promises and their entries, and the time of the last request *)

Section Entries.

Context {TanaNode TanaNodeResponse : Type}.
Variable jsonLength : TanaAPIRequest TanaNode -> Z.
Variable options : BatchingOptions.

Implicit Types w : World TanaNode TanaNodeResponse.
Implicit Types q : QueuedRequest TanaNode TanaNodeResponse.
Implicit Types es : list (Event TanaNode TanaNodeResponse).

Lemma nodup_app_apart {A : Type} (l l' : list A) x :
  NoDup (l ++ l') -> In x l -> ~ In x l'.
Proof.
  induction l as [|a l IH]; intros Hnd Hin; [contradiction|].
  cbn in Hnd. apply NoDup_cons_iff in Hnd as [Ha Hnd].
  destruct Hin as [->|Hin]; [|now apply IH].
  intros Hx. apply Ha. apply in_app_iff. now right.
Qed.

(** X20. A promise has at most one entry at a time, in the queue or
    with the worker, and none once it is settled: the chunks of a split
    create are enqueued one after the other, each when the one before it
    was answered, and nothing of a request is left in the queue after its
    promise was resolved or rejected. *)
Theorem one_entry_per_unsettled_promise t es :
  let w := run jsonLength options (init t) es in
  NoDup (map logicalOf (entries w)) /\
  (forall q, In q (entries w) -> ~ In (logicalOf q) (map fst (settled w))) /\
  (forall q, In q (entries w) -> (logicalOf q < nextFuture w)%nat).
Proof.
  cbn zeta.
  assert (Hr : reachable jsonLength options (run jsonLength options (init t) es))
    by (exists t, es; reflexivity).
  destruct (sound_reachable jsonLength options _ Hr) as ((Hnd & Hlt & _) & _ & _).
  cbn [app] in Hnd, Hlt. unfold owed in *.
  split; [|split].
  - now apply NoDup_app_remove_l in Hnd.
  - intros q Hq Hs. apply (nodup_app_apart _ _ _ Hnd Hs). now apply in_map.
  - intros q Hq. apply Hlt. apply in_app_iff. right. now apply in_map.
Qed.

(** X21. [lastRequestTime] changes in one place only: when the executor
    answers the request in flight, it becomes the time of the answer. A
    failure, a retry, an enqueue and the pacing leave it as it is. *)
Theorem last_request_time_changes_only_on_answer w
    (e : Event TanaNode TanaNodeResponse) :
  let w' := step jsonLength options w e in
  lastRequestTime (self w') = lastRequestTime (self w) \/
  (exists q response,
      e = ExecutorReturns (Success response) /\ worker w = InFlight q /\
      hung w = false /\
      lastRequestTime (self w') = now w /\ now w' = now w).
Proof.
  cbn zeta. unfold step. destruct (hung w) eqn:Hh; [now left|].
  destruct e as [r|c| |ms| |o]; try (left; reflexivity).
  - left. exact (proj1 (proj2 (move_enqueue jsonLength options
                                 (Caller (nextFuture w)) r (bump w)))).
  - left. destruct (worker w) as [|t|q|q t]; try reflexivity.
    + destruct (shiftAndExecute_frame (withNow w (Z.max (now w) t)))
        as (_ & _ & _ & _ & -> & _).
      reflexivity.
    + exact (proj1 (proj2 (move_whileLoop options
                             (unshift q (withNow w (Z.max (now w) t)))))).
  - destruct (worker w) as [|t|q|q t] eqn:Hw; try (left; reflexivity).
    destruct o as [response|error].
    + right. exists q, response. repeat split.
      * unfold handleResponse.
        match goal with |- context [resolveWith _ _ ?k ?r (whileLoop _ ?x)] =>
          destruct (move_trans options _ _ _ (move_whileLoop options x)
                      (move_resolveWith jsonLength options k r (whileLoop options x)))
            as (_ & -> & _) end.
        reflexivity.
      * unfold handleResponse.
        match goal with |- context [resolveWith _ _ ?k ?r (whileLoop _ ?x)] =>
          destruct (move_trans options _ _ _ (move_whileLoop options x)
                      (move_resolveWith jsonLength options k r (whileLoop options x)))
            as (-> & _) end.
        reflexivity.
    + left. unfold handleRequestError.
      match goal with |- context [if ?c then _ else _] => destruct c end;
        [reflexivity|].
      match goal with |- context [whileLoop _ ?x] =>
        exact (proj1 (proj2 (move_whileLoop options x))) end.
Qed.

(** X22. A split create can be rejected half way: when the answer to
    one chunk has raised the node count so far that the next chunk no
    longer passes the workspace check, the promise of the whole create is
    rejected with the workspace error, the nodes of the chunks answered so
    far stay counted, and the chunks not yet sent are given up. *)
Theorem split_create_denied_midway w q fr tgt (sentNodes chunk : list TanaNode)
    (rest : list (list TanaNode)) (response : TanaAPIResponse TanaNodeResponse) :
  hung w = false ->
  worker w = InFlight q ->
  request q = CreateNodes tgt sentNodes ->
  cont q = Chunk fr ->
  remaining fr = chunk :: rest ->
  let counted := totalNodeCount (self w) + Z.of_nat (length (childrenOf response)) in
  maxWorkspaceNodes options < counted + Z.of_nat (length chunk) ->
  let w' := step jsonLength options w (ExecutorReturns (Success response)) in
  settled w' =
    settled w ++
    [(logical fr,
      Rejected (WorkspaceLimitExceeded (Z.of_nat (length chunk))
                  (maxWorkspaceNodes options) counted))] /\
  totalNodeCount (self w') = counted /\
  (forall e, In e (entries w') -> In e (queue (self w))) /\
  requestId (self w') = requestId (self w).
Proof.
  intros Hh Hw Hr Hk Hrem. cbn zeta. intros Hover.
  rewrite (step_success jsonLength options w q response Hh Hw).
  unfold handleResponse. rewrite Hk, Hr.
  set (w1 := withSelf w (updateNodeCount (CreateNodes tgt sentNodes) response (self w))).
  set (w2 := withSelf w1 (withLastRequestTime (self w1) (now w1))).
  cbn [resolveWith remaining]. rewrite Hrem.
  unfold nextChunk. cbn [remaining logical target allResponses].
  assert (Ht : totalNodeCount (self (whileLoop options w2)) =
               totalNodeCount (self w) + Z.of_nat (length (childrenOf response))).
  { rewrite whileLoop_totalNodeCount. cbn. unfold childrenOf.
    destruct (children response); reflexivity. }
  unfold enqueueChunk, enqueueVia. cbn [estimatedNewNodes]. rewrite Ht.
  destruct (Z.gtb_spec (totalNodeCount (self w) + Z.of_nat (length (childrenOf response))
                        + Z.of_nat (length chunk)) (maxWorkspaceNodes options)); [|lia].
  unfold rejectWith. cbn [logicalFuture logical settle settled self].
  destruct (whileLoop_frame options w2) as (Hs & _ & _ & _ & _ & Hid).
  rewrite Hs. repeat split.
  - exact Ht.
  - intros e He.
    assert (Hent : entries (settle (logical fr)
                     (Rejected (WorkspaceLimitExceeded (Z.of_nat (length chunk))
                        (maxWorkspaceNodes options)
                        (totalNodeCount (self w) +
                         Z.of_nat (length (childrenOf response)))))
                     (whileLoop options w2)) = entries (whileLoop options w2))
      by reflexivity.
    rewrite Hent in He.
    pose proof (whileLoop_result options w2) as Hl.
    assert (Hq2 : queue (self w2) = queue (self w)) by reflexivity.
    destruct Hl as [E|t' q' rest' E|q' rest' E]; unfold entries in He; cbn in He.
    + rewrite <- Hq2. exact He.
    + rewrite <- Hq2. exact He.
    + rewrite <- Hq2, E. destruct He as [<-|He]; [now left|now right].
  - exact Hid.
Qed.

End Entries.

(** ** The scenarios, evaluated *)

(** Spec scenario 1: 250 nodes with the default limit of 100 are sent as
    chunks of 100, 100 and 50 nodes, and the caller gets one response with
    the 250 results in the order of the nodes. *)
Lemma split_combine_identity_witness :
  let nodes := seq 0 250 in
  let request := CreateNodes None nodes in
  let w' := drain Scenarios.sizeOf defaultOptions Scenarios.creator 6
              (step Scenarios.sizeOf defaultOptions (init 5000) (CallEnqueue request)) in
  0 < maxNodesPerRequest defaultOptions /\
  maxNodesPerRequest defaultOptions < Z.of_nat (length nodes) /\
  chunkNodes nodes 100 = Some [seq 0 100; seq 100 100; seq 200 50] /\
  worker w' = Idle /\
  settled w' = [(0%nat, Resolved {| children := Some (map S nodes) |})] /\
  totalNodeCount (self w') = 250 /\
  sentRequests w' =
    [CreateNodes None (seq 0 100); CreateNodes None (seq 100 100);
     CreateNodes None (seq 200 50)].
Proof.
  cbn zeta.
  assert (H1 : 0 < maxNodesPerRequest defaultOptions) by (cbn; lia).
  assert (H2 : maxNodesPerRequest defaultOptions < Z.of_nat (length (seq 0 250)))
    by (vm_compute; reflexivity).
  assert (H3 : chunkNodes (seq 0 250) 100 = Some [seq 0 100; seq 100 100; seq 200 50])
    by (vm_compute; reflexivity).
  split; [exact H1|]. split; [exact H2|]. split; [exact H3|].
  destruct (split_combine_identity Scenarios.sizeOf defaultOptions S None (seq 0 250) H1 H2)
    as (chunks & Hc & _ & _ & _ & _ & Hrun).
  change (maxNodesPerRequest defaultOptions) with 100 in Hc.
  rewrite H3 in Hc. injection Hc as <-.
  apply (Hrun Scenarios.creator (init 5000) 6%nat).
  - intros m t ns. reflexivity.
  - reflexivity.
  - reflexivity.
  - reflexivity.
  - reflexivity.
  - vm_compute. intro. discriminate.
  - vm_compute. intro. discriminate.
  - repeat constructor; vm_compute; intro; discriminate.
  - cbn. lia.
Defined.

Example chunks_of_250_by_100 :
  option_map (map (@length nat)) (chunkNodes (seq 0 250) 100) = Some [100; 100; 50]%nat.
Proof. vm_compute. reflexivity. Qed.

Module Evaluated.
Import Scenarios.

(** Workspace of ten nodes, eight of them in use: a create of five nodes
    and then a create of three nodes are both denied, and the count stays
    at eight. *)
Lemma denial_is_pure_witness :
  let w := run sizeOf tenNodes (init 5000) eightInUse in
  let rs := [CreateNodes None [1; 2; 3; 4; 5]%nat] in
  let r := CreateNodes None [1; 2; 3]%nat in
  let w1 := run sizeOf tenNodes w (map CallEnqueue rs) in
  let w2 := step sizeOf tenNodes w1 (CallEnqueue r) in
  totalNodeCount (self w) = 8 /\
  (self w1 = self w /\
   denied sizeOf tenNodes (self w1) r /\
   self w2 = self w /\
   totalNodeCount (self w2) = totalNodeCount (self w) /\
   entries w2 = entries w /\
   dispatched w2 = dispatched w /\
   exists err, settled w2 = settled w1 ++ [(nextFuture w1, Rejected err)]).
Proof.
  cbn zeta. split; [reflexivity|].
  apply (denial_is_pure sizeOf tenNodes
           (run sizeOf tenNodes (init 5000) eightInUse)
           [CreateNodes None [1; 2; 3; 4; 5]%nat]
           (CreateNodes None [1; 2; 3]%nat)).
  - reflexivity.
  - constructor; [|constructor]. left. vm_compute. reflexivity.
  - left. vm_compute. reflexivity.
Defined.

(** C1, evaluated: with a ceiling of ten nodes, two creates of six nodes
    are both admitted while the count is still zero; after both succeeded
    the count is twelve. *)
Theorem admitted_creates_exceed_ceiling :
  let w := run sizeOf tenNodes (init 5000) twoAdmitted in
  maxWorkspaceNodes tenNodes = 10 /\
  totalNodeCount (self w) = 12 /\
  map fst (settled w) = [0; 1]%nat /\
  carriedResults (snd (nth 0 (settled w) (0%nat, Rejected (PayloadTooLarge 0 0)))) =
    [101; 102; 103; 104; 105; 106]%nat /\
  carriedResults (snd (nth 1 (settled w) (0%nat, Rejected (PayloadTooLarge 0 0)))) =
    [107; 108; 109; 110; 111; 112]%nat.
Proof. vm_compute. repeat split. Qed.

(** C3, evaluated: one request per second is allowed, yet with a base
    backoff of 100 ms the four attempts of one failing request are made at
    5000, 5100, 5300 and 5700 ms: four calls of the executor within one
    second, where the rate with one permit of slack allows two. *)
Theorem retries_outrun_rate_limit :
  let w := run sizeOf shortBackoff (init 5000) alwaysFailing in
  map (@at_ nat nat) (dispatched w) = [5000; 5100; 5300; 5700] /\
  attemptsIn 5000 (5000 + 1000) (dispatched w) = 4 /\
  rateLimit shortBackoff * 1 + 1 < attemptsIn 5000 (5000 + 1000) (dispatched w).
Proof. vm_compute. repeat split. Qed.

(** A failure the specification calls non-retryable is retried like any
    other: after the first attempt was answered with 400 Bad Request the
    promise is not settled, the entry waits for a backoff of 1000 ms with
    its retry counter at 1, and it is sent again when the timer fires. *)
Lemma bad_request_is_retried :
  let w := run sizeOf defaultOptions (init 5000)
             (oneRename ++ [ExecutorReturns (Failure badRequest)]) in
  specNonRetryable badRequest = true /\
  settled w = [] /\
  worker w = BackingOff (rename1 1) 6000 /\
  map (fun d => (at_ d, sent d)) (dispatched (step sizeOf defaultOptions w TimerFires)) =
    [(5000, rename1 0); (6000, rename1 1)].
Proof. vm_compute. repeat split. Qed.

Lemma every_failure_counts_witness :
  let w := run sizeOf defaultOptions (init 5000) oneRename in
  let w1 := step sizeOf defaultOptions w (ExecutorReturns (Failure badRequest)) in
  (retryCount (rename1 0) + 1 <= maxRetries defaultOptions ->
   worker w1 = BackingOff (rename1 1) (5000 + Z.max 0 (1000 * 2 ^ 0)) /\
   settled w1 = settled w /\
   self w1 = self w /\
   entries (step sizeOf defaultOptions w1 TimerFires) = rename1 1 :: queue (self w)) /\
  (maxRetries defaultOptions < retryCount (rename1 0) + 1 ->
   settled w1 =
     settled w ++ [(logicalOf (rename1 0),
                    Rejected (RetriesExceeded (maxRetries defaultOptions) badRequest))] /\
   entries w1 = queue (self w)).
Proof.
  cbn zeta.
  apply (every_failure_counts sizeOf defaultOptions
           (run sizeOf defaultOptions (init 5000) oneRename)
           (rename1 0) badRequest); reflexivity.
Defined.

(** A split create whose first chunk succeeded and whose second chunk
    failed for good: the caller gets a plain rejection that carries no
    results, two nodes have been created and counted, and the third chunk
    is never sent. *)
Lemma partial_results_are_dropped :
  let w := run sizeOf pairs (init 5000) secondChunkFails in
  settled w = [(0%nat, Rejected (RetriesExceeded 0 badRequest))] /\
  (forall s, In (0%nat, s) (settled w) -> carriedResults s = []) /\
  totalNodeCount (self w) = 2 /\
  map (fun d => request (sent d)) (dispatched w) =
    [CreateNodes None [1; 2]%nat; CreateNodes None [3; 4]%nat] /\
  entries w = [].
Proof.
  cbn zeta.
  assert (E : settled (run sizeOf pairs (init 5000) secondChunkFails) =
              [(0%nat, Rejected (RetriesExceeded 0 badRequest))])
    by (vm_compute; reflexivity).
  split; [exact E|]. split.
  - rewrite E. intros s [H|[]]. injection H as <-. reflexivity.
  - vm_compute. repeat split.
Qed.

Lemma failed_chunk_rejects_whole_request_witness :
  let w := run sizeOf pairs (init 5000)
             [CallEnqueue (CreateNodes None [1; 2; 3; 4; 5]%nat);
              ExecutorReturns (created [101; 102]%nat); TimerFires] in
  let w1 := step sizeOf pairs w (ExecutorReturns (Failure badRequest)) in
  let outcome := Rejected (RetriesExceeded (maxRetries pairs) badRequest) in
  worker w = InFlight chunk2 /\
  (settled w1 = settled w ++ [(0%nat, outcome)] /\
   carriedResults outcome = @nil nat /\
   totalNodeCount (self w1) = totalNodeCount (self w) /\
   requestId (self w1) = requestId (self w) /\
   entries w1 = queue (self w)).
Proof.
  cbn zeta. split; [reflexivity|].
  apply (failed_chunk_rejects_whole_request sizeOf pairs
           (run sizeOf pairs (init 5000)
              secondChunkInFlight)
           chunk2 frame2 badRequest).
  - reflexivity.
  - reflexivity.
  - reflexivity.
  - vm_compute. reflexivity.
Defined.

End Evaluated.

Module Retries.
Import Scenarios.

(** One retry allowed, every attempt fails: after the second attempt has
    failed the promise is rejected, and there were exactly two attempts. *)
Lemma retry_bound_witness :
  let w := run sizeOf oneRetry (init 5000) secondAttempt in
  0 <= maxRetries oneRetry /\
  worker w = InFlight (rename1 1) /\
  attempts 1 (dispatched w) = maxRetries oneRetry + 1 /\
  let w1 := step sizeOf oneRetry w (ExecutorReturns (Failure unavailable)) in
  settled w1 = [(0%nat, Rejected (RetriesExceeded 1 unavailable))] /\
  entries w1 = [] /\
  (forall q', In q' (entries w1) -> 1 < id q').
Proof.
  cbn zeta.
  assert (Hmax : 0 <= maxRetries oneRetry) by (cbn; lia).
  split; [exact Hmax|]. split; [reflexivity|]. split; [reflexivity|].
  exact (proj2 (proj2 (retry_bound sizeOf oneRetry 5000 secondAttempt Hmax)
                  (rename1 1) unavailable eq_refl eq_refl) eq_refl).
Defined.

Example rejected_after_two_attempts :
  let w := run sizeOf oneRetry (init 5000) failsTwice in
  settled w = [(0%nat, Rejected (RetriesExceeded 1 unavailable))] /\
  map (fun d => (at_ d, sent d)) (dispatched w) = [(5000, rename1 0); (6000, rename1 1)] /\
  entries w = [].
Proof. vm_compute. repeat split. Qed.

(** Spec scenario 3: two retries allowed, the executor fails twice and
    then succeeds: three attempts, after backoffs of one and two seconds. *)
Example succeeds_on_third_attempt :
  let w := run sizeOf twoRetries (init 5000) failsTwiceThenSucceeds in
  map (@at_ nat nat) (dispatched w) = [5000; 6000; 8000] /\
  settled w = [(0%nat, Resolved {| children := None |})].
Proof. vm_compute. repeat split. Qed.

(** A rename enqueued after a create of three nodes is sent between the
    two chunks of the create, and the second chunk is no retry. *)
Lemma overtake_log :
  dispatched (run sizeOf pairs (init 5000) renameOvertakes) = overtakeLog.
Proof. vm_compute. reflexivity. Qed.

Lemma later_request_overtakes_chunks :
  ~ orderRespected (dispatched (run sizeOf pairs (init 5000) renameOvertakes)).
Proof.
  rewrite overtake_log. intros H.
  assert (Hretry : 0 < retryCount (sent secondChunkCall)); [|cbn in Hretry; lia].
  apply (H 1%nat 2%nat secondChunkCall renameCall); [lia|reflexivity|reflexivity|].
  cbn. lia.
Qed.

(** In [renameOvertakes] the rename is sent before the second chunk of
    the create: the entry of the rename has the smaller id, and the second
    chunk is not the first entry of its request. *)
Lemma calls_follow_entry_order_witness :
  let w := run sizeOf pairs (init 5000) renameOvertakes in
  (1 < 2)%nat /\
  nth_error (dispatched w) 1 = Some renameCall /\
  nth_error (dispatched w) 2 = Some secondChunkCall /\
  id (sent renameCall) <= id (sent secondChunkCall) /\
  ((logicalOf (sent secondChunkCall) < logicalOf (sent renameCall))%nat ->
   isFirstEntry (sent secondChunkCall) = false).
Proof.
  cbn zeta.
  assert (H1 : nth_error (dispatched (run sizeOf pairs (init 5000) renameOvertakes)) 1 =
               Some renameCall) by (rewrite overtake_log; reflexivity).
  assert (H2 : nth_error (dispatched (run sizeOf pairs (init 5000) renameOvertakes)) 2 =
               Some secondChunkCall) by (rewrite overtake_log; reflexivity).
  assert (H0 : (1 < 2)%nat) by lia.
  split; [exact H0|]. split; [exact H1|]. split; [exact H2|].
  exact (calls_follow_entry_order sizeOf pairs 5000 renameOvertakes 1 2
           renameCall secondChunkCall H0 H1 H2).
Defined.

Example split_create_resolves_with_all_results :
  let w := run sizeOf pairs (init 5000) allChunksSucceed in
  settled w = [(0%nat, Resolved {| children := Some [101; 102; 103; 104; 105]%nat |})] /\
  map (fun d => request (sent d)) (dispatched w) =
    [CreateNodes None [1; 2]%nat; CreateNodes None [3; 4]%nat; CreateNodes None [5]%nat] /\
  totalNodeCount (self w) = 5.
Proof. vm_compute. repeat split. Qed.


End Retries.

(** ** Further scenarios, evaluated *)

Module Checked.
Import Scenarios Cases.

(** One request per second: a rename is answered at time 5000, and the
    worker sleeps until 6000 before it sends the next one. *)
Lemma sends_wait_for_min_interval_witness :
  let w := run sizeOf defaultOptions (init 5000) answeredThenEnqueued in
  0 < rateLimit defaultOptions /\
  (rateLimit defaultOptions | 1000) /\
  worker w = Pacing 6000 /\
  lastRequestTime (self w) = 5000 /\
  (forall q, worker w = InFlight q ->
             lastRequestTime (self w) + 1000 / rateLimit defaultOptions <= now w) /\
  (forall wakeAt, worker w = Pacing wakeAt ->
                  wakeAt = lastRequestTime (self w) + 1000 / rateLimit defaultOptions).
Proof.
  cbn zeta.
  assert (Hpos : 0 < rateLimit defaultOptions) by reflexivity.
  assert (Hdiv : (rateLimit defaultOptions | 1000)) by (exists 1000; reflexivity).
  split; [exact Hpos|]. split; [exact Hdiv|].
  split; [reflexivity|]. split; [reflexivity|].
  exact (sends_wait_for_min_interval sizeOf defaultOptions 5000 answeredThenEnqueued
           Hpos Hdiv).
Defined.

(** A rename is answered at time 5000; the next rename is sent at 6000. *)
Lemma no_send_soon_after_response_witness :
  let w := run sizeOf defaultOptions (init 5000) oneRename in
  let w1 := step sizeOf defaultOptions w
              (ExecutorReturns (Success {| children := None |})) in
  hung w = false /\ worker w = InFlight (rename1 0) /\
  exists later,
    dispatched (run sizeOf defaultOptions w1 renameAgain) = dispatched w ++ later /\
    Forall (fun d => now w + 1000 / rateLimit defaultOptions <= at_ d) later.
Proof.
  cbn zeta. split; [reflexivity|]. split; [reflexivity|].
  apply (no_send_soon_after_response sizeOf defaultOptions
           (run sizeOf defaultOptions (init 5000) oneRename) (rename1 0)
           {| children := None |} renameAgain); reflexivity.
Defined.

(** While the first rename is in flight, a second one is only appended. *)
Lemma busy_worker_sends_nothing_witness :
  let w := run sizeOf defaultOptions (init 5000) oneRename in
  let w' := step sizeOf defaultOptions w (CallEnqueue (SetName "node" "other")) in
  worker w' = worker w /\ dispatched w' = dispatched w /\
  exists added, queue (self w') = queue (self w) ++ added.
Proof.
  cbn zeta.
  apply (busy_worker_sends_nothing sizeOf defaultOptions
           (run sizeOf defaultOptions (init 5000) oneRename)
           (CallEnqueue (SetName "node" "other"))).
  - exists 5000, oneRename. reflexivity.
  - vm_compute. discriminate.
  - reflexivity.
Defined.

(** The rename that failed once is the request sent when its backoff
    sleep ends. *)
Lemma retried_request_is_sent_next_witness :
  let w := run sizeOf shortBackoff (init 5000) renameFailsOnce in
  let w1 := step sizeOf shortBackoff w TimerFires in
  worker w = BackingOff (rename1 1) 5100 /\
  worker w1 = InFlight (rename1 1) /\
  ((worker w1 = InFlight (rename1 1) /\
    dispatched w1 = dispatched w ++ [{| at_ := now w1; sent := rename1 1 |}]) \/
   (exists t',
       worker w1 = Pacing t' /\ dispatched w1 = dispatched w /\
       forall rs : list (TanaAPIRequest nat),
         let w2 := run sizeOf shortBackoff w1 (map CallEnqueue rs) in
         hung w2 = false ->
         let w3 := step sizeOf shortBackoff w2 TimerFires in
         worker w3 = InFlight (rename1 1) /\
         dispatched w3 = dispatched w ++ [{| at_ := now w3; sent := rename1 1 |}])).
Proof.
  cbn zeta. split; [reflexivity|]. split; [reflexivity|].
  apply (retried_request_is_sent_next sizeOf shortBackoff
           (run sizeOf shortBackoff (init 5000) renameFailsOnce) (rename1 1) 5100).
  - exists 5000, renameFailsOnce. reflexivity.
  - reflexivity.
  - reflexivity.
Defined.

(** A rename on a queue without an executor ends rejected. *)
Lemma unset_executor_rejects_every_request_witness :
  let w := run sizeOf defaultOptions (init 5000) oneRename in
  let w' := drain sizeOf defaultOptions executeRequest (measure defaultOptions w) w in
  nextFuture w = 1%nat /\
  worker w' = Idle /\ queue (self w') = [] /\
  forall f, (f < nextFuture w)%nat ->
            exists s, In (f, s) (settled w') /\ rejectedUnsent defaultOptions s.
Proof.
  cbn zeta. split; [reflexivity|].
  apply (unset_executor_rejects_every_request sizeOf defaultOptions).
  - vm_compute. discriminate.
  - repeat constructor.
  - reflexivity.
Defined.

(** What the promise of that rename is rejected with, after four calls. *)
Lemma unset_executor_rejects_rename :
  let w := run sizeOf defaultOptions (init 5000) oneRename in
  let w' := drain sizeOf defaultOptions executeRequest (measure defaultOptions w) w in
  settled w' = [(0%nat, Rejected (RetriesExceeded 3 unimplemented))] /\
  length (dispatched w') = 4%nat.
Proof. vm_compute. split; reflexivity. Qed.

(** With [maxNodesPerRequest: 0], a create of one node hangs. *)
Lemma nonpositive_chunk_size_hangs_enqueue_witness :
  let w := init (TanaNode := nat) (TanaNodeResponse := nat) 5000 in
  let w' := step sizeOf zeroChunk w (CallEnqueue (CreateNodes None [1%nat])) in
  hung w' = true /\
  settled w' = settled w /\ entries w' = entries w /\ dispatched w' = dispatched w /\
  forall es, run sizeOf zeroChunk w' es = w'.
Proof.
  cbn zeta.
  apply (nonpositive_chunk_size_hangs_enqueue sizeOf zeroChunk (init 5000) None [1%nat]).
  - vm_compute. discriminate.
  - discriminate.
  - reflexivity.
  - vm_compute. discriminate.
  - vm_compute. discriminate.
Defined.

(** 250 nodes in chunks of 100: three chunks. *)
Lemma chunk_count_is_rounded_up_quotient_witness :
  exists chunks,
    chunkNodes (seq 0 250) 100 = Some chunks /\
    Z.of_nat (length chunks) = (Z.of_nat (length (seq 0 250)) + 100 - 1) / 100.
Proof. apply (chunk_count_is_rounded_up_quotient (seq 0 250) 100). lia. Defined.

(** A rename on a new queue. *)
Lemma single_request_round_trip_witness :
  let r := SetName "node" "name" in
  let w := init (TanaNode := nat) (TanaNodeResponse := nat) 5000 in
  let w' := drain sizeOf defaultOptions creator 2
              (step sizeOf defaultOptions w (CallEnqueue r)) in
  worker w' = Idle /\ queue (self w') = [] /\
  settled w' = settled w ++ [(nextFuture w, Resolved {| children := None |})] /\
  sentRequests w' = sentRequests w ++ [r] /\
  totalNodeCount (self w') =
    totalNodeCount (self w) +
    (if isCreateNodesRequest r
     then Z.of_nat (length (childrenOf (R := nat) {| children := None |})) else 0) /\
  lastRequestTime (self w') = now w'.
Proof.
  cbn zeta.
  apply (single_request_round_trip sizeOf defaultOptions creator (init 5000)
           (SetName "node" "name") {| children := None |} 2).
  - reflexivity.
  - reflexivity.
  - reflexivity.
  - reflexivity.
  - vm_compute. discriminate.
  - split; [vm_compute; discriminate|exact I].
  - intros m. reflexivity.
  - lia.
Defined.

(** Five nodes, two per request: three requests, five results, and
    every node mirrored with the id of its own result. *)
Lemma createNodes_returns_and_mirrors_every_node_witness :
  let nodes := [1; 2; 3; 4; 5]%nat in
  let w := init (TanaNode := nat) (TanaNodeResponse := nat) 5000 in
  let w' := drain sizeOf pairs creator 12
              (step sizeOf pairs w (CallEnqueue (CreateNodes None nodes))) in
  exists s,
    settled w' = settled w ++ [(nextFuture w, s)] /\
    TanaClient.createNodes idOf (fun _ => false) None nodes s =
      (inr (map S nodes),
       map (fun node => {| TanaClient.nodeData := node; TanaClient.targetNodeId := None;
                           TanaClient.resultId := idOf (S node) |}) nodes) /\
    totalNodeCount (self w') = totalNodeCount (self w) + Z.of_nat (length nodes).
Proof.
  cbn zeta.
  apply (createNodes_returns_and_mirrors_every_node idOf sizeOf pairs creator S
           (init 5000) None [1; 2; 3; 4; 5]%nat 12).
  - vm_compute. reflexivity.
  - reflexivity.
  - reflexivity.
  - reflexivity.
  - reflexivity.
  - vm_compute. discriminate.
  - vm_compute. discriminate.
  - intros chunks H. vm_compute in H. injection H as <-.
    repeat constructor; vm_compute; discriminate.
  - intros m t ns. reflexivity.
  - vm_compute. lia.
Defined.

(** The calls of the executor and the mirror in that run. *)
Lemma createNodes_scenario :
  let nodes := [1; 2; 3; 4; 5]%nat in
  let w' := drain sizeOf pairs creator 12
              (step sizeOf pairs (init 5000) (CallEnqueue (CreateNodes None nodes))) in
  sentRequests w' =
    [CreateNodes None [1; 2]%nat; CreateNodes None [3; 4]%nat; CreateNodes None [5]%nat] /\
  map TanaClient.resultId
    (snd (TanaClient.createNodes idOf (fun _ => false) None nodes
            (Resolved {| children := Some [2; 3; 4; 5; 6]%nat |}))) =
    ["2"; "3"; "4"; "5"; "6"]%string.
Proof. vm_compute. split; reflexivity. Qed.

(** One node on a new queue with the default options. *)
Lemma createNode_returns_first_child_or_fails_witness :
  let w := init (TanaNode := nat) (TanaNodeResponse := nat) 5000 in
  let response := {| children := Some [2%nat] |} in
  let w' := drain sizeOf defaultOptions creator 2
              (step sizeOf defaultOptions w (CallEnqueue (CreateNodes None [1%nat]))) in
  sentRequests w' = sentRequests w ++ [CreateNodes None [1%nat]] /\
  totalNodeCount (self w') =
    totalNodeCount (self w) + Z.of_nat (length (childrenOf response)) /\
  exists s,
    settled w' = settled w ++ [(nextFuture w, s)] /\
    TanaClient.createNode idOf (fun _ => false) None 1%nat s =
      match childrenOf response with
      | [] => inl TanaClient.FailedToCreateNode
      | created :: _ => inr created
      end.
Proof.
  cbn zeta.
  apply (createNode_returns_first_child_or_fails idOf sizeOf defaultOptions creator
           (fun _ => false) (init 5000) None 1%nat {| children := Some [2%nat] |} 2).
  - vm_compute. discriminate.
  - reflexivity.
  - reflexivity.
  - reflexivity.
  - reflexivity.
  - vm_compute. discriminate.
  - vm_compute. discriminate.
  - intros m. reflexivity.
  - lia.
Defined.

(** A rename on a new queue, answered without children. *)
Lemma setNodeName_always_returns_a_node_witness :
  let w := init (TanaNode := nat) (TanaNodeResponse := nat) 5000 in
  let response := {| children := None |} in
  let w' := drain sizeOf defaultOptions creator 2
              (step sizeOf defaultOptions w (CallEnqueue (SetName "node" "name"))) in
  sentRequests w' = sentRequests w ++ [SetName "node" "name"] /\
  totalNodeCount (self w') = totalNodeCount (self w) /\
  exists s,
    settled w' = settled w ++ [(nextFuture w, s)] /\
    TanaClient.setNodeName renamed "node" s =
      inr (match childrenOf response with
           | [] => renamed "node"
           | first :: _ => first
           end).
Proof.
  cbn zeta.
  apply (setNodeName_always_returns_a_node sizeOf defaultOptions creator renamed
           (init 5000) "node" "name" {| children := None |} 2).
  - reflexivity.
  - reflexivity.
  - reflexivity.
  - reflexivity.
  - vm_compute. discriminate.
  - vm_compute. discriminate.
  - intros m. reflexivity.
  - lia.
Defined.

(** A create of four nodes in a workspace of five: the answer to the
    first chunk counts four nodes, and the second chunk is denied. *)
Lemma split_create_denied_midway_witness :
  let w := run sizeOf smallWorkspace (init 5000) fourNodes in
  let counted := totalNodeCount (self w) + Z.of_nat (length (childrenOf fourCreated)) in
  let w' := step sizeOf smallWorkspace w (ExecutorReturns (Success fourCreated)) in
  worker w = InFlight firstOfFour /\
  settled w' =
    settled w ++
    [(logical frameOfFour,
      Rejected (WorkspaceLimitExceeded (Z.of_nat (length [3; 4]%nat))
                  (maxWorkspaceNodes smallWorkspace) counted))] /\
  totalNodeCount (self w') = counted /\
  (forall e, In e (entries w') -> In e (queue (self w))) /\
  requestId (self w') = requestId (self w).
Proof.
  cbn zeta. split; [reflexivity|].
  apply (split_create_denied_midway sizeOf smallWorkspace
           (run sizeOf smallWorkspace (init 5000) fourNodes) firstOfFour frameOfFour
           None [1; 2]%nat [3; 4]%nat [] fourCreated).
  - reflexivity.
  - reflexivity.
  - reflexivity.
  - reflexivity.
  - reflexivity.
  - vm_compute. reflexivity.
Defined.

(** A name with an ampersand is announced under a name no tool has. *)
Lemma announced_name_differs :
  ToolNames.announcedToolName "R&D Plan" = "create_r&d_plan"%string /\
  ToolNames.generateToolName "R&D Plan" "create_" = "create_rd_plan"%string.
Proof. vm_compute. split; reflexivity. Qed.

End Checked.
